(** * PyLDM global analysis ([pyldm/fit/svd_ga.py]): a shallow embedding

    The class [SVD_GA] fits a sum of exponential decays to the weighted left
    singular vectors of a data set.  The embedding follows the methods of the
    class one by one:

    - [__init__], [updateData] the attributes that the fit reads,
    - [_genD]                 the decay matrix (its convolved branches read
                              names that the module does not bind),
    - [_getDAS]               the QR based (ridge) linear solve,
    - [_min]                  the scalar objective,
    - [_GA], [Global]         the fit driver,
    - [_get_wLSVs_for_fit]    the selection of the columns to fit,
    - [_plot_res]             what the figure reads from the fit.

    [display] only draws, and is left out.

    numpy arrays are lists (vectors) and lists of rows (matrices); Python
    exceptions are an explicit error result.  The arithmetic of the code is a
    type class, with two instances: the real numbers (exact arithmetic, for the
    algebraic properties) and IEEE binary64 (for what a division by zero
    does). *)

From Stdlib Require Import PrimFloat Ascii String.
From Stdlib Require Import Reals Lra Lia ZArith List Bool Permutation FinFun.
Import ListNotations.

(** ** Python results *)

(** The exceptions the modelled code can raise. *)
Inductive exn : Type :=
| IndexError
| ValueError
| NameError
| OverflowError.

Inductive result (A : Type) : Type :=
| Ok (a : A)
| Raise (e : exn).

Arguments Ok {A} a.
Arguments Raise {A} e.

Definition bind {A B : Type} (r : result A) (k : A -> result B) : result B :=
  match r with
  | Ok a => k a
  | Raise e => Raise e
  end.

Notation "x <- e ;; k" := (bind e (fun x => k))
  (at level 61, e at next level, right associativity).

(** [for x in xs: s = body x s], stopping at the first exception. *)
Fixpoint for_in {I S : Type} (xs : list I) (body : I -> S -> result S) (s : S)
  : result S :=
  match xs with
  | [] => Ok s
  | x :: xs' => s' <- body x s ;; for_in xs' body s'
  end.

(** [range(lo, hi)] *)
Definition range (lo hi : nat) : list nat := seq lo (hi - lo).

(** [range(hi - 1, -1, -1)], the indices below [hi] from the last to the first *)
Definition range_down (hi : nat) : list nat := rev (seq 0 hi).

(** ** Python sequences and numpy arrays *)

Section Arrays.
Context {A : Type}.

(** [l[i]] for a Python integer [i]: a negative index counts from the end.
    This is the indexing of a Python list, for which an index of any size
    that is out of range is an [IndexError], and of an array at an index
    that fits a C long.  The indices that the code passes to an array are
    constants and loop counters below a length, which fit, but for the
    column [n - 1] of a selector, which is read by [getcol] below. *)
Definition getitem (l : list A) (i : Z) : result A :=
  let n := Z.of_nat (length l) in
  let k := if (i <? 0)%Z then (n + i)%Z else i in
  if (k <? 0)%Z then Raise IndexError
  else match nth_error l (Z.to_nat k) with
       | Some a => Ok a
       | None => Raise IndexError
       end.

(** [l[:n]] for a Python integer [n]; a slice never raises. *)
Definition slice_to (l : list A) (n : Z) : list A :=
  let len := Z.of_nat (length l) in
  let k := if (n <? 0)%Z then (len + n)%Z else n in
  firstn (Z.to_nat k) l.

(** [l] with position [i] replaced (nothing happens out of range; the
    callers below test the range first). *)
Fixpoint update (l : list A) (i : nat) (a : A) : list A :=
  match l, i with
  | [], _ => []
  | _ :: l', O => a :: l'
  | x :: l', S i' => x :: update l' i' a
  end.

(** [l[i] = a] for [0 <= i] *)
Definition setitem (l : list A) (i : nat) (a : A) : result (list A) :=
  if (i <? length l)%nat then Ok (update l i a) else Raise IndexError.

End Arrays.

(** A vector is a list and a matrix the list of its rows. *)
Abbreviation vec F := (list F) (only parsing).
Abbreviation matrix F := (list (list F)) (only parsing).

(** [shape A m n]: [A] is an [m] by [n] array. *)
Definition shape {F : Type} (A : matrix F) (m n : nat) : Prop :=
  length A = m /\ Forall (fun row => length row = n) A.

Section MatrixAccess.
Context {F : Type}.

(** [A[i, j] = v] for [0 <= i, j] *)
Definition setentry (A : matrix F) (i j : nat) (v : F) : result (matrix F) :=
  match nth_error A i with
  | Some row => row' <- setitem row j v ;; Ok (update A i row')
  | None => Raise IndexError
  end.

(** [A[i, j]] for Python integers [i], [j] *)
Definition getentry (A : matrix F) (i j : Z) : result F :=
  row <- getitem A i ;; getitem row j.

(** [A[i, :] = v]: the row must exist, and [v] must have the length of the
    row or length one (numpy broadcasts a single value over the row). *)
Definition setrow (A : matrix F) (i : Z) (v : vec F) : result (matrix F) :=
  let n := Z.of_nat (length A) in
  let k := if (i <? 0)%Z then (n + i)%Z else i in
  if (k <? 0)%Z then Raise IndexError
  else match nth_error A (Z.to_nat k) with
       | None => Raise IndexError
       | Some row =>
           if (length v =? length row)%nat then Ok (update A (Z.to_nat k) v)
           else match v with
                | [x] => Ok (update A (Z.to_nat k) (repeat x (length row)))
                | _ => Raise ValueError
                end
       end.

(** An index of an array is converted to a C long (64 bits) before it is
    compared with the bounds: numpy raises [OverflowError] for an integer
    that does not fit, and [IndexError] for one that fits and is out of
    range. *)
Definition fits_C_long (j : Z) : bool :=
  ((- 2 ^ 63 <=? j) && (j <? 2 ^ 63))%Z.

Definition out_of_bounds (j : Z) : exn :=
  if fits_C_long j then IndexError else OverflowError.

(** [A[:, j]] for a Python integer [j].  An array has fewer than [2^63]
    columns, so that an index within its bounds fits a C long, and the two
    tests are made in either order.  A list of rows does not keep the number
    of columns of an array without rows: for such an array numpy raises
    [IndexError] at every [j] that is out of range, where this function
    returns the empty column; the statements below that read a column fix
    the shape of the array. *)
Definition getcol (A : matrix F) (j : Z) : result (vec F) :=
  for_in A (fun row acc =>
    match getitem row j with
    | Ok x => Ok (acc ++ [x])
    | Raise _ => Raise (out_of_bounds j)
    end) [].

(** [A[:, :n]] *)
Definition cols_to (A : matrix F) (n : Z) : matrix F :=
  map (fun row => slice_to row n) A.
End MatrixAccess.

(** ** The arithmetic of the code *)

(** The operations on floating point numbers that the code uses.  [two] and
    [half] are the literals [2] and [0.5]; [root x] is [x**(0.5)];
    [nonzero x] is the test [x != 0]. *)
Class Arith (F : Type) : Type := {
  zero : F;
  one : F;
  two : F;
  half : F;
  add : F -> F -> F;
  sub : F -> F -> F;
  mul : F -> F -> F;
  div : F -> F -> F;
  opp : F -> F;
  root : F -> F;
  nonzero : F -> bool
}.

(** [np.exp], [np.log] and [scipy.special.erf], the special functions that
    the module reaches through a name it has bound. *)
Class Special (F : Type) : Type := {
  fexp : F -> F;
  flog : F -> F;
  ferf : F -> F
}.

Declare Scope arith_scope.
Delimit Scope arith_scope with ar.
Infix "+" := add : arith_scope.
Infix "-" := sub : arith_scope.
Infix "*" := mul : arith_scope.
Infix "/" := div : arith_scope.
Notation "- x" := (opp x) : arith_scope.

Section NumpyArith.
Context {F : Type} {AF : Arith F}.
Local Open Scope arith_scope.

(** [x**2] *)
Definition sqr (x : F) : F := x * x.

(** [np.zeros([m, n])]; a negative dimension is a [ValueError]. *)
Definition np_zeros (m : nat) (n : Z) : result (matrix F) :=
  if (n <? 0)%Z then Raise ValueError
  else Ok (repeat (repeat zero (Z.to_nat n)) m).

(** [np.identity(n)] *)
Definition np_identity (n : nat) : matrix F :=
  map (fun i => map (fun j => if (i =? j)%nat then one else zero) (seq 0 n))
      (seq 0 n).

(** [np.transpose(A)] *)
Definition transpose (A : matrix F) : matrix F :=
  match A with
  | [] => []
  | row0 :: _ =>
      map (fun j => map (fun row => nth j row zero) A) (seq 0 (length row0))
  end.

(** [c * A] for a scalar [c] *)
Definition scale (c : F) (A : matrix F) : matrix F := map (map (mul c)) A.

(** elementwise operations on rows of one length *)
Definition vadd (u v : vec F) : vec F := map (fun p => fst p + snd p) (combine u v).
Definition vsub (u v : vec F) : vec F := map (fun p => fst p - snd p) (combine u v).
Definition vscale (c : F) (v : vec F) : vec F := map (mul c) v.
Definition vdiv (v : vec F) (c : F) : vec F := map (fun x => x / c) v.

(** the sum of a sequence, from the left *)
Definition total (v : vec F) : F := fold_left add v zero.

(** the inner product of two rows *)
Definition inner (u v : vec F) : F := total (map (fun p => fst p * snd p) (combine u v)).

(** [A.dot(B)]: the inner dimensions must agree. *)
Definition np_dot (A B : matrix F) : result (matrix F) :=
  if forallb (fun row => (length row =? length B)%nat) A
  then Ok (map (fun row => map (inner row) (transpose B)) A)
  else Raise ValueError.
End NumpyArith.

(** ** Selector strings *)

(** [str.isspace] on the ASCII range: space, tab to carriage return, and the
    four separators 28 to 31. *)
Definition isspace (c : ascii) : bool :=
  let n := nat_of_ascii c in
  ((n =? 32) || ((9 <=? n) && (n <=? 13)) || ((28 <=? n) && (n <=? 31)))%nat.

(** [s.split()]: the maximal runs of characters that are not white space.
    [cur] is the run being read, last character first. *)
Fixpoint tokens (cs : list ascii) (cur : list ascii) : list (list ascii) :=
  match cs with
  | [] => match cur with [] => [] | _ => [rev cur] end
  | c :: cs' =>
      if isspace c
      then match cur with
           | [] => tokens cs' []
           | _ => rev cur :: tokens cs' []
           end
      else tokens cs' (c :: cur)
  end.

Definition split (s : string) : list (list ascii) :=
  tokens (list_ascii_of_string s) [].

Definition digit (c : ascii) : option Z :=
  let n := nat_of_ascii c in
  if ((48 <=? n) && (n <=? 57))%nat then Some (Z.of_nat n - 48)%Z else None.

(** The digits of a decimal literal; a single underscore may stand between
    two digits.  [after_digit] tells whether the last character read was a
    digit. *)
Fixpoint digits (cs : list ascii) (acc : Z) (after_digit : bool) : option Z :=
  match cs with
  | [] => if after_digit then Some acc else None
  | c :: cs' =>
      match digit c with
      | Some d => digits cs' (10 * acc + d)%Z true
      | None =>
          if (Ascii.eqb c "_" && after_digit)%bool then digits cs' acc false
          else None
      end
  end.

(** [int(tok)] on a token without white space: an optional sign and a decimal
    literal; anything else is a [ValueError]. *)
Definition int (tok : list ascii) : result Z :=
  let unsigned ds := digits ds 0%Z false in
  let parsed :=
    match tok with
    | c :: ds =>
        if Ascii.eqb c "-" then option_map Z.opp (unsigned ds)
        else if Ascii.eqb c "+" then unsigned ds
        else unsigned tok
    | [] => None
    end in
  match parsed with
  | Some z => Ok z
  | None => Raise ValueError
  end.

(** [list(map(int, toks))] *)
Fixpoint map_int (toks : list (list ascii)) : result (list Z) :=
  match toks with
  | [] => Ok []
  | t :: ts => z <- int t ;; zs <- map_int ts ;; Ok (z :: zs)
  end.

(** ** The external optimizer *)

(** [scipy.optimize.minimize] is a capability outside the repository.  A run
    of it is a finite dialogue with the objective: it asks for the value at a
    point and goes on from the answer, or stops with [result.x]. *)
Inductive optimizer (F : Type) : Type :=
| Done (x : vec F)
| Query (p : vec F) (k : F -> optimizer F).

Arguments Done {F} x.
Arguments Query {F} p k.

(** The run of an optimizer against an objective; an exception of the
    objective ends the run. *)
Fixpoint run_optimizer {F : Type} (o : optimizer F) (f : vec F -> result F)
  : result (vec F) :=
  match o with
  | Done x => Ok x
  | Query p k => v <- f p ;; run_optimizer (k v) f
  end.

(** The points at which the run evaluates the objective, in order. *)
Fixpoint queried {F : Type} (o : optimizer F) (f : vec F -> result F)
  : list (vec F) :=
  match o with
  | Done _ => []
  | Query p k =>
      p :: match f p with
           | Ok v => queried (k v) f
           | Raise _ => []
           end
  end.

(** The contract of [minimize] on the shape of its points: every point it
    evaluates, and the point it returns, has the length of [x0]. *)
Inductive sized {F : Type} (n : nat) : optimizer F -> Prop :=
| sized_Done x : length x = n -> sized n (Done x)
| sized_Query p k : length p = n -> (forall v, sized n (k v)) -> sized n (Query p k).

(** ** The class [SVD_GA] *)

(** The attributes of [self] that the fit reads: the weighted left singular
    vectors, the time grid and the sigma equivalent of the stored FWHM. *)
Record SVD_GA (F : Type) : Type := {
  wLSV : matrix F;
  T : vec F;
  FWHM_mod : F
}.

Arguments wLSV {F} _.
Arguments T {F} _.
Arguments FWHM_mod {F} _.

Section Methods.
Context {F : Type} {AF : Arith F} {SF : Special F}.
Local Open Scope arith_scope.

(** [np.linalg.qr] (reduced mode) and [scipy.optimize.minimize] with the
    bounds [B] are library routines. *)
Variable qr : matrix F -> matrix F * matrix F.
Variable minimize : vec F -> option (list (F * F)) -> optimizer F.

Variable self : SVD_GA F.

(** The names [sqrt], [log] and [exp] of lines 69, 77-78 and 82-83 are read
    without the [np.] prefix.  The module binds [plt], [np], [minimize],
    [erf], [Slider], [DiscreteSlider] and the public names of [scipy.linalg],
    none of which is one of the three (scipy.linalg has [sqrtm], [logm] and
    [expm]); they are no builtins either.  Reading such a name raises
    [NameError]. *)
Definition global_sqrt : result (F -> F) := Raise NameError.
Definition global_log : result (F -> F) := Raise NameError.
Definition global_exp : result (F -> F) := Raise NameError.

(** lines 77-79 and 82-84: the entry for width [w], from the values [exp_]
    and [sqrt_] of the names [exp] and [sqrt] *)
Definition convolved (exp_ sqrt_ : F -> F) (w t tau : F) : F :=
  let One := half * (fexp (- t / tau) * exp_ (sqr w / (two * tau)) / tau) in
  let Two := one + ferf ((t - sqr w / tau) / (sqrt_ two * w)) in
  One * Two.

(** lines 76-84, in the order of evaluation: [np.exp(-t/tau)] is computed
    before the name [exp] is read, and [sqrt] is read in the next line. *)
Definition convolved_entry (w t tau : F) : result F :=
  exp_ <- global_exp ;;
  sqrt_ <- global_sqrt ;;
  Ok (convolved exp_ sqrt_ w t tau).

(** lines 72-86: the two loops over [D].  [fwhm_mod] is only bound (and only
    read) when [fit_irf] holds. *)
Definition fill_D (taus Ts : vec F) (fit_irf : bool) (fwhm_mod : F)
    (D : matrix F) : result (matrix F) :=
  for_in (range 0 (length D)) (fun i D =>
    row <- getitem D (Z.of_nat i) ;;
    for_in (range 0 (length row)) (fun j D =>
      t <- getitem Ts (Z.of_nat i) ;;
      tau <- getitem taus (Z.of_nat j) ;;
      if fit_irf then
        v <- convolved_entry fwhm_mod t tau ;;
        setentry D i j v
      else if nonzero (FWHM_mod self) then
        v <- convolved_entry (FWHM_mod self) t tau ;;
        setentry D i j v
      else setentry D i j (fexp (- t / tau))) D) D.

(** lines 65-87.  Line 69 reads [sqrt] after [np.zeros] and [taus[-1]] have
    been evaluated. *)
Definition _genD (taus Ts : vec F) (fit_irf : bool) : result (matrix F) :=
  if fit_irf then
    D <- np_zeros (length Ts) (Z.of_nat (length taus) - 1) ;;
    fwhm <- getitem taus (-1) ;;
    sqrt_ <- global_sqrt ;;
    log_ <- global_log ;;
    let fwhm_mod := fwhm / (two * sqrt_ (log_ two)) in
    fill_D taus Ts fit_irf fwhm_mod D
  else
    D <- np_zeros (length Ts) (Z.of_nat (length taus)) ;;
    fill_D taus Ts fit_irf zero D.

(** [s += v] where [s] starts as the integer [0], which is added to every
    entry of the first [v]. *)
Definition accumulate (s : option (vec F)) (v : vec F) : vec F :=
  match s with
  | None => map (add zero) v
  | Some u => vadd u v
  end.

(** lines 101-107: the back substitution *)
Definition back_substitute (R QtY DAS : matrix F) : result (matrix F) :=
  last_z <- getitem QtY (-1) ;;
  last_r <- getentry R (-1) (-1) ;;
  DAS <- setrow DAS (-1) (vdiv last_z last_r) ;;
  for_in (range_down (length DAS - 1)) (fun i DAS =>
    sD <- for_in (range (i + 1) (length DAS)) (fun k sD =>
            r <- getentry R (Z.of_nat i) (Z.of_nat k) ;;
            dk <- getitem (snd sD) (Z.of_nat k) ;;
            let s := accumulate (fst sD) (vscale r dk) in
            zi <- getitem QtY (Z.of_nat i) ;;
            rii <- getentry R (Z.of_nat i) (Z.of_nat i) ;;
            DAS <- setrow (snd sD) (Z.of_nat i) (vdiv (vsub zi s) rii) ;;
            Ok (Some s, DAS)) (None, DAS) ;;
    Ok (snd sD)) DAS.

Definition _getDAS (D Y : matrix F) (alpha : F) : result (matrix F) :=
  aug <- (if nonzero alpha then
            d0 <- getitem D 0 ;;
            let D_aug := D ++ scale (root alpha) (np_identity (length d0)) in
            da0 <- getitem D_aug 0 ;;
            y0 <- getitem Y 0 ;;
            Z0 <- np_zeros (length da0) (Z.of_nat (length y0)) ;;
            Ok (D_aug, Y ++ Z0)
          else Ok (D, Y)) ;;
  let D_aug := fst aug in
  let Y_aug := snd aug in
  let Q := fst (qr D_aug) in
  let R := snd (qr D_aug) in
  let Qt := transpose Q in
  da0 <- getitem D_aug 0 ;;
  ya0 <- getitem Y_aug 0 ;;
  DAS <- np_zeros (length da0) (Z.of_nat (length ya0)) ;;
  QtY <- np_dot Qt Y_aug ;;
  back_substitute R QtY DAS.

(** [Y - P] for two arrays of one shape (shapes that numpy would broadcast
    do not occur: [P] is [D.dot(DAS)]). *)
Definition np_sub (Y P : matrix F) : result (matrix F) :=
  if ((length Y =? length P)%nat
      && forallb (fun yp => (length (fst yp) =? length (snd yp))%nat) (combine Y P))%bool
  then Ok (map (fun yp => vsub (fst yp) (snd yp)) (combine Y P))
  else Raise ValueError.

(** [np.sum(E**2)] *)
Definition sum_squares (E : matrix F) : F := total (map sqr (concat E)).

(** lines 112-113, for a decay matrix at hand *)
Definition residual (D Y : matrix F) (alpha : F) : result F :=
  DAS <- _getDAS D Y alpha ;;
  P <- np_dot D DAS ;;
  E <- np_sub Y P ;;
  Ok (sum_squares E).

Definition _min (taus : vec F) (Y : matrix F) (Ts : vec F) (alpha : F)
    (fit_irf : bool) : result F :=
  D <- _genD taus Ts fit_irf ;;
  residual D Y alpha.

Definition _GA (x0 : vec F) (Y : matrix F) (Ts : vec F) (alpha : F)
    (B : option (list (F * F))) (fit_irf : bool)
  : result (vec F * matrix F * matrix F) :=
  taus <- run_optimizer (minimize x0 B) (fun x => _min x Y Ts alpha fit_irf) ;;
  D <- _genD taus Ts fit_irf ;;
  DAS <- _getDAS D Y alpha ;;
  P <- np_dot D DAS ;;
  Ok (taus, DAS, P).

(** [A[:, j] = v]: [v] has one entry per row, or a single entry. *)
Definition setcol (A : matrix F) (j : nat) (v : vec F) : result (matrix F) :=
  if forallb (fun row => (j <? length row)%nat) A then
    if (length v =? length A)%nat
    then Ok (map (fun rx => update (fst rx) j (snd rx)) (combine A v))
    else match v with
         | [x] => Ok (map (fun row => update row j x) A)
         | _ => Raise ValueError
         end
  else Raise IndexError.

(** The test [wLSV_indices is None] of line 138 is applied to the list that
    [map] just built: its branch is never taken and is left out, and with it
    the only use of [B]. *)
Definition _get_wLSVs_for_fit (wLSV_indices : string)
    (B : option (list (F * F))) : result (list Z * matrix F) :=
  match split wLSV_indices with
  | tok :: toks =>
      idx <- map_int (tok :: toks) ;;
      if (length idx =? 1)%nat then
        n <- getitem idx 0 ;;
        Ok (idx, cols_to (wLSV self) n)
      else
        fit <- np_zeros (length (T self)) (Z.of_nat (length idx)) ;;
        fit <- for_in (range 0 (length idx)) (fun j fit =>
                 n <- getitem idx (Z.of_nat j) ;;
                 col <- getcol (wLSV self) (n - 1) ;;
                 setcol fit j col) fit ;;
        Ok (idx, fit)
  | [] =>
      let idx := [3%Z] in
      n <- getitem idx 0 ;;
      Ok (idx, cols_to (wLSV self) n)
  end.

(** What [_plot_res] reads from its arguments before it returns: a curve for
    every row of [DAS], labelled with the lifetime of that row, then the
    first column of the data and the first column of the fit.  The drawing
    is matplotlib's and is left out, and so is the callback of the slider,
    which runs on a later event. *)
Definition _plot_res (wLSV_fit : matrix F) (wLSVs : list Z) (taus : vec F)
    (DAS SpecFit : matrix F) (Ts : vec F) : result unit :=
  _ <- for_in (range 0 (length DAS)) (fun i _ =>
         first <- getitem DAS 0 ;;
         row <- getitem DAS (Z.of_nat i) ;;
         tau <- getitem taus (Z.of_nat i) ;;
         Ok tt) tt ;;
  data <- getcol wLSV_fit 0 ;;
  fit <- getcol SpecFit 0 ;;
  Ok tt.

(** [Global] without its [print] calls: the value it returns, the lifetimes
    and, when the width is fitted, the width. *)
Definition Global (wLSVs : string) (x0 : vec F) (B : option (list (F * F)))
    (alpha : F) (fit_irf : bool) : result (vec F * option F) :=
  sel <- _get_wLSVs_for_fit wLSVs B ;;
  fitted <- _GA x0 (snd sel) (T self) alpha B fit_irf ;;
  let taus := fst (fst fitted) in
  let DAS := snd (fst fitted) in
  let SpecFit := snd fitted in
  if fit_irf then
    _ <- _plot_res (snd sel) (fst sel) (slice_to taus (-1)) DAS SpecFit
                   (T self) ;;
    fwhm <- getitem taus (-1) ;;
    Ok (slice_to taus (-1), Some fwhm)
  else
    _ <- _plot_res (snd sel) (fst sel) taus DAS SpecFit (T self) ;;
    Ok (taus, None).
End Methods.

(** ** The constructor *)

Section Construction.
Context {F O : Type} {AF : Arith F} {SF : Special F}.
Local Open Scope arith_scope.

(** The object [data] that [__init__] and [updateData] receive, by what its
    getters return.  [O] is the type of the values that are stored and never
    computed with: the wavelengths and, of the instrument response, the chirp
    order and the three chirp parameters. *)
Record Data : Type := {
  get_SVD : matrix F * vec F * matrix F;
  get_T : vec F;
  get_wls : O;
  get_IRF : O * F * O * O * O
}.

(** [np.diag(v)] for a vector [v] *)
Definition np_diag (v : vec F) : matrix F :=
  map (fun i =>
         map (fun j => if (i =? j)%nat then nth i v zero else zero)
             (seq 0 (length v)))
      (seq 0 (length v)).

(** Lines 34-42, for the attributes that the fit reads.  The other
    attributes ([U], [S], [Vt], [Svals], [wls] and the chirp parameters) are
    assigned and not read by the methods above. *)
Definition updateData (data : Data) : result (SVD_GA F) :=
  let '(U, Svals, Vt) := get_SVD data in
  wLSV <- np_dot U (np_diag Svals) ;;
  let '(chirporder, FWHM, munot, mu, lamnot) := get_IRF data in
  Ok {| wLSV := wLSV;
        T := get_T data;
        FWHM_mod := FWHM / (two * root (flog two)) |}.

(** [SVD_GA(data)] *)
Definition __init__ (data : Data) : result (SVD_GA F) := updateData data.
End Construction.

Arguments Data : clear implicits.

(** * Definitions used in the statements *)

Section StatementDefinitions.
Context {F : Type} {AF : Arith F} {SF : Special F}.
Local Open Scope arith_scope.

(** The value of [s] after the inner loop of row [i]: [ri] holds the entries
    [R[i, k]] and [rows] the rows [DAS[k, :]], for [k] after [i]. *)
Definition partial_sum (ri : vec F) (rows : list (vec F)) : option (vec F) :=
  fold_left (fun s rk => Some (accumulate s (vscale (fst rk) (snd rk))))
            (combine ri rows) None.

(** Row [i] of the solution from the rows after it.  The last row is divided
    only (line 101); every other row is assigned in the inner loop. *)
Definition solve_row (ri zi : vec F) (i : nat) (later : list (vec F)) : vec F :=
  match partial_sum (skipn (S i) ri) later with
  | None => vdiv zi (nth i ri zero)
  | Some s => vdiv (vsub zi s) (nth i ri zero)
  end.

(** The rows [i], ..., [i + n - 1] of the solution. *)
Fixpoint solve_from (R Z : matrix F) (n i : nat) : list (vec F) :=
  match n with
  | O => []
  | S n' =>
      let later := solve_from R Z n' (S i) in
      solve_row (nth i R []) (nth i Z []) i later :: later
  end.

Definition solve (R Z : matrix F) : matrix F := solve_from R Z (length Z) 0.

(** The product of two arrays whose inner dimensions agree. *)
Definition matmul (A B : matrix F) : matrix F :=
  map (fun row => map (inner row) (transpose B)) A.

(** Lines 91-95: the arrays handed to the factorization. *)
Definition D_aug (D : matrix F) (alpha : F) : matrix F :=
  if nonzero alpha
  then D ++ scale (root alpha) (np_identity (length (nth 0 D [])))
  else D.

Definition Y_aug (D Y : matrix F) (alpha : F) : matrix F :=
  if nonzero alpha
  then Y ++ repeat (repeat zero (length (nth 0 Y []))) (length (nth 0 D []))
  else Y.

(** What reduced [np.linalg.qr] promises on shapes: for an [m] by [n] array
    with [n <= m], [Q] is [m] by [n] and [R] is [n] by [n]. *)
Definition qr_shapes (qr : matrix F -> matrix F * matrix F) : Prop :=
  forall (A : matrix F) (m n : nat),
    shape A m n -> n <= m ->
    shape (fst (qr A)) m n /\ shape (snd (qr A)) n n.

(** The amplitudes that [_getDAS] returns on arrays of matching shapes. *)
Definition DAS_of (qr : matrix F -> matrix F * matrix F) (D Y : matrix F)
    (alpha : F) : matrix F :=
  solve (snd (qr (D_aug D alpha)))
        (matmul (transpose (fst (qr (D_aug D alpha)))) (Y_aug D Y alpha)).

(** [Y - P] on arrays of one shape *)
Definition msub (Y P : matrix F) : matrix F :=
  map (fun yp => vsub (fst yp) (snd yp)) (combine Y P).
End StatementDefinitions.

Section FurtherStatementDefinitions.
Context {F : Type} {AF : Arith F}.

(** Two arrays with the same number of rows side by side. *)
Definition hstack (A B : matrix F) : matrix F :=
  map (fun ab => fst ab ++ snd ab) (combine A B).

(** [A + B] on arrays of one shape *)
Definition madd (A B : matrix F) : matrix F :=
  map (fun ab => vadd (fst ab) (snd ab)) (combine A B).

(** The rows [f 0], ..., [f (K - 1)] of an array. *)
Definition select_rows (f : nat -> nat) (K : nat) (X : matrix F) : matrix F :=
  map (fun j => nth (f j) X []) (seq 0 K).

(** The 1-based column that an entry [n] of a selector of several integers
    reads from a basis of [C] columns: the index [n - 1] counts from the end
    when it is negative. *)
Definition wrapped_column (C : nat) (n : Z) : Z := ((n - 1) mod Z.of_nat C + 1)%Z.
End FurtherStatementDefinitions.

(** The selection policy in the words of the specification: the 1-based
    columns that a list of selector integers stands for. *)
Definition columns_of_policy (ns : list Z) : list Z :=
  match ns with
  | [] => [1; 2; 3]%Z
  | [n] => map Z.of_nat (seq 1 (Z.to_nat n))
  | _ => ns
  end.

(** The sub-array of the 1-based columns [cols], in the order of [cols]. *)
Definition take_columns {F : Type} {AF : Arith F} (A : matrix F) (cols : list Z)
  : matrix F :=
  map (fun row => map (fun c => nth (Z.to_nat (c - 1)) row zero) cols) A.

(** ** Exact arithmetic: the real numbers *)

Section ErrorFunction.
Local Open Scope R_scope.

Definition gauss (t : R) : R := exp (- (t * t)).

Lemma gauss_continuity : continuity gauss.
Proof.
  unfold gauss.
  apply (continuity_comp (fun t => - (t * t)) exp).
  - apply continuity_opp.
    apply continuity_mult; apply derivable_continuous, derivable_id.
  - apply derivable_continuous, derivable_exp.
Qed.

Lemma gauss_integrable (a b : R) : Riemann_integrable gauss a b.
Proof.
  destruct (Rle_dec a b) as [Hab|Hab].
  - apply continuity_implies_RiemannInt; [exact Hab|].
    intros x _. apply gauss_continuity.
  - apply RiemannInt_P1. apply continuity_implies_RiemannInt; [lra|].
    intros x _. apply gauss_continuity.
Defined.

(** [scipy.special.erf]: 2/sqrt(pi) times the integral of exp(-t^2) from 0
    to x. *)
Definition erf (x : R) : R := 2 / sqrt PI * RiemannInt (gauss_integrable 0 x).

Lemma erf_0 : erf 0 = 0.
Proof. unfold erf. rewrite RiemannInt_P9. lra. Qed.
End ErrorFunction.

Definition Rnonzero (x : R) : bool := if Req_dec_T x 0 then false else true.

Lemma Rnonzero_false (x : R) : Rnonzero x = false <-> x = 0%R.
Proof. unfold Rnonzero. destruct (Req_dec_T x 0); split; congruence. Qed.

Lemma Rnonzero_true (x : R) : Rnonzero x = true <-> x <> 0%R.
Proof. unfold Rnonzero. destruct (Req_dec_T x 0); split; congruence. Qed.

#[export] Instance R_Arith : Arith R := {|
  zero := 0%R;
  one := 1%R;
  two := 2%R;
  half := (1 / 2)%R;
  add := Rplus;
  sub := Rminus;
  mul := Rmult;
  div := Rdiv;
  opp := Ropp;
  root := sqrt;
  nonzero := Rnonzero
|}.

#[export] Instance R_Special : Special R := {|
  fexp := exp;
  flog := ln;
  ferf := erf
|}.

(** ** IEEE binary64, for the linear solve *)

(** [x != 0] is true of a NaN and false of both zeros; [x**0.5] is taken to be
    the square root. *)
#[export] Instance binary64_Arith : Arith float := {|
  zero := 0%float;
  one := 1%float;
  two := 2%float;
  half := 0.5%float;
  add := PrimFloat.add;
  sub := PrimFloat.sub;
  mul := PrimFloat.mul;
  div := PrimFloat.div;
  opp := PrimFloat.opp;
  root := PrimFloat.sqrt;
  nonzero := fun x => negb (PrimFloat.eqb x 0%float)
|}.

(** ** Definitions in exact arithmetic *)

Section RealDefinitions.
Local Open Scope R_scope.

(** The sum of [f 0], ..., [f (n - 1)]. *)
Fixpoint bigsum (n : nat) (f : nat -> R) : R :=
  match n with
  | O => 0
  | S n' => bigsum n' f + f n'
  end.

(** [A[i, j]], zero outside of the array *)
Definition ent (A : matrix R) (i j : nat) : R := nth j (nth i A []) 0.

(** Textbook back substitution, in the words of the specification: from
    the last row to the first,
    [X[i,:] = (Z[i,:] - sum_{k>i} R[i,k] X[k,:]) / R[i,i]],
    the sum being accumulated once per row. *)
Definition weighted_rows (ri : vec R) (rows : list (vec R)) (N : nat) : vec R :=
  fold_left (fun acc rk => vadd acc (vscale (fst rk) (snd rk)))
            (combine ri rows) (repeat 0 N).

Fixpoint textbook_from (Rm Z : matrix R) (N n i : nat) : list (vec R) :=
  match n with
  | O => []
  | S n' =>
      let later := textbook_from Rm Z N n' (S i) in
      vdiv (vsub (nth i Z []) (weighted_rows (skipn (S i) (nth i Rm [])) later N))
           (nth i (nth i Rm []) 0)
      :: later
  end.

Definition textbook_back_substitution (Rm Z : matrix R) : matrix R :=
  textbook_from Rm Z (length (nth 0 Z [])) (length Z) 0.

(** What [np.linalg.qr] returns for an [m] by [K] array [A], in exact
    arithmetic: [A = Q R], the columns of [Q] are orthonormal, and [R] is upper
    triangular. *)
Definition is_qr (A Q Rm : matrix R) (m K : nat) : Prop :=
  shape Q m K /\ shape Rm K K
  /\ matmul Q Rm = A
  /\ matmul (transpose Q) Q = np_identity K
  /\ (forall i k, (k < i)%nat -> (i < K)%nat -> ent Rm i k = 0).

(** [R] has no zero on its diagonal. *)
Definition regular_diagonal (Rm : matrix R) (K : nat) : Prop :=
  forall i, (i < K)%nat -> ent Rm i i <> 0.

(** The objective of the ridge problem, [||Y - D X||^2 + alpha ||X||^2]. *)
Definition ridge_objective (D Y : matrix R) (alpha : R) (X : matrix R) : R :=
  sum_squares (msub Y (matmul D X)) + alpha * sum_squares X.

(** the residual of a candidate [y] *)
Definition res_at (K : nat) (a b y : nat -> nat -> R) (i c : nat) : R :=
  b i c - bigsum K (fun j => a i j * y j c).

Definition sum_sq (m K N : nat) (a b y : nat -> nat -> R) : R :=
  bigsum m (fun i => bigsum N (fun c => res_at K a b y i c * res_at K a b y i c)).

(** [R] with its rows from [i] on replaced by those of the identity, and
    the column with a one at [i]. *)
Definition patched (Rm : matrix R) (K i : nat) : matrix R :=
  map (fun k => if (k <? i)%nat then nth k Rm [] else nth k (np_identity K) [])
      (seq 0 K).

Definition unit_column (K i : nat) : matrix R :=
  map (fun k => [if (k =? i)%nat then 1 else 0]) (seq 0 K).

(** ** Data of the examples *)

(** An instance of [self] that only stores a width. *)
Definition self_with_width (w : R) : SVD_GA R :=
  {| wLSV := []; T := []; FWHM_mod := w |}.

(** Modelled from the spec: the closed form of section 4.1,
    0.5 exp(-t/tau) exp(w^2/(2 tau^2)) / tau (1 + erf((t - w^2/tau)/(sqrt 2 w))). *)
Definition closed_form_of_spec (w t tau : R) : R :=
  0.5 * exp (- t / tau) * exp (w * w / (2 * (tau * tau))) / tau
  * (1 + erf ((t - w * w / tau) / (sqrt 2 * w))).

(** The factors of the stacked array [[[0], [1]]]: [Q = [[0], [1]]] and
    [R = [[1]]]. *)
Definition qr_unit (A : matrix R) : matrix R * matrix R := ([[0]; [1]], [[1]]).

(** Factors for the arrays of one column met below: [Q = [[1]]] and [R = A]
    for a single entry; [Q = [[1/2], [sqrt 3 / 2]]] and [R = [[2]]] for
    [[[1], [sqrt 3]]]. *)
Definition qr_column (A : matrix R) : matrix R * matrix R :=
  match A with
  | [_] => ([[1]], A)
  | _ => ([[1 / 2]; [sqrt 3 / 2]], [[2]])
  end.

(** A routine with the shapes of [np.linalg.qr], and an optimizer that
    evaluates the objective at [x0] and returns [x0]. *)
Definition qr_shaped (A : matrix R) : matrix R * matrix R :=
  (A, np_identity (length (nth 0 A []))).

Definition minimize_once (x0 : vec R) (B : option (list (R * R))) : optimizer R :=
  Query x0 (fun _ => Done x0).

Definition basis3 : SVD_GA R :=
  {| wLSV := [[1; 2; 3]]; T := [0]; FWHM_mod := 0 |}.

(** A data set of one time point and two singular values, with an FWHM of
    1, and one whose singular values do not match its [U]. *)
Definition measured : Data R unit :=
  {| get_SVD := ([[1; 2]], [3; 4], []);
     get_T := [0];
     get_wls := tt;
     get_IRF := (tt, 1, tt, tt, tt) |}.

Definition measured_short : Data R unit :=
  {| get_SVD := ([[1; 2]], [3], []);
     get_T := [0];
     get_wls := tt;
     get_IRF := (tt, 1, tt, tt, tt) |}.

(** An instance whose basis has two rows for a single time point. *)
Definition basis_two_rows : SVD_GA R :=
  {| wLSV := [[1; 2; 3]; [4; 5; 6]]; T := [0]; FWHM_mod := 0 |}.

(** The factorization of a stacked array [[[x; y]; [s; 0]; [0; s]]] with
    [s > 0] by the Gram-Schmidt process: with [n1 = sqrt(x^2 + s^2)] and
    [n3 = sqrt(x^2 + y^2 + s^2)], the columns of [Q] are [(x, s, 0) / n1]
    and [(y s, - x y, n1^2) / (n1 n3)]. *)
Definition qr_stacked (A : matrix R) : matrix R * matrix R :=
  let x := ent A 0 0 in
  let y := ent A 0 1 in
  let s := ent A 1 0 in
  let n1 := sqrt (x * x + s * s) in
  let n3 := sqrt (x * x + y * y + s * s) in
  ([[x / n1; y * s / (n1 * n3)];
    [s / n1; - (x * y) / (n1 * n3)];
    [0; n1 / n3]],
   [[n1; x * y / n1]; [0; s * n3 / n1]]).

(** The factorization of an array [A] of a single column and a single row
    with the other sign: [Q = [[-1]]] and [R = -A]. *)
Definition qr_flipped (A : matrix R) : matrix R * matrix R :=
  ([[-1]], scale (-1) A).
End RealDefinitions.

Section Binary64Definitions.
Local Open Scope float_scope.

(** A basis with five columns, in binary64, where the model computes. *)
Definition basis5 : SVD_GA float :=
  {| wLSV := [[1; 2; 3; 4; 5]; [6; 7; 8; 9; 10]]%float;
     T := [0; 1]%float;
     FWHM_mod := 0%float |}.

(** The factors that [np.linalg.qr] (Householder reflections) returns on
    the arrays of the examples: [Q = [[1.]]] and [R = A] for an array [A] of
    a single entry, and [Q = [[0.], [-1.]]], [R = [[-1.]]] for
    [[[0.], [1.]]]. *)
Definition qr_examples (A : matrix float) : matrix float * matrix float :=
  match A with
  | [_] => ([[1]], A)
  | _ => ([[0]; [-1]], [[-1]])
  end.
End Binary64Definitions.

(** * Proofs *)

(** ** Facts on sequences and loops *)

Section ListFacts.
Context {A : Type}.
Implicit Types (l : list A) (i n : nat).

Lemma length_update l i a : length (update l i a) = length l.
Proof.
  revert i; induction l as [|x l IH]; intros [|i]; simpl; auto.
Qed.

Lemma nth_error_update_eq l i a :
  i < length l -> nth_error (update l i a) i = Some a.
Proof.
  revert i; induction l as [|x l IH]; intros [|i] Hi; simpl in *;
    try lia; auto.
  apply IH; lia.
Qed.

Lemma update_update l i a b : update (update l i a) i b = update l i b.
Proof.
  revert i; induction l as [|x l IH]; intros [|i]; simpl; auto.
  now rewrite IH.
Qed.

Lemma update_same l i d : i < length l -> update l i (nth i l d) = l.
Proof.
  revert i; induction l as [|x l IH]; intros [|i] Hi; simpl in *;
    try lia; auto.
  rewrite IH; auto; lia.
Qed.

Lemma update_app_cons (p q : list A) x a n :
  length p = n -> update (p ++ x :: q) n a = p ++ a :: q.
Proof.
  intros <-. induction p as [|y p IH]; simpl; auto. now rewrite IH.
Qed.

Lemma skipn_nth l n d : n < length l -> skipn n l = nth n l d :: skipn (S n) l.
Proof.
  revert n; induction l as [|x l IH]; intros [|n] Hn; simpl in *;
    try lia; auto.
  apply IH; lia.
Qed.

Lemma nth_error_nth_lt l n d : n < length l -> nth_error l n = Some (nth n l d).
Proof.
  revert n; induction l as [|x l IH]; intros [|n] Hn; simpl in *;
    try lia; auto.
  apply IH; lia.
Qed.

(** [l[i]] for an index in range *)
Lemma getitem_nat l i d :
  i < length l -> getitem l (Z.of_nat i) = Ok (nth i l d).
Proof.
  intros Hi. unfold getitem.
  assert (E : (Z.of_nat i <? 0)%Z = false) by (apply Z.ltb_ge; lia).
  cbv zeta. rewrite !E, Nat2Z.id, (nth_error_nth_lt l i d Hi). reflexivity.
Qed.

(** [l[-1]] is the last element *)
Lemma getitem_last l d :
  0 < length l -> getitem l (-1) = Ok (nth (length l - 1) l d).
Proof.
  intros Hl. unfold getitem. cbv zeta.
  change (-1 <? 0)%Z with true. cbv iota.
  assert (E : (Z.of_nat (length l) + -1 <? 0)%Z = false)
    by (apply Z.ltb_ge; lia).
  rewrite E.
  replace (Z.to_nat (Z.of_nat (length l) + -1)) with (length l - 1) by lia.
  rewrite (nth_error_nth_lt l _ d); auto. lia.
Qed.

(** [l[0]] *)
Lemma getitem_first l d : 0 < length l -> getitem l 0 = Ok (nth 0 l d).
Proof. intros Hl. apply (getitem_nat l 0 d Hl). Qed.

Lemma map_nth_seq {B : Type} (f : A -> B) l d :
  map (fun j => f (nth j l d)) (seq 0 (length l)) = map f l.
Proof.
  induction l as [|x l IH]; simpl; auto.
  f_equal. rewrite <- seq_shift, map_map. exact IH.
Qed.

Lemma map_nth_seq_firstn {B : Type} (f : A -> B) l d n :
  n <= length l ->
  map (fun j => f (nth j l d)) (seq 0 n) = map f (firstn n l).
Proof.
  intros Hn. rewrite <- (map_nth_seq f (firstn n l) d).
  rewrite length_firstn, Nat.min_l by exact Hn.
  apply map_ext_in. intros j Hj. apply in_seq in Hj.
  f_equal. rewrite <- (firstn_skipn n l) at 1.
  rewrite app_nth1; auto. rewrite length_firstn. lia.
Qed.
End ListFacts.

Section LoopFacts.
Context {I S : Type}.

Lemma for_in_app (xs ys : list I) (body : I -> S -> result S) (s : S) :
  for_in (xs ++ ys) body s = (s' <- for_in xs body s ;; for_in ys body s').
Proof.
  revert s; induction xs as [|x xs IH]; intros s; simpl; auto.
  destruct (body x s); simpl; auto.
Qed.

Lemma for_in_ext (xs : list I) (body body' : I -> S -> result S) (s : S) :
  (forall x s', In x xs -> body x s' = body' x s') ->
  for_in xs body s = for_in xs body' s.
Proof.
  revert s; induction xs as [|x xs IH]; intros s H; simpl; auto.
  rewrite (H x s) by now left.
  destruct (body' x s); simpl; auto. apply IH. intros; apply H; now right.
Qed.

End LoopFacts.

(** A loop over [range(n)] that assigns position [k] at step [k] builds the
    sequence of the assigned values. *)
Lemma for_in_fill {X : Type} (P : X -> Prop) (n : nat) (g : nat -> X)
    (body : nat -> list X -> result (list X)) (l0 : list X) :
  length l0 = n -> Forall P l0 -> (forall k, k < n -> P (g k)) ->
  (forall k l, k < n -> length l = n -> Forall P l ->
               body k l = Ok (update l k (g k))) ->
  for_in (seq 0 n) body l0 = Ok (map g (seq 0 n)).
Proof.
  intros Hlen HP Hg Hbody.
  assert (Hgen : forall m, m <= n ->
            for_in (seq 0 m) body l0 = Ok (map g (seq 0 m) ++ skipn m l0)).
  { induction m as [|m IH]; intros Hm.
    - reflexivity.
    - rewrite seq_S, for_in_app, IH by lia. simpl.
      assert (Hm' : m < length l0) by lia.
      destruct l0 as [|x0 l0']; [simpl in Hm'; lia|].
      set (l0 := x0 :: l0') in *.
      rewrite Hbody; try lia.
      + simpl. f_equal. rewrite (skipn_nth l0 m x0 Hm').
        rewrite update_app_cons by now rewrite length_map, length_seq.
        rewrite map_app, <- app_assoc. reflexivity.
      + rewrite length_app, length_map, length_seq, length_skipn. lia.
      + apply Forall_app; split.
        * apply Forall_forall. intros x Hx. apply in_map_iff in Hx.
          destruct Hx as (k & <- & Hk). apply in_seq in Hk. apply Hg; lia.
        * apply Forall_forall. intros x Hx. 
          eapply Forall_forall; [exact HP|].
          rewrite <- (firstn_skipn m l0). apply in_or_app. now right. }
  rewrite Hgen by lia. rewrite skipn_all2 by lia. now rewrite app_nil_r.
Qed.

(** ** The decay matrix *)

Section DecayMatrix.
Context {F : Type} {AF : Arith F} {SF : Special F}.
Variable self : SVD_GA F.
Local Open Scope arith_scope.

(** The assignments [D[i, j] = v j] for [j] in a range only change row [i]. *)
Lemma for_in_row (l : matrix F) (i : nat) (v : nat -> F) (xs : list nat) :
  i < length l ->
  forall r,
    for_in xs (fun j D => setentry D i j (v j)) (update l i r)
    = (r' <- for_in xs (fun j r => setitem r j (v j)) r ;; Ok (update l i r')).
Proof.
  intros Hi. induction xs as [|j xs IH]; intros r; simpl; auto.
  unfold setentry at 1. rewrite nth_error_update_eq by exact Hi.
  destruct (setitem r j (v j)) as [r'|e]; simpl; auto.
  rewrite update_update. apply IH.
Qed.

Lemma fill_row (l : matrix F) (i : nat) (row : vec F) (v : nat -> F) :
  nth_error l i = Some row ->
  for_in (seq 0 (length row)) (fun j D => setentry D i j (v j)) l
  = Ok (update l i (map v (seq 0 (length row)))).
Proof.
  intros Hrow.
  assert (Hi : i < length l) by (apply nth_error_Some; congruence).
  rewrite <- (update_same l i row Hi) at 1.
  rewrite (nth_error_nth _ _ _ Hrow), for_in_row by exact Hi.
  rewrite (for_in_fill (fun _ => True) (length row) v); auto.
  - now apply Forall_forall.
  - intros k r Hk Hr _. unfold setitem.
    destruct (Nat.ltb_spec k (length r)); [reflexivity | lia].
Qed.

(** The pure exponential branch of the loops (line 86). *)
Lemma fill_D_pure (taus Ts : vec F) (w : F) (K : nat) :
  nonzero (FWHM_mod self) = false ->
  K <= length taus ->
  fill_D self taus Ts false w (repeat (repeat zero K) (length Ts))
  = Ok (map (fun t => map (fun tau => fexp (- t / tau)) (firstn K taus)) Ts).
Proof.
  intros Hw HK. unfold fill_D, range. rewrite repeat_length, Nat.sub_0_r.
  set (g := fun i => map (fun j => fexp (- nth i Ts zero / nth j taus zero))
                         (seq 0 K)).
  rewrite (for_in_fill (fun row => length row = K) (length Ts) g).
  - f_equal. unfold g.
    rewrite (map_nth_seq
               (fun t => map (fun j => fexp (- t / nth j taus zero)) (seq 0 K))
               Ts zero).
    apply map_ext. intros t.
    now rewrite (map_nth_seq_firstn (fun tau => fexp (- t / tau)) taus zero K HK).
  - apply repeat_length.
  - apply Forall_forall. intros row Hrow. apply repeat_spec in Hrow.
    subst. apply repeat_length.
  - intros k _. unfold g. now rewrite length_map, length_seq.
  - intros i l Hi Hl Hrows.
    rewrite (getitem_nat l i nil) by lia. simpl.
    assert (Hlen : length (nth i l []) = K).
    { apply (proj1 (Forall_forall _ l) Hrows). apply nth_In. lia. }
    rewrite Hlen, Nat.sub_0_r.
    rewrite for_in_ext with
      (body' := fun j D => setentry D i j
                  (fexp (- nth i Ts zero / nth j taus zero))).
    + rewrite <- Hlen at 1. rewrite fill_row; [now rewrite Hlen|].
      apply nth_error_nth_lt. lia.
    + intros j D Hj. apply in_seq in Hj.
      rewrite (getitem_nat Ts i zero) by lia.
      rewrite (getitem_nat taus j zero) by lia. simpl.
      now rewrite Hw.
Qed.

(** The entry of a convolved branch is never computed: the name [exp] is
    read first. *)
Lemma convolved_entry_raises (w t tau : F) :
  convolved_entry w t tau = Raise NameError.
Proof. reflexivity. Qed.

(** A convolved branch stops at the first entry, [D[0, 0]]. *)
Lemma fill_D_raises (taus Ts : vec F) (fit_irf : bool) (w : F) (M K : nat) :
  fit_irf = true \/ nonzero (FWHM_mod self) = true ->
  0 < length Ts -> 0 < length taus ->
  fill_D self taus Ts fit_irf w (repeat (repeat zero (S K)) (S M))
  = Raise NameError.
Proof.
  intros Hbranch HT Htaus.
  destruct Ts as [|t Ts']; [simpl in HT; lia|].
  destruct taus as [|tau taus']; [simpl in Htaus; lia|].
  unfold fill_D, range. rewrite repeat_length.
  cbn [Nat.sub seq for_in repeat getitem length Z.of_nat Z.ltb Z.compare
       Z.to_nat nth_error bind].
  rewrite !convolved_entry_raises.
  destruct Hbranch as [-> | Hw].
  - reflexivity.
  - rewrite Hw. now destruct fit_irf.
Qed.

(** An array without entries is left as it is, whatever the branch. *)
Lemma fill_D_no_entry (taus Ts : vec F) (fit_irf : bool) (w : F) (M : nat) :
  fill_D self taus Ts fit_irf w (repeat [] M) = Ok (repeat [] M).
Proof.
  unfold fill_D, range. rewrite repeat_length, Nat.sub_0_r.
  assert (Hgen : forall n a, a + n <= M ->
            for_in (seq a n)
              (fun i D =>
                 row <- getitem D (Z.of_nat i) ;;
                 for_in (seq 0 (length row - 0))
                   (fun j D =>
                      t <- getitem Ts (Z.of_nat i) ;;
                      tau <- getitem taus (Z.of_nat j) ;;
                      if fit_irf then
                        v <- convolved_entry w t tau ;; setentry D i j v
                      else if nonzero (FWHM_mod self) then
                        v <- convolved_entry (FWHM_mod self) t tau ;;
                        setentry D i j v
                      else setentry D i j (fexp (- t / tau))) D)
              (repeat [] M) = Ok (repeat ([] : vec F) M)).
  { induction n as [|n IH]; intros a Ha; [reflexivity|].
    cbn [seq for_in].
    rewrite (getitem_nat (repeat ([] : vec F) M) a [])
      by (rewrite repeat_length; lia).
    rewrite nth_repeat. cbn [bind length Nat.sub seq for_in].
    apply IH. lia. }
  apply Hgen. lia.
Qed.

(** [_genD] without width fitting, the stored width being zero: one column
    per entry of [taus]. *)
Lemma _genD_fixed_width (taus Ts : vec F) :
  nonzero (FWHM_mod self) = false ->
  _genD self taus Ts false
  = Ok (map (fun t => map (fun tau => fexp (- t / tau)) taus) Ts).
Proof.
  intros Hw. unfold _genD, np_zeros.
  destruct (Z.ltb_spec (Z.of_nat (length taus)) 0); [lia|].
  simpl. rewrite Nat2Z.id, fill_D_pure by (auto; lia).
  now rewrite firstn_all.
Qed.

(** [_genD] without width fitting, the stored width being another number:
    the first entry raises [NameError]. *)
Lemma _genD_stored_width (taus Ts : vec F) :
  nonzero (FWHM_mod self) = true ->
  taus <> [] -> Ts <> [] ->
  _genD self taus Ts false = Raise NameError.
Proof.
  intros Hw Htaus HT. unfold _genD, np_zeros.
  destruct (Z.ltb_spec (Z.of_nat (length taus)) 0); [lia|].
  cbn [bind]. rewrite Nat2Z.id.
  destruct taus as [|tau taus']; [contradiction|].
  destruct Ts as [|t Ts']; [contradiction|].
  cbn [length]. apply fill_D_raises; auto; simpl; lia.
Qed.


Lemma _genD_no_time (taus : vec F) :
  _genD self taus [] false = Ok [].
Proof.
  unfold _genD, np_zeros.
  destruct (Z.ltb_spec (Z.of_nat (length taus)) 0); [lia|].
  reflexivity.
Qed.

(** [_genD] with width fitting never returns: an empty [taus] asks for a
    negative number of columns, and for any other [taus] line 69 reads the
    name [sqrt]. *)
Lemma _genD_fitted_width (taus Ts : vec F) :
  _genD self taus Ts true
  = match taus with
    | [] => Raise ValueError
    | _ => Raise NameError
    end.
Proof.
  unfold _genD, np_zeros. destruct taus as [|tau taus']; [reflexivity|].
  set (taus := tau :: taus').
  assert (Hl : 0 < length taus) by (simpl; lia).
  destruct (Z.ltb_spec (Z.of_nat (length taus) - 1) 0); [lia|].
  cbn [bind]. rewrite (getitem_last taus zero Hl). reflexivity.
Qed.
End DecayMatrix.

(** ** The back substitution, as a function of its rows *)

Section BackSubstitution.
Context {F : Type} {AF : Arith F}.
Local Open Scope arith_scope.

Lemma length_solve_from R Z n i : length (solve_from R Z n i) = n.
Proof. revert i; induction n; intros i; simpl; auto. Qed.

Lemma length_vdiv (v : vec F) c : length (vdiv v c) = length v.
Proof. apply length_map. Qed.

Lemma length_vsub (u v : vec F) : length (vsub u v) = Nat.min (length u) (length v).
Proof. unfold vsub. now rewrite length_map, length_combine. Qed.

Lemma length_vadd (u v : vec F) : length (vadd u v) = Nat.min (length u) (length v).
Proof. unfold vadd. now rewrite length_map, length_combine. Qed.

Lemma length_accumulate (s : option (vec F)) (v : vec F) (n : nat) :
  length v = n -> (forall u, s = Some u -> length u = n) ->
  length (accumulate s v) = n.
Proof.
  intros Hv Hs. destruct s as [u|]; simpl.
  - rewrite length_vadd, (Hs u eq_refl), Hv. apply Nat.min_id.
  - now rewrite length_map.
Qed.

Lemma length_partial_sum (ri : vec F) (rows : list (vec F)) (n : nat) :
  Forall (fun row => length row = n) rows ->
  forall u, partial_sum ri rows = Some u -> length u = n.
Proof.
  unfold partial_sum. intros Hrows.
  assert (Hgen : forall l s,
             Forall (fun rk : F * vec F => length (snd rk) = n) l ->
             (forall u, s = Some u -> length u = n) ->
             forall u,
               fold_left (fun s rk => Some (accumulate s (vscale (fst rk) (snd rk))))
                         l s = Some u ->
               length u = n).
  { induction l as [|rk l IH]; intros s Hl Hs u; simpl.
    - apply Hs.
    - inversion Hl; subst. apply IH; auto.
      intros u' [= <-]. apply length_accumulate; auto.
      unfold vscale. now rewrite length_map. }
  apply Hgen.
  - apply Forall_forall. intros [r row] Hin. apply in_combine_r in Hin.
    simpl. now apply (proj1 (Forall_forall _ rows) Hrows).
  - discriminate.
Qed.

Lemma length_solve_row ri zi i later n :
  length zi = n -> Forall (fun row => length row = n) later ->
  length (solve_row ri zi i later) = n.
Proof.
  intros Hz Hl. unfold solve_row.
  destruct (partial_sum (skipn (S i) ri) later) as [s|] eqn:E.
  - rewrite length_vdiv, length_vsub, Hz,
      (length_partial_sum _ _ n Hl s E). apply Nat.min_id.
  - now rewrite length_vdiv.
Qed.

Lemma solve_from_rows R Z n i N :
  Forall (fun row => length row = N) Z -> i + n <= length Z ->
  Forall (fun row => length row = N) (solve_from R Z n i).
Proof.
  intros HZ. revert i; induction n as [|n IH]; intros i Hi; simpl.
  - constructor.
  - constructor; [|apply IH; lia].
    apply length_solve_row; [|apply IH; lia].
    apply (proj1 (Forall_forall _ Z) HZ). apply nth_In. lia.
Qed.

Lemma shape_solve R Z K N : shape Z K N -> shape (solve R Z) K N.
Proof.
  intros [HK HN]. unfold solve. split.
  - now rewrite length_solve_from.
  - apply solve_from_rows; auto.
Qed.
End BackSubstitution.

Section ArrayFacts.
Context {F : Type} {AF : Arith F}.

Lemma shape_row (A : matrix F) m n i :
  shape A m n -> i < m -> length (nth i A []) = n.
Proof.
  intros [Hm Hn] Hi. apply (proj1 (Forall_forall _ A) Hn).
  apply nth_In. lia.
Qed.

Lemma setrow_nat (A : matrix F) (i : nat) (v : vec F) :
  i < length A -> length v = length (nth i A []) ->
  setrow A (Z.of_nat i) v = Ok (update A i v).
Proof.
  intros Hi Hv. unfold setrow. cbv zeta.
  assert (E : (Z.of_nat i <? 0)%Z = false) by (apply Z.ltb_ge; lia).
  rewrite !E, Nat2Z.id, (nth_error_nth_lt A i [] Hi), Hv, Nat.eqb_refl.
  reflexivity.
Qed.

Lemma setrow_last (A : matrix F) (v : vec F) :
  0 < length A -> length v = length (nth (length A - 1) A []) ->
  setrow A (-1) v = Ok (update A (length A - 1) v).
Proof.
  intros Hl Hv. unfold setrow. cbv zeta.
  change (-1 <? 0)%Z with true. cbv iota.
  assert (E : (Z.of_nat (length A) + -1 <? 0)%Z = false)
    by (apply Z.ltb_ge; lia).
  rewrite E.
  replace (Z.to_nat (Z.of_nat (length A) + -1)) with (length A - 1) by lia.
  rewrite (nth_error_nth_lt A _ []) by lia.
  now rewrite Hv, Nat.eqb_refl.
Qed.

Lemma getentry_nat (A : matrix F) (i j : nat) :
  i < length A -> j < length (nth i A []) ->
  getentry A (Z.of_nat i) (Z.of_nat j) = Ok (nth j (nth i A []) zero).
Proof.
  intros Hi Hj. unfold getentry.
  rewrite (getitem_nat A i [] Hi). simpl.
  apply getitem_nat, Hj.
Qed.

Lemma getentry_last (A : matrix F) (n : nat) :
  shape A n n -> 0 < n ->
  getentry A (-1) (-1) = Ok (nth (n - 1) (nth (n - 1) A []) zero).
Proof.
  intros HA Hn. unfold getentry. destruct HA as [Hl Hrows].
  rewrite (getitem_last A []) by lia. simpl. rewrite Hl.
  assert (Hr : length (nth (n - 1) A []) = n).
  { apply (shape_row A n n); [split; auto | lia]. }
  rewrite (getitem_last _ zero) by lia. now rewrite Hr.
Qed.

Lemma firstn_S_nth {X : Type} (l : list X) (m : nat) (d : X) :
  m < length l -> firstn (S m) l = firstn m l ++ [nth m l d].
Proof.
  revert m; induction l as [|x l IH]; intros [|m] Hm; simpl in *;
    try lia; auto.
  f_equal. apply IH. lia.
Qed.

Lemma nth_skipn {X : Type} (l : list X) (i m : nat) (d : X) :
  nth m (skipn i l) d = nth (i + m) l d.
Proof.
  revert l; induction i as [|i IH]; intros [|x l]; simpl; auto.
  now destruct m.
Qed.

Lemma nth_middle_app {X : Type} (p q : list X) (x d : X) (m : nat) :
  nth (length p + 1 + m) (p ++ x :: q) d = nth m q d.
Proof.
  rewrite app_nth2 by lia.
  replace (length p + 1 + m - length p) with (S m) by lia. reflexivity.
Qed.
End ArrayFacts.

Section BackSubstitutionLoop.
Context {F : Type} {AF : Arith F}.
Variables (R Z : matrix F) (K N : nat).
Hypothesis HR : shape R K K.
Hypothesis HZ : shape Z K N.

Let step := fun (s : option (vec F)) (rk : F * vec F) =>
              Some (accumulate s (vscale (fst rk) (snd rk))).

(** lines 104-106 for the row [i], as they stand in [back_substitute] *)
Let inner (i : nat) :=
      fun (k : nat) (sD : option (vec F) * matrix F) =>
        r <- getentry R (Z.of_nat i) (Z.of_nat k) ;;
        dk <- getitem (snd sD) (Z.of_nat k) ;;
        let s := accumulate (fst sD) (vscale r dk) in
        zi <- getitem Z (Z.of_nat i) ;;
        rii <- getentry R (Z.of_nat i) (Z.of_nat i) ;;
        DAS <- setrow (snd sD) (Z.of_nat i) (vdiv (vsub zi s) rii) ;;
        Ok (Some s, DAS).

Let row_after (i : nat) (x : vec F) (s : option (vec F)) : vec F :=
      match s with
      | None => x
      | Some u => vdiv (vsub (nth i Z []) u) (nth i (nth i R []) zero)
      end.

Lemma step_some (l : list (F * vec F)) (u : vec F) :
  exists u', fold_left step l (Some u) = Some u'.
Proof.
  revert u; induction l as [|rk l IH]; intros u; simpl; eauto.
Qed.

Lemma inner_loop (i : nat) (pre later : list (vec F)) (x : vec F) :
  length pre = i -> length x = N ->
  Forall (fun row => length row = N) later ->
  i + 1 + length later = K ->
  forall m, m <= length later ->
    let s := fold_left step
               (firstn m (combine (skipn (S i) (nth i R [])) later)) None in
    for_in (seq (i + 1) m) (inner i) (None, pre ++ x :: later)
    = Ok (s, pre ++ row_after i x s :: later).
Proof.
  intros Hpre Hx Hlater HK.
  assert (Hi : i < K) by lia.
  assert (Hri : length (nth i R []) = K) by (apply (shape_row R K K); auto).
  assert (Hzi : length (nth i Z []) = N) by (apply (shape_row Z K N); auto).
  assert (Hsk : length (skipn (S i) (nth i R [])) = length later)
    by (rewrite length_skipn; lia).
  induction m as [|m IH]; intros Hm; cbv zeta.
  - reflexivity.
  - rewrite seq_S, for_in_app. cbv zeta in IH. rewrite IH by lia.
    cbn [bind for_in].
    set (l := combine (skipn (S i) (nth i R [])) later).
    set (s := fold_left step (firstn m l) None).
    assert (Hlen : length l = length later).
    { unfold l. rewrite length_combine, Hsk. apply Nat.min_id. }
    rewrite (firstn_S_nth l m (zero, [])) by lia.
    rewrite fold_left_app. fold s. cbn [fold_left].
    assert (Hnth : nth m l (zero, [])
                   = (nth (i + 1 + m) (nth i R []) zero, nth m later [])).
    { unfold l. rewrite combine_nth by exact Hsk. rewrite nth_skipn.
      do 2 f_equal. lia. }
    rewrite Hnth.
    unfold inner at 1. cbn [fst snd].
    rewrite getentry_nat by (destruct HR; lia).
    cbn [bind].
    replace (i + 1 + m) with (length pre + 1 + m) at 1 by lia.
    rewrite (getitem_nat _ _ []), nth_middle_app
      by (rewrite length_app; simpl; lia).
    cbn [bind].
    rewrite (getitem_nat Z i []) by (destruct HZ; lia). cbn [bind].
    rewrite getentry_nat by (destruct HR; lia). cbn [bind].
    set (s' := accumulate s (vscale (nth (i + 1 + m) (nth i R []) zero)
                                    (nth m later []))).
    assert (Hs : forall u, s = Some u -> length u = N).
    { intros u Hu. unfold s in Hu.
      eapply (length_partial_sum (firstn m (skipn (S i) (nth i R [])))
                                 (firstn m later)).
      - apply Forall_forall. intros row Hrow.
        apply (proj1 (Forall_forall _ later) Hlater).
        rewrite <- (firstn_skipn m later). apply in_or_app. now left.
      - unfold partial_sum. rewrite <- combine_firstn. exact Hu. }
    assert (Hs' : length s' = N).
    { apply length_accumulate; auto.
      unfold vscale. rewrite length_map.
      apply (proj1 (Forall_forall _ later) Hlater). apply nth_In. lia. }
    rewrite setrow_nat.
    + cbn [bind]. unfold step at 1 2. cbn [fst snd]. fold s'.
      f_equal. f_equal.
      rewrite <- Hpre, update_app_cons by reflexivity.
      rewrite Hpre. reflexivity.
    + rewrite length_app. simpl. lia.
    + rewrite length_vdiv, length_vsub, Hzi.
      match goal with
      | |- Nat.min N (length ?t) = _ =>
          replace (length t) with N by (symmetry; exact Hs')
      end.
      rewrite Nat.min_id.
      rewrite <- Hpre, nth_middle, Hpre.
      unfold row_after. destruct s as [u|] eqn:Es; auto.
      now rewrite length_vdiv, length_vsub, Hzi, (Hs u eq_refl), Nat.min_id.
Qed.
End BackSubstitutionLoop.

Section BackSubstitutionCorrect.
Context {F : Type} {AF : Arith F}.
Variables (R Z : matrix F) (K N : nat).
Hypothesis HR : shape R K K.
Hypothesis HZ : shape Z K N.

Lemma partial_sum_some (ri : vec F) (later : list (vec F)) :
  0 < length ri -> 0 < length later ->
  exists u, partial_sum ri later = Some u.
Proof.
  destruct ri as [|r ri]; [simpl; lia|].
  destruct later as [|row later]; [simpl; lia|]. intros _ _.
  unfold partial_sum. simpl. apply step_some.
Qed.

(** The loop of lines 102-106 over the rows [n - 1], ..., [0], entered with the
    rows from [n] on already solved. *)
Lemma outer_loop (n : nat) :
  forall pre : list (vec F),
    length pre = n -> Forall (fun row => length row = N) pre -> n + 1 <= K ->
    for_in (rev (seq 0 n))
      (fun i DAS =>
         sD <- for_in (range (i + 1) (length DAS))
                 (fun k sD =>
                    r <- getentry R (Z.of_nat i) (Z.of_nat k) ;;
                    dk <- getitem (snd sD) (Z.of_nat k) ;;
                    let s := accumulate (fst sD) (vscale r dk) in
                    zi <- getitem Z (Z.of_nat i) ;;
                    rii <- getentry R (Z.of_nat i) (Z.of_nat i) ;;
                    DAS <- setrow (snd sD) (Z.of_nat i) (vdiv (vsub zi s) rii) ;;
                    Ok (Some s, DAS)) (None, DAS) ;;
         Ok (snd sD))
      (pre ++ solve_from R Z (K - n) n)
    = Ok (solve_from R Z K 0).
Proof.
  induction n as [|n IH]; intros pre Hpre Hrows Hn.
  - destruct pre; [|discriminate]. simpl. now rewrite Nat.sub_0_r.
  - rewrite seq_S, rev_app_distr. cbn [rev app for_in Nat.add].
    destruct (exists_last (l := pre)) as (pre' & x & ->);
      [destruct pre; discriminate|].
    rewrite length_app in Hpre. simpl in Hpre.
    apply Forall_app in Hrows. destruct Hrows as [Hpre' Hx].
    pose proof (Forall_inv Hx) as Hlx. cbv beta in Hlx.
    set (later := solve_from R Z (K - S n) (S n)).
    assert (Hlater : length later = K - S n) by apply length_solve_from.
    assert (HN : Forall (fun row => length row = N) later).
    { apply solve_from_rows; [apply HZ | destruct HZ; lia]. }
    rewrite <- app_assoc. cbn [app].
    rewrite !length_app. cbn [length]. unfold range.
    replace (length pre' + S (length later) - (n + 1)) with (length later) by lia.
    rewrite (inner_loop R Z K N HR HZ n pre' later x); try lia; auto.
    cbn [bind snd].
    rewrite firstn_all2
      by (rewrite length_combine, length_skipn; destruct HR; lia).
    destruct (partial_sum_some (skipn (S n) (nth n R [])) later) as [u Hu].
    { rewrite length_skipn, (shape_row R K K); auto; lia. }
    { lia. }
    unfold partial_sum in Hu. rewrite Hu.
    replace (pre' ++ _ :: later) with (pre' ++ solve_from R Z (K - n) n).
    + apply IH; auto; lia.
    + f_equal. replace (K - n) with (S (K - S n)) by lia.
      cbn [solve_from]. fold later. f_equal.
      unfold solve_row, partial_sum. now rewrite Hu.
Qed.

Lemma update_last {X : Type} (l : list X) (v : X) :
  0 < length l -> update l (length l - 1) v = firstn (length l - 1) l ++ [v].
Proof.
  intros Hl. destruct (exists_last (l := l)) as (p & x & ->);
    [destruct l; simpl in *; [lia | discriminate]|].
  rewrite length_app. simpl.
  replace (length p + 1 - 1) with (length p) by lia.
  rewrite update_app_cons by reflexivity.
  now rewrite firstn_app, firstn_all, Nat.sub_diag, app_nil_r.
Qed.

(** On arrays of matching shapes the back substitution raises nothing and
    returns the rows of [solve]. *)
Lemma back_substitute_solve (DAS : matrix F) :
  shape DAS K N -> 0 < K -> back_substitute R Z DAS = Ok (solve R Z).
Proof.
  intros [HK HN] HK0. unfold back_substitute, range_down.
  destruct HZ as [HZl HZr]. destruct HR as [HRl HRr].
  rewrite (getitem_last Z []) by lia. cbn [bind].
  rewrite (getentry_last R K) by (auto; split; auto). cbn [bind].
  rewrite setrow_last; try lia.
  - cbn [bind]. rewrite length_update, update_last, HK, HZl by lia.
    unfold solve. rewrite HZl.
    etransitivity; [|apply (outer_loop (K - 1) (firstn (K - 1) DAS))].
    + cbv zeta. f_equal. f_equal. replace (K - (K - 1)) with 1 by lia.
      cbn [solve_from]. f_equal. unfold solve_row, partial_sum.
      now rewrite combine_nil.
    + rewrite length_firstn. lia.
    + apply Forall_forall. intros row Hrow.
      apply (proj1 (Forall_forall _ DAS) HN).
      rewrite <- (firstn_skipn (K - 1) DAS). apply in_or_app. now left.
    + lia.
  - rewrite length_vdiv, HK, HZl.
    rewrite (shape_row Z K N), (shape_row DAS K N); auto; try lia;
      split; auto.
Qed.
End BackSubstitutionCorrect.

(** ** The linear solve *)

Section Solver.
Context {F : Type} {AF : Arith F}.
Variable qr : matrix F -> matrix F * matrix F.

Lemma shape_app (A B : matrix F) m m' n :
  shape A m n -> shape B m' n -> shape (A ++ B) (m + m') n.
Proof.
  intros [Hm Hn] [Hm' Hn']. split.
  - rewrite length_app. lia.
  - apply Forall_app. now split.
Qed.

Lemma shape_repeat (x : F) m n : shape (repeat (repeat x n) m) m n.
Proof.
  split; [apply repeat_length|].
  apply Forall_forall. intros row Hrow. apply repeat_spec in Hrow.
  subst. apply repeat_length.
Qed.

Lemma shape_identity n : shape (np_identity n) n n.
Proof.
  unfold np_identity. split.
  - now rewrite length_map, length_seq.
  - apply Forall_forall. intros row Hrow. apply in_map_iff in Hrow.
    destruct Hrow as (i & <- & _). now rewrite length_map, length_seq.
Qed.

Lemma shape_scale c (A : matrix F) m n : shape A m n -> shape (scale c A) m n.
Proof.
  intros [Hm Hn]. unfold scale. split.
  - now rewrite length_map.
  - apply Forall_forall. intros row Hrow. apply in_map_iff in Hrow.
    destruct Hrow as (r & <- & Hr). rewrite length_map.
    now apply (proj1 (Forall_forall _ A) Hn).
Qed.

Lemma shape_transpose (A : matrix F) m n :
  shape A m n -> 0 < m -> shape (transpose A) n m.
Proof.
  intros [Hm Hn] H0. destruct A as [|row0 A']; [simpl in Hm; lia|].
  unfold transpose. inversion Hn as [|? ? Hrow0 _]; subst.
  split.
  - now rewrite length_map, length_seq.
  - apply Forall_forall. intros col Hcol. apply in_map_iff in Hcol.
    destruct Hcol as (j & <- & _). now rewrite length_map.
Qed.

Lemma shape_matmul (A B : matrix F) m k n :
  shape A m k -> shape B k n -> 0 < k -> shape (matmul A B) m n.
Proof.
  intros [Hm Hk] HB H0. unfold matmul. split.
  - now rewrite length_map.
  - apply Forall_forall. intros row Hrow. apply in_map_iff in Hrow.
    destruct Hrow as (r & <- & _). rewrite length_map.
    apply (shape_transpose B k n HB H0).
Qed.

Lemma np_dot_matmul (A B : matrix F) m k :
  shape A m k -> length B = k -> np_dot A B = Ok (matmul A B).
Proof.
  intros [Hm Hk] HB. unfold np_dot.
  replace (forallb _ A) with true; [reflexivity|].
  symmetry. apply forallb_forall. intros row Hrow.
  apply Nat.eqb_eq. rewrite HB.
  now apply (proj1 (Forall_forall _ A) Hk).
Qed.

Lemma shape_D_aug (D : matrix F) alpha M K :
  shape D M K -> 0 < M ->
  shape (D_aug D alpha) (if nonzero alpha then M + K else M) K.
Proof.
  intros HD HM. unfold D_aug. destruct (nonzero alpha); auto.
  rewrite (shape_row D M K) by auto.
  apply shape_app; auto. apply shape_scale, shape_identity.
Qed.

Lemma shape_Y_aug (D Y : matrix F) alpha M K N :
  shape D M K -> shape Y M N -> 0 < M ->
  shape (Y_aug D Y alpha) (if nonzero alpha then M + K else M) N.
Proof.
  intros HD HY HM. unfold Y_aug. destruct (nonzero alpha); auto.
  rewrite (shape_row D M K), (shape_row Y M N) by auto.
  apply shape_app; auto. apply shape_repeat.
Qed.

(** On arrays of matching shapes [_getDAS] raises nothing: it returns the
    back substitution of [R] against [Qt.dot(Y_aug)]. *)
Lemma _getDAS_solve_at (D Y : matrix F) (alpha : F) (M K N : nat) :
  shape D M K -> shape Y M N -> 0 < M -> 0 < K ->
  shape (fst (qr (D_aug D alpha))) (if nonzero alpha then M + K else M) K ->
  shape (snd (qr (D_aug D alpha))) K K ->
  _getDAS qr D Y alpha
  = Ok (solve (snd (qr (D_aug D alpha)))
              (matmul (transpose (fst (qr (D_aug D alpha)))) (Y_aug D Y alpha))).
Proof.
  intros HD HY HM HK HQ HRs.
  pose proof (shape_D_aug D alpha M K HD HM) as HDa.
  pose proof (shape_Y_aug D Y alpha M K N HD HY HM) as HYa.
  set (m := if nonzero alpha then M + K else M) in *.
  assert (Hm : 0 < m) by (unfold m; destruct (nonzero alpha); lia).
  assert (Haug : (if nonzero alpha then
            d0 <- getitem D 0 ;;
            let D_aug := D ++ scale (root alpha) (np_identity (length d0)) in
            da0 <- getitem D_aug 0 ;;
            y0 <- getitem Y 0 ;;
            Z0 <- np_zeros (length da0) (Z.of_nat (length y0)) ;;
            Ok (D_aug, Y ++ Z0)
          else Ok (D, Y)) = Ok (D_aug D alpha, Y_aug D Y alpha)).
  { unfold D_aug, Y_aug. destruct (nonzero alpha); [|reflexivity].
    rewrite (getitem_first D []) by (destruct HD; lia). cbn [bind].
    rewrite (getitem_first _ []) by (rewrite length_app; destruct HD; lia).
    cbn [bind]. rewrite (getitem_first Y []) by (destruct HY; lia).
    cbn [bind]. unfold np_zeros.
    assert (E : forall n, (Z.of_nat n <? 0)%Z = false)
      by (intros; apply Z.ltb_ge; lia).
    rewrite E, Nat2Z.id. cbn [bind].
    rewrite app_nth1 by (destruct HD; lia). reflexivity. }
  unfold _getDAS.
  match goal with
  | |- bind ?r _ = _ =>
      replace r with (Ok (D_aug D alpha, Y_aug D Y alpha))
        by (symmetry; exact Haug)
  end.
  cbn [bind fst snd].
  rewrite (getitem_first _ []) by (destruct HDa; lia). cbn [bind].
  rewrite (getitem_first _ []) by (destruct HYa; lia). cbn [bind].
  unfold np_zeros.
  assert (E : forall n, (Z.of_nat n <? 0)%Z = false)
    by (intros; apply Z.ltb_ge; lia).
  rewrite E, Nat2Z.id. cbn [bind].
  rewrite (np_dot_matmul _ _ K m);
    [| apply shape_transpose; auto; lia | apply HYa].
  cbn [bind].
  apply (back_substitute_solve _ _ K N); auto.
  - apply (shape_matmul _ _ K m N); [| exact HYa | lia].
    apply shape_transpose; [exact HQ | lia].
  - rewrite (shape_row (D_aug D alpha) m K), (shape_row (Y_aug D Y alpha) m N);
      auto; try lia.
    apply shape_repeat.
Qed.

Lemma _getDAS_solve (D Y : matrix F) (alpha : F) (M K N : nat) :
  qr_shapes qr ->
  shape D M K -> shape Y M N -> 0 < M -> 0 < K ->
  (nonzero alpha = false -> K <= M) ->
  _getDAS qr D Y alpha
  = Ok (solve (snd (qr (D_aug D alpha)))
              (matmul (transpose (fst (qr (D_aug D alpha)))) (Y_aug D Y alpha))).
Proof.
  intros Hqr HD HY HM HK Hrank.
  pose proof (shape_D_aug D alpha M K HD HM) as HDa.
  assert (Hm : K <= if nonzero alpha then M + K else M)
    by (destruct (nonzero alpha); [lia | auto]).
  destruct (Hqr (D_aug D alpha) _ K HDa Hm) as [HQ HRs].
  now apply (_getDAS_solve_at D Y alpha M K N).
Qed.
End Solver.

(** ** Properties of the decay matrix *)

Lemma shape_map_map {A B C : Type} (f : A -> B -> C) (l : list A) (l' : list B) :
  shape (map (fun a => map (f a) l') l) (length l) (length l').
Proof.
  split; [apply length_map|].
  apply Forall_forall. intros row Hrow. apply in_map_iff in Hrow.
  destruct Hrow as (a & <- & _). apply length_map.
Qed.

(** On the pure exponential branch [_genD] returns an array of [len(T)] rows
    and one column per lifetime. *)
Lemma _genD_has_shape {F : Type} {AF : Arith F} {SF : Special F}
  (self : SVD_GA F) (taus Ts : vec F) :
  nonzero (FWHM_mod self) = false ->
  exists D : matrix F,
    _genD self taus Ts false = Ok D
    /\ shape D (length Ts) (length taus).
Proof.
  intros Hw. eexists. split; [apply _genD_fixed_width, Hw|].
  apply (shape_map_map (fun t tau => fexp (- t / tau)%ar)).
Qed.

(** C10.  With [fit_irf] true no entry of the decay matrix is computed.  For
    [K] lifetimes followed by a width the call raises [NameError]: line 69
    reads the name [sqrt], which the module does not bind, before the loops
    are entered; this is so whatever the stored [FWHM_mod], the lifetimes,
    the width and the time grid.  A call without any parameter raises
    [ValueError]. *)
Theorem genD_fit_irf_raises_NameError
  {F : Type} {AF : Arith F} {SF : Special F}
  (self : SVD_GA F) (lifetimes Ts : vec F) (fwhm : F) :
  _genD self (lifetimes ++ [fwhm]) Ts true = Raise NameError
  /\ _genD self [] Ts true = Raise ValueError.
Proof.
  split.
  - rewrite _genD_fitted_width.
    destruct (lifetimes ++ [fwhm]) as [|tau0 rest] eqn:E; [|reflexivity].
    destruct lifetimes; discriminate.
  - exact (_genD_fitted_width self [] Ts).
Qed.

(** C9.  When the stored [FWHM_mod] is zero (the test [self.FWHM_mod != 0]
    fails) and the width is not fitted, every entry is the pure exponential
    [exp(-T[i]/taus[j])]. *)
Theorem genD_pure_exponential_without_width_fit
  {F : Type} {AF : Arith F} {SF : Special F}
  (self : SVD_GA F) (taus Ts : vec F) :
  nonzero (FWHM_mod self) = false ->
  _genD self taus Ts false
  = Ok (map (fun t => map (fun tau => fexp (- t / tau)%ar) taus) Ts).
Proof.
  intros H0. unfold _genD, np_zeros.
  destruct (Z.ltb_spec (Z.of_nat (length taus)) 0); [lia|].
  cbn [bind]. rewrite Nat2Z.id, (fill_D_pure self taus Ts zero (length taus) H0)
    by lia.
  now rewrite firstn_all.
Qed.


Section DecayMatrixOnReals.
Local Open Scope R_scope.

Lemma zero_div (x : R) : 0 / x = 0.
Proof. unfold Rdiv. ring. Qed.

Lemma exp_half_lt_2 : exp (1 / 2) < 2.
Proof.
  pose proof exp_le_3 as H3.
  pose proof (exp_pos (1 / 2)) as Hp.
  assert (H : exp (1 / 2) * exp (1 / 2) = exp 1)
    by (rewrite <- exp_plus; apply f_equal; lra).
  nra.
Qed.

Lemma exp_neg_half_lt_1 : exp (- (1 / 2)) < 1.
Proof.
  assert (H : exp (- (1 / 2)) < exp 0) by (apply exp_increasing; lra).
  now rewrite exp_0 in H.
Qed.

Lemma sqrt_ln_2_pos : 0 < sqrt (ln 2).
Proof.
  apply sqrt_lt_R0. rewrite <- ln_1. apply ln_increasing; lra.
Qed.

(** C1, the code at [FWHM_mod = 2], [taus = [2]], [T = [2]]: the stored
    width is not zero, the convolved branch is taken, and the call raises
    [NameError] at the first entry (line 82 reads the name [exp], which the
    module does not bind), where the closed form of the specification has
    the value [exp(-1/2)/4].  The call that fits the width, with the same
    lifetime and time, raises [NameError] in line 69. *)
Theorem genD_convolved_entry_raises_NameError :
  nonzero (FWHM_mod (self_with_width 2)) = true
  /\ _genD (self_with_width 2) [2] [2] false = Raise NameError
  /\ _genD (self_with_width 0) [2; 2] [2] true = Raise NameError
  /\ closed_form_of_spec 2 2 2 = 1 / 4 * exp (- (1 / 2)).
Proof.
  assert (Hw : nonzero (FWHM_mod (self_with_width 2)) = true).
  { cbn [FWHM_mod self_with_width nonzero R_Arith].
    apply Rnonzero_true. lra. }
  split; [exact Hw|]. split; [|split].
  - unfold _genD, np_zeros.
    cbn [length Z.of_nat Pos.of_succ_nat Z.ltb Z.compare bind Z.to_nat
         Pos.to_nat Pos.iter_op Nat.add repeat].
    unfold fill_D, range.
    cbn [length Nat.sub seq for_in getitem Z.of_nat Z.ltb Z.compare Z.to_nat
         nth_error bind].
    rewrite Hw. reflexivity.
  - reflexivity.
  - unfold closed_form_of_spec.
    replace (2 - 2 * 2 / 2) with 0 by lra. rewrite zero_div.
    rewrite erf_0.
    replace (2 * 2 / (2 * (2 * 2))) with (1 / 2) by lra.
    replace (- (2) / 2) with (- 1) by lra.
    replace (exp (- (1 / 2))) with (exp (- 1) * exp (1 / 2))
      by (rewrite <- exp_plus; apply f_equal; lra).
    lra.
Qed.

(** The expression of lines 82-84 at the same point, were its names [exp]
    and [sqrt] bound to the functions of numpy: the exponent of the Gaussian
    factor has [2*tau] where the closed form of the specification has
    [2*tau^2], and the value is [1/4]. *)
Lemma convolved_with_the_functions_of_numpy :
  convolved exp sqrt 2 2 2 = 1 / 4
  /\ closed_form_of_spec 2 2 2 <> convolved exp sqrt 2 2 2.
Proof.
  assert (H : convolved exp sqrt 2 2 2 = 1 / 4).
  { unfold convolved, sqr.
    cbn [half one two add sub mul div opp fexp ferf R_Arith R_Special].
    replace (2 - 2 * 2 / 2) with 0 by lra. rewrite zero_div.
    rewrite erf_0.
    replace (2 * 2 / (2 * 2)) with 1 by lra.
    replace (- (2) / 2) with (- 1) by lra.
    assert (He : exp (- 1) * exp 1 = 1)
      by (rewrite <- exp_plus; replace (- 1 + 1) with 0 by lra; apply exp_0).
    nra. }
  split; [exact H|]. rewrite H.
  unfold closed_form_of_spec.
  replace (2 - 2 * 2 / 2) with 0 by lra. rewrite zero_div.
  rewrite erf_0.
  replace (2 * 2 / (2 * (2 * 2))) with (1 / 2) by lra.
  replace (- (2) / 2) with (- 1) by lra.
  assert (He : exp (- 1) * exp (1 / 2) = exp (- (1 / 2)))
    by (rewrite <- exp_plus; apply f_equal; lra).
  pose proof exp_neg_half_lt_1. nra.
Qed.


(** C9: a call to which the theorem applies. *)
Lemma genD_pure_exponential_example :
  _genD (self_with_width 0) [1] [0; 1] false
  = Ok (map (fun t => map (fun tau => exp (- t / tau)) [1]) [0; 1]).
Proof.
  exact (genD_pure_exponential_without_width_fit
           (self_with_width 0) [1] [0; 1] (proj2 (Rnonzero_false 0) eq_refl)).
Defined.

End DecayMatrixOnReals.

(** ** The selection of the columns to fit *)

Section Selection.
Context {F : Type} {AF : Arith F}.

Lemma getcol_nth (A : matrix F) (j : Z) (C : nat) :
  Forall (fun row => length row = C) A -> (0 <= j < Z.of_nat C)%Z ->
  getcol A j = Ok (map (fun row => nth (Z.to_nat j) row zero) A).
Proof.
  intros HA Hj. unfold getcol.
  assert (Hgen : forall acc,
             for_in A (fun row acc =>
                         match getitem row j with
                         | Ok x => Ok (acc ++ [x])
                         | Raise _ => Raise (out_of_bounds j)
                         end) acc
             = Ok (acc ++ map (fun row => nth (Z.to_nat j) row zero) A)).
  { induction A as [|row A' IH]; intros acc; simpl.
    - now rewrite app_nil_r.
    - inversion HA as [|? ? Hrow HA']; subst.
      assert (Hget : getitem row j = Ok (nth (Z.to_nat j) row zero)).
      { rewrite <- (Z2Nat.id j) at 1 by lia. apply getitem_nat. lia. }
      rewrite Hget. cbn [bind].
      rewrite IH by exact HA'. now rewrite <- app_assoc. }
  apply (Hgen []).
Qed.

Lemma firstn_take (row : vec F) (n : nat) :
  n <= length row ->
  firstn n row
  = map (fun c => nth (Z.to_nat (c - 1)) row zero) (map Z.of_nat (seq 1 n)).
Proof.
  intros Hn. rewrite map_map, <- seq_shift, map_map.
  rewrite <- (map_id (firstn n row)).
  rewrite <- (map_nth_seq_firstn (fun x => x) row zero n Hn).
  apply map_ext. intros j. f_equal. lia.
Qed.

Lemma cols_to_take (A : matrix F) (n : Z) (C : nat) :
  Forall (fun row => length row = C) A -> (0 <= n <= Z.of_nat C)%Z ->
  cols_to A n = take_columns A (map Z.of_nat (seq 1 (Z.to_nat n))).
Proof.
  intros HA Hn. unfold cols_to, take_columns.
  apply map_ext_in. intros row Hrow.
  pose proof (proj1 (Forall_forall _ A) HA row Hrow) as Hlen.
  cbv beta in Hlen. unfold slice_to. cbv zeta.
  assert (E : (n <? 0)%Z = false) by (apply Z.ltb_ge; lia).
  rewrite E. apply firstn_take. lia.
Qed.

Lemma combine_map_map {X Y W : Type} (f : X -> Y) (g : X -> W) (l : list X) :
  combine (map f l) (map g l) = map (fun x => (f x, g x)) l.
Proof. induction l as [|x l IH]; simpl; auto. now rewrite IH. Qed.

(** Lines 146-148: the loop that copies the chosen columns. *)
Lemma copy_columns (A : matrix F) (idx : list Z) (C : nat) :
  Forall (fun row => length row = C) A ->
  Forall (fun n => (1 <= n <= Z.of_nat C)%Z) idx ->
  for_in (range 0 (length idx))
    (fun j fit =>
       n <- getitem idx (Z.of_nat j) ;;
       col <- getcol A (n - 1) ;;
       setcol fit j col)
    (repeat (repeat zero (length idx)) (length A))
  = Ok (take_columns A idx).
Proof.
  intros HA Hidx. unfold range. rewrite Nat.sub_0_r.
  set (L := length idx).
  set (pick := fun (row : vec F) (j : nat) =>
                 nth (Z.to_nat (nth j idx 0%Z - 1)) row zero).
  assert (Hgen : forall k, k <= L ->
    for_in (seq 0 k)
      (fun j fit =>
         n <- getitem idx (Z.of_nat j) ;;
         col <- getcol A (n - 1) ;;
         setcol fit j col)
      (repeat (repeat zero L) (length A))
    = Ok (map (fun row => map (pick row) (seq 0 k) ++ repeat zero (L - k)) A)).
  { induction k as [|k IH]; intros Hk.
    - cbn [for_in seq map app]. rewrite Nat.sub_0_r. f_equal.
      clear. induction A as [|row A' IH]; simpl; auto. now rewrite IH.
    - rewrite seq_S, for_in_app, IH by lia. cbn [bind for_in Nat.add].
      rewrite (getitem_nat idx k 0%Z) by (fold L; lia). cbn [bind].
      assert (Hn : (1 <= nth k idx 0 <= Z.of_nat C)%Z).
      { apply (proj1 (Forall_forall _ idx) Hidx). apply nth_In. fold L. lia. }
      rewrite (getcol_nth A _ C HA) by lia. cbn [bind].
      unfold setcol.
      replace (forallb _ _) with true.
      + rewrite !length_map, Nat.eqb_refl, combine_map_map.
        cbn [bind]. f_equal. rewrite map_map. apply map_ext. intros row.
        cbn [fst snd].
        replace (L - k) with (S (L - S k)) by lia. cbn [repeat].
        rewrite update_app_cons by now rewrite length_map, length_seq.
        rewrite map_app, <- app_assoc. reflexivity.
      + symmetry. apply forallb_forall. intros row Hrow.
        apply in_map_iff in Hrow. destruct Hrow as (r & <- & _).
        apply Nat.ltb_lt.
        rewrite length_app, length_map, length_seq, repeat_length. lia. }
  rewrite Hgen by lia. f_equal. unfold take_columns.
  apply map_ext. intros row. rewrite Nat.sub_diag, app_nil_r.
  unfold L, pick.
  apply (map_nth_seq (fun n => nth (Z.to_nat (n - 1)) row zero) idx 0%Z).
Qed.
End Selection.

(** C4.  For a basis with [C] columns and a selector whose tokens are the
    integers [ns], each between 1 and [C] (and [3 <= C] when there is none):
    the columns fitted are those of the policy, the first three for no
    integer, the first [n] for a single [n], and otherwise exactly the listed
    columns in the listed order; the indices returned are [[3]] or [ns]. *)
Theorem get_wLSVs_for_fit_follows_policy
  {F : Type} {AF : Arith F} (self : SVD_GA F) (sel : string)
  (B : option (list (F * F))) (ns : list Z) (C : nat) :
  shape (wLSV self) (length (T self)) C ->
  map_int (split sel) = Ok ns ->
  Forall (fun n => (1 <= n <= Z.of_nat C)%Z) ns ->
  (ns = [] -> 3 <= C) ->
  _get_wLSVs_for_fit self sel B
  = Ok (match ns with [] => [3%Z] | _ => ns end,
        take_columns (wLSV self) (columns_of_policy ns)).
Proof.
  intros [HM HC] Hparse Hns H3. unfold _get_wLSVs_for_fit.
  destruct (split sel) as [|tok toks] eqn:Etoks.
  - simpl in Hparse. injection Hparse as <-.
    cbn [bind]. rewrite (getitem_first [3%Z] 0%Z) by (simpl; lia).
    cbn [bind nth]. f_equal. f_equal.
    rewrite (cols_to_take _ 3 C HC) by (specialize (H3 eq_refl); lia).
    reflexivity.
  - cbv beta iota. rewrite Hparse. cbn [bind].
    destruct ns as [|n [|n' ns']].
    + simpl in Hparse. destruct (int tok); [|discriminate].
      simpl in Hparse. destruct (map_int toks); discriminate.
    + cbn [length Nat.eqb]. rewrite (getitem_first [n] 0%Z) by (simpl; lia).
      cbn [bind nth]. f_equal. f_equal.
      inversion Hns as [|? ? Hn _]; subst.
      apply (cols_to_take _ n C HC). lia.
    + cbn [length Nat.eqb]. unfold np_zeros.
      assert (E : forall k, (Z.of_nat k <? 0)%Z = false)
        by (intros; apply Z.ltb_ge; lia).
      rewrite E, Nat2Z.id. cbn [bind]. rewrite <- HM.
      rewrite (copy_columns (wLSV self) (n :: n' :: ns') C HC Hns).
      reflexivity.
Qed.

(** The selectors of section 8 of the specification. *)
Example selector_empty :
  _get_wLSVs_for_fit basis5 "" None = Ok ([3%Z], [[1; 2; 3]; [6; 7; 8]]%float).
Proof. reflexivity. Qed.

Example selector_single :
  _get_wLSVs_for_fit basis5 "4" None
  = Ok ([4%Z], [[1; 2; 3; 4]; [6; 7; 8; 9]]%float).
Proof. reflexivity. Qed.

Example selector_several :
  _get_wLSVs_for_fit basis5 "4 2 4" None
  = Ok ([4; 2; 4]%Z, [[4; 2; 4]; [9; 7; 9]]%float).
Proof. reflexivity. Qed.

(** C4 at the selector ["2 4"]. *)
Lemma get_wLSVs_for_fit_example :
  _get_wLSVs_for_fit basis5 "2 4" None = Ok ([2; 4]%Z, [[2; 4]; [7; 9]]%float).
Proof.
  refine (get_wLSVs_for_fit_follows_policy basis5 "2 4" None [2; 4]%Z 5 _ _ _ _).
  - split; [reflexivity | repeat constructor].
  - reflexivity.
  - repeat constructor; lia.
  - discriminate.
Defined.

(** ** The objective and the fit *)

Section Objective.
Context {F : Type} {AF : Arith F} {SF : Special F}.
Variable qr : matrix F -> matrix F * matrix F.
Variable self : SVD_GA F.

Lemma np_sub_msub (Y P : matrix F) (m n : nat) :
  shape Y m n -> shape P m n -> np_sub Y P = Ok (msub Y P).
Proof.
  intros [HYm HYn] [HPm HPn]. unfold np_sub.
  rewrite HYm, HPm, Nat.eqb_refl. cbn [andb].
  replace (forallb _ _) with true; [reflexivity|].
  symmetry. apply forallb_forall. intros [y p] Hin. cbn [fst snd].
  apply Nat.eqb_eq.
  rewrite (proj1 (Forall_forall _ Y) HYn y (in_combine_l _ _ _ _ Hin)).
  now rewrite (proj1 (Forall_forall _ P) HPn p (in_combine_r _ _ _ _ Hin)).
Qed.

Lemma shape_DAS_of (D Y : matrix F) (alpha : F) (M K N : nat) :
  qr_shapes qr -> shape D M K -> shape Y M N -> 0 < M -> 0 < K ->
  (nonzero alpha = false -> K <= M) ->
  shape (DAS_of qr D Y alpha) K N.
Proof.
  intros Hqr HD HY HM HK Hrank. unfold DAS_of.
  pose proof (shape_D_aug D alpha M K HD HM) as HDa.
  pose proof (shape_Y_aug D Y alpha M K N HD HY HM) as HYa.
  set (m := if nonzero alpha then M + K else M) in *.
  assert (Hm : K <= m /\ 0 < m).
  { unfold m. destruct (nonzero alpha); [lia|]. split; [auto | lia]. }
  destruct (Hqr (D_aug D alpha) m K HDa (proj1 Hm)) as [HQ HRs].
  apply shape_solve. apply (shape_matmul _ _ K m N); [| exact HYa | lia].
  apply shape_transpose; [exact HQ | lia].
Qed.

(** On arrays of matching shapes the residual is computed without an
    exception. *)
Lemma residual_returns (D Y : matrix F) (alpha : F) (M K N : nat) :
  qr_shapes qr -> shape D M K -> shape Y M N -> 0 < M -> 0 < K ->
  (nonzero alpha = false -> K <= M) ->
  residual qr D Y alpha
  = Ok (sum_squares (msub Y (matmul D (DAS_of qr D Y alpha)))).
Proof.
  intros Hqr HD HY HM HK Hrank. unfold residual.
  rewrite (_getDAS_solve qr D Y alpha M K N) by assumption.
  fold (DAS_of qr D Y alpha). cbn [bind].
  pose proof (shape_DAS_of D Y alpha M K N Hqr HD HY HM HK Hrank) as HX.
  rewrite (np_dot_matmul D _ M K HD) by apply HX. cbn [bind].
  rewrite (np_sub_msub Y _ M N HY); [reflexivity|].
  apply (shape_matmul _ _ M K N); assumption.
Qed.

(** The objective is defined at every parameter vector of the right length. *)
Lemma _min_returns (p : vec F) (Y : matrix F) (Ts : vec F) (alpha : F)
    (K N : nat) :
  qr_shapes qr -> nonzero (FWHM_mod self) = false ->
  shape Y (length Ts) N -> 0 < length Ts -> 0 < K ->
  length p = K ->
  (nonzero alpha = false -> K <= length Ts) ->
  exists v, _min qr self p Y Ts alpha false = Ok v.
Proof.
  intros Hqr Hw HY HM HK Hp Hrank. unfold _min.
  destruct (_genD_has_shape self p Ts Hw) as (D & -> & HD).
  cbn [bind]. rewrite Hp in HD.
  rewrite (residual_returns D Y alpha (length Ts) K N) by assumption.
  eauto.
Qed.
End Objective.

Section Optimizer.
Context {F : Type}.

(** Against an objective that is defined on the vectors of length [n], a run
    of a [sized n] optimizer ends with a vector of length [n], and has asked
    only for vectors of length [n]. *)
Lemma run_sized (n : nat) (f : vec F -> result F) (o : optimizer F) :
  sized n o ->
  (forall p, length p = n -> exists v, f p = Ok v) ->
  exists x, run_optimizer o f = Ok x
            /\ length x = n
            /\ Forall (fun p => length p = n) (queried o f).
Proof.
  intros Ho Hf. induction Ho as [x Hx | p k Hp Hk IH].
  - exists x. simpl. auto.
  - destruct (Hf p Hp) as [v Hv]. destruct (IH v) as (x & Hrun & Hlen & Hq).
    exists x. simpl. rewrite Hv. cbn [bind]. auto.
Qed.

(** When the objective raises [e] at every vector of length [n], a run of
    a [sized n] optimizer raises [e], or ends without a single evaluation. *)
Lemma run_against_raising (n : nat) (e : exn) (f : vec F -> result F)
    (o : optimizer F) :
  sized n o -> (forall p, length p = n -> f p = Raise e) ->
  run_optimizer o f = Raise e
  \/ exists x, run_optimizer o f = Ok x /\ length x = n.
Proof.
  intros Ho Hf. destruct Ho as [x Hx | p k Hp _].
  - right. exists x. now split.
  - left. cbn [run_optimizer]. now rewrite (Hf p Hp).
Qed.
End Optimizer.

Section Figure.
Context {F : Type} {AF : Arith F}.

(** A loop whose body succeeds at every index and leaves the state alone
    ends with that state. *)
Lemma for_in_skip {I S : Type} (xs : list I) (body : I -> S -> result S)
    (s : S) :
  (forall x, In x xs -> body x s = Ok s) -> for_in xs body s = Ok s.
Proof.
  induction xs as [|x xs IH]; intros H; simpl; auto.
  rewrite (H x) by now left. cbn [bind]. apply IH.
  intros y Hy. apply H. now right.
Qed.

(** With a row of [DAS] for each lifetime and at least one fitted column,
    every read of [_plot_res] is in range. *)
Lemma _plot_res_returns (wLSV_fit : matrix F) (wLSVs : list Z) (taus : vec F)
    (DAS SpecFit : matrix F) (Ts : vec F) (M K N : nat) :
  shape wLSV_fit M N -> shape DAS K N -> shape SpecFit M N ->
  0 < N -> length taus = K ->
  _plot_res wLSV_fit wLSVs taus DAS SpecFit Ts = Ok tt.
Proof.
  intros [_ Hfit] [HK _] [_ HS] HN Htaus. unfold _plot_res.
  rewrite for_in_skip.
  - cbn [bind].
    rewrite (getcol_nth wLSV_fit 0 N Hfit) by lia. cbn [bind].
    rewrite (getcol_nth SpecFit 0 N HS) by lia. reflexivity.
  - intros i Hi. unfold range in Hi. apply in_seq in Hi.
    rewrite (getitem_first DAS []) by lia. cbn [bind].
    rewrite (getitem_nat DAS i []) by lia. cbn [bind].
    rewrite (getitem_nat taus i zero) by lia. reflexivity.
Qed.
End Figure.

(** C7.  With the width fitted, [Global] returns neither lifetimes nor a
    width.  Once the columns to fit are selected, the first decay matrix that
    is asked for, at the first evaluation of the objective or, when the
    optimizer makes none, in line 118, raises [NameError] (line 69 reads the
    name [sqrt], which the module does not bind), and [Global] ends with
    that exception; no decay matrix is returned at any point that the
    optimizer may evaluate. *)
Theorem Global_width_fit_raises_NameError
  {F : Type} {AF : Arith F} {SF : Special F}
  (qr : matrix F -> matrix F * matrix F)
  (minimize : vec F -> option (list (F * F)) -> optimizer F)
  (self : SVD_GA F) (sel : string) (x0 : vec F) (B : option (list (F * F)))
  (alpha : F) (idx : list Z) (Y : matrix F) :
  sized (length x0) (minimize x0 B) ->
  x0 <> [] ->
  _get_wLSVs_for_fit self sel B = Ok (idx, Y) ->
  Global qr minimize self sel x0 B alpha true = Raise NameError
  /\ _GA qr minimize self x0 Y (T self) alpha B true = Raise NameError
  /\ forall p, length p = length x0 ->
       _genD self p (T self) true = Raise NameError
       /\ _min qr self p Y (T self) alpha true = Raise NameError.
Proof.
  intros Hsized Hx0 Hsel.
  assert (HgenD : forall p, length p = length x0 ->
            _genD self p (T self) true = Raise NameError).
  { intros p Hp. rewrite _genD_fitted_width.
    destruct p; [|reflexivity].
    destruct x0; [contradiction | discriminate]. }
  assert (Hmin : forall p, length p = length x0 ->
            _min qr self p Y (T self) alpha true = Raise NameError).
  { intros p Hp. unfold _min. now rewrite (HgenD p Hp). }
  assert (HGA : _GA qr minimize self x0 Y (T self) alpha B true
                = Raise NameError).
  { unfold _GA.
    destruct (run_against_raising (length x0) NameError
                (fun p => _min qr self p Y (T self) alpha true)
                (minimize x0 B) Hsized Hmin) as [-> | (x & -> & Hx)];
      [reflexivity|].
    cbn [bind]. now rewrite (HgenD x Hx). }
  split; [|split; [exact HGA | auto]].
  unfold Global. rewrite Hsel. cbn [bind snd]. now rewrite HGA.
Qed.

(** ** Sums of real numbers *)

Section Sums.
Local Open Scope R_scope.

Lemma bigsum_ext (n : nat) (f g : nat -> R) :
  (forall i, (i < n)%nat -> f i = g i) -> bigsum n f = bigsum n g.
Proof.
  induction n as [|n IH]; intros H; simpl; auto.
  rewrite IH, H; auto.
Qed.

Lemma bigsum_0 (n : nat) (f : nat -> R) :
  (forall i, (i < n)%nat -> f i = 0) -> bigsum n f = 0.
Proof.
  induction n as [|n IH]; intros H; simpl; auto.
  rewrite IH, H; auto. lra.
Qed.

Lemma bigsum_plus (n : nat) (f g : nat -> R) :
  bigsum n (fun i => f i + g i) = bigsum n f + bigsum n g.
Proof. induction n as [|n IH]; simpl; [|rewrite IH]; lra. Qed.

Lemma bigsum_minus (n : nat) (f g : nat -> R) :
  bigsum n (fun i => f i - g i) = bigsum n f - bigsum n g.
Proof. induction n as [|n IH]; simpl; [|rewrite IH]; lra. Qed.

Lemma bigsum_scal (n : nat) (c : R) (f : nat -> R) :
  bigsum n (fun i => c * f i) = c * bigsum n f.
Proof. induction n as [|n IH]; simpl; [|rewrite IH]; lra. Qed.

Lemma bigsum_scal_r (n : nat) (c : R) (f : nat -> R) :
  bigsum n (fun i => f i * c) = bigsum n f * c.
Proof. induction n as [|n IH]; simpl; [|rewrite IH]; lra. Qed.

Lemma bigsum_swap (m n : nat) (f : nat -> nat -> R) :
  bigsum m (fun i => bigsum n (fun j => f i j))
  = bigsum n (fun j => bigsum m (fun i => f i j)).
Proof.
  induction m as [|m IH]; simpl.
  - symmetry. now apply bigsum_0.
  - rewrite IH, <- bigsum_plus. reflexivity.
Qed.

Lemma bigsum_nonneg (n : nat) (f : nat -> R) :
  (forall i, (i < n)%nat -> 0 <= f i) -> 0 <= bigsum n f.
Proof.
  induction n as [|n IH]; intros H; simpl; [lra|].
  pose proof (IH (fun i Hi => H i (Nat.lt_lt_succ_r _ _ Hi))).
  pose proof (H n (Nat.lt_succ_diag_r n)). lra.
Qed.

Lemma bigsum_app (m n : nat) (f : nat -> R) :
  bigsum (m + n) f = bigsum m f + bigsum n (fun i => f (m + i)%nat).
Proof.
  induction n as [|n IH]; simpl.
  - rewrite Nat.add_0_r. lra.
  - rewrite Nat.add_succ_r. simpl. rewrite IH. lra.
Qed.

(** A sum with at most one term that is not zero. *)
Lemma bigsum_single (n k : nat) (f : nat -> R) :
  (k < n)%nat -> (forall i, (i < n)%nat -> i <> k -> f i = 0) ->
  bigsum n f = f k.
Proof.
  induction n as [|n IH]; intros Hk H; [lia|]. simpl.
  destruct (Nat.eq_dec k n) as [->|Hne].
  - rewrite bigsum_0; [lra|]. intros i Hi. apply H; lia.
  - rewrite IH, (H n); try lia; [lra|]. intros i Hi. apply H. lia.
Qed.

(** The first [k] terms of a sum are its last [k] when the others vanish. *)
Lemma bigsum_from (n k : nat) (f : nat -> R) :
  (k <= n)%nat -> (forall i, (i < k)%nat -> f i = 0) ->
  bigsum n f = bigsum (n - k) (fun i => f (k + i)%nat).
Proof.
  intros Hk H. replace n with (k + (n - k))%nat at 1 by lia.
  rewrite bigsum_app, bigsum_0 by exact H. lra.
Qed.
End Sums.

(** ** The back substitution in exact arithmetic *)

Section Textbook.
Local Open Scope R_scope.

Lemma vadd_zeros (v : vec R) : vadd (repeat 0 (length v)) v = v.
Proof.
  unfold vadd. induction v as [|x v IH]; [reflexivity|].
  cbn [length repeat combine map fst snd]. f_equal; [cbn; lra | exact IH].
Qed.

Lemma vsub_zeros (v : vec R) : vsub v (repeat 0 (length v)) = v.
Proof.
  unfold vsub. induction v as [|x v IH]; [reflexivity|].
  cbn [length repeat combine map fst snd]. f_equal; [cbn; lra | exact IH].
Qed.

Lemma add_zero_row (v : vec R) : map (add zero) v = v.
Proof.
  induction v as [|x v IH]; [reflexivity|].
  cbn [map]. f_equal; [cbn; lra | exact IH].
Qed.

Lemma accumulate_from (l : list (R * vec R)) (u : vec R) :
  fold_left (fun s rk => Some (accumulate s (vscale (fst rk) (snd rk)))) l (Some u)
  = Some (fold_left (fun acc rk => vadd acc (vscale (fst rk) (snd rk))) l u).
Proof.
  revert u. induction l as [|rk l IH]; intros u; [reflexivity|].
  cbn [fold_left accumulate]. apply IH.
Qed.

Lemma partial_sum_weighted (ri : vec R) (rows : list (vec R)) (N : nat) :
  Forall (fun row => length row = N) rows ->
  match partial_sum ri rows with
  | None => combine ri rows = []
  | Some s => s = weighted_rows ri rows N
  end.
Proof.
  intros Hrows. unfold partial_sum, weighted_rows.
  assert (Hl : Forall (fun rk : R * vec R => length (snd rk) = N) (combine ri rows)).
  { apply Forall_forall. intros [r row] Hin. apply in_combine_r in Hin.
    now apply (proj1 (Forall_forall _ rows) Hrows). }
  destruct (combine ri rows) as [|[r row] l]; [reflexivity|].
  cbn [fold_left accumulate fst snd].
  pose proof (Forall_inv Hl) as Hrow. cbn [snd] in Hrow.
  rewrite add_zero_row.
  replace (vadd (repeat 0 N) (vscale r row)) with (vscale r row).
  2:{ rewrite <- (vadd_zeros (vscale r row)) at 1. unfold vscale.
      now rewrite length_map, Hrow. }
  now rewrite accumulate_from.
Qed.

Lemma solve_from_textbook (Rm Z : matrix R) (N n i : nat) :
  Forall (fun row => length row = N) Z -> (i + n <= length Z)%nat ->
  solve_from Rm Z n i = textbook_from Rm Z N n i.
Proof.
  intros HZ. revert i. induction n as [|n IH]; intros i Hi;
    cbn [solve_from textbook_from]; auto.
  rewrite <- IH by lia. f_equal.
  set (later := solve_from Rm Z n (S i)).
  assert (Hlater : Forall (fun row => length row = N) later)
    by (apply solve_from_rows; auto; lia).
  assert (Hzi : length (nth i Z []) = N).
  { apply (proj1 (Forall_forall _ Z) HZ). apply nth_In. lia. }
  unfold solve_row.
  pose proof (partial_sum_weighted (skipn (S i) (nth i Rm [])) later N Hlater) as H.
  destruct (partial_sum (skipn (S i) (nth i Rm [])) later) as [s|].
  - now rewrite H.
  - unfold weighted_rows. rewrite H. cbn [fold_left].
    rewrite <- Hzi, vsub_zeros. reflexivity.
Qed.
End Textbook.

(** C3.  On a [K] by [K] array [R] and [K] by [N] arrays [Z] and [DAS],
    [K >= 1], the loop of the source, which assigns row [i] at every step of
    its inner loop, returns the array of textbook back substitution.  (No use
    is made of the shape of [R] beyond its size: the statement holds in
    particular for an upper triangular [R] with a diagonal without zero.) *)
Theorem back_substitute_is_textbook (Rm Z DAS : matrix R) (K N : nat) :
  shape Rm K K -> shape Z K N -> shape DAS K N -> 0 < K ->
  back_substitute Rm Z DAS = Ok (textbook_back_substitution Rm Z).
Proof.
  intros HR HZ HD HK.
  rewrite (back_substitute_solve Rm Z K N HR HZ DAS HD HK).
  f_equal. unfold solve, textbook_back_substitution.
  apply solve_from_textbook; [|lia].
  rewrite (shape_row Z K N) by (auto; lia). apply HZ.
Qed.

(** ** Arrays of reals, entry by entry *)

Section Entries.
Local Open Scope R_scope.

Lemma nth_map_lt {X Y : Type} (f : X -> Y) (l : list X) (i : nat) (dx : X) (dy : Y) :
  (i < length l)%nat -> nth i (map f l) dy = f (nth i l dx).
Proof.
  intros Hi. rewrite (nth_indep _ dy (f dx)) by now rewrite length_map.
  apply map_nth.
Qed.

Lemma fold_left_Rplus (v : vec R) (a : R) :
  fold_left Rplus v a = a + bigsum (length v) (fun i => nth i v 0).
Proof.
  induction v as [|x v IH] using rev_ind; simpl; [lra|].
  rewrite fold_left_app, length_app, Nat.add_1_r. simpl.
  rewrite IH, nth_middle.
  rewrite (bigsum_ext _ (fun i => nth i (v ++ [x]) 0) (fun i => nth i v 0)).
  - lra.
  - intros i Hi. now rewrite app_nth1.
Qed.

Lemma total_bigsum (v : vec R) :
  total v = bigsum (length v) (fun i => nth i v 0).
Proof.
  unfold total. cbn [add zero R_Arith]. rewrite fold_left_Rplus. lra.
Qed.

Lemma inner_bigsum (u v : vec R) (n : nat) :
  length u = n -> length v = n ->
  inner u v = bigsum n (fun k => nth k u 0 * nth k v 0).
Proof.
  intros Hu Hv. unfold inner. rewrite total_bigsum.
  rewrite length_map, length_combine, Hu, Hv, Nat.min_id.
  apply bigsum_ext. intros i Hi.
  rewrite (nth_map_lt _ _ _ (0, 0))
    by (rewrite length_combine, Hu, Hv, Nat.min_id; exact Hi).
  rewrite combine_nth by congruence. reflexivity.
Qed.

Lemma ent_transpose (B : matrix R) (m n i j : nat) :
  shape B m n -> (i < m)%nat -> (j < n)%nat ->
  ent (transpose B) j i = ent B i j.
Proof.
  intros [Hm Hn] Hi Hj. unfold ent.
  destruct B as [|row0 B']; [simpl in Hm; lia|].
  unfold transpose.
  assert (H0 : length row0 = n) by (inversion Hn; auto).
  rewrite (nth_map_lt _ _ _ O) by (rewrite length_seq; lia).
  rewrite seq_nth by lia. cbn [Nat.add].
  rewrite (nth_map_lt _ _ _ []) by lia. reflexivity.
Qed.

Lemma ent_matmul (A B : matrix R) (m k n i j : nat) :
  shape A m k -> shape B k n -> (0 < k)%nat -> (i < m)%nat -> (j < n)%nat ->
  ent (matmul A B) i j = bigsum k (fun l => ent A i l * ent B l j).
Proof.
  intros HA HB Hk Hi Hj. unfold ent at 1. unfold matmul.
  pose proof (shape_transpose B k n HB Hk) as [HTl HTr].
  rewrite (nth_map_lt _ _ _ []) by (destruct HA; lia).
  rewrite (nth_map_lt _ _ _ []) by lia.
  rewrite (inner_bigsum _ _ k).
  - apply bigsum_ext. intros l Hl. f_equal.
    change (nth l (nth j (transpose B) []) 0) with (ent (transpose B) j l).
    now apply (ent_transpose B k n).
  - now apply (shape_row A m k).
  - apply (shape_row (transpose B) n k); [split; auto | exact Hj].
Qed.

Lemma ent_msub (Y P : matrix R) (m n i j : nat) :
  shape Y m n -> shape P m n -> (i < m)%nat -> (j < n)%nat ->
  ent (msub Y P) i j = ent Y i j - ent P i j.
Proof.
  intros HY HP Hi Hj. unfold ent, msub.
  rewrite (nth_map_lt _ _ _ ([], []))
    by (rewrite length_combine; destruct HY, HP; lia).
  rewrite combine_nth by (destruct HY, HP; lia). cbn [fst snd]. unfold vsub.
  pose proof (shape_row Y m n i HY Hi) as HYi.
  pose proof (shape_row P m n i HP Hi) as HPi.
  rewrite (nth_map_lt _ _ _ (0, 0)) by (rewrite length_combine; lia).
  rewrite combine_nth by lia. reflexivity.
Qed.

Lemma shape_msub (Y P : matrix R) (m n : nat) :
  shape Y m n -> shape P m n -> shape (msub Y P) m n.
Proof.
  intros [HYm HYn] [HPm HPn]. unfold msub. split.
  - rewrite length_map, length_combine. lia.
  - apply Forall_forall. intros row Hrow. apply in_map_iff in Hrow.
    destruct Hrow as ([y p] & <- & Hin). cbn [fst snd].
    rewrite length_vsub.
    rewrite (proj1 (Forall_forall _ Y) HYn y (in_combine_l _ _ _ _ Hin)).
    rewrite (proj1 (Forall_forall _ P) HPn p (in_combine_r _ _ _ _ Hin)).
    apply Nat.min_id.
Qed.

Lemma sum_squares_bigsum (E : matrix R) (m n : nat) :
  shape E m n ->
  sum_squares E = bigsum m (fun i => bigsum n (fun j => ent E i j * ent E i j)).
Proof.
  intros [Hm Hn]. subst m. unfold sum_squares.
  induction E as [|row E IH] using rev_ind; [reflexivity|].
  apply Forall_app in Hn. destruct Hn as [HE Hrow].
  pose proof (Forall_inv Hrow) as Hlen. cbv beta in Hlen.
  rewrite concat_app, map_app. cbn [concat]. rewrite app_nil_r.
  rewrite length_app, Nat.add_1_r. cbn [bigsum].
  unfold total in *. rewrite fold_left_app.
  cbn [add zero R_Arith] in *. rewrite fold_left_Rplus, IH by exact HE.
  rewrite length_map, Hlen. f_equal.
  - apply bigsum_ext. intros i Hi. apply bigsum_ext. intros j Hj.
    unfold ent. now rewrite app_nth1.
  - apply bigsum_ext. intros j Hj. unfold ent. rewrite nth_middle.
    now rewrite (nth_map_lt _ _ _ 0) by lia.
Qed.
End Entries.

(** ** Least squares through a QR factorization *)

Section LeastSquares.
Local Open Scope R_scope.

(** The argument on indexed families: [a] is [m] by [K] and equals [q r] with
    the columns of [q] orthonormal; [x] solves [r x = qT b]. *)
Variables (m K N : nat).
Variables (a q : nat -> nat -> R) (r : nat -> nat -> R).
Variables (b : nat -> nat -> R) (x : nat -> nat -> R).

Hypothesis a_qr : forall i j, (i < m)%nat -> (j < K)%nat ->
  a i j = bigsum K (fun k => q i k * r k j).
Hypothesis q_orth : forall k l, (k < K)%nat -> (l < K)%nat ->
  bigsum m (fun i => q i k * q i l) = if (k =? l)%nat then 1 else 0.
Hypothesis x_solves : forall k c, (k < K)%nat -> (c < N)%nat ->
  bigsum K (fun l => r k l * x l c) = bigsum m (fun i => q i k * b i c).

Local Abbreviation res_at := (res_at K a b).
Local Abbreviation sum_sq := (sum_sq m K N a b).

Lemma a_times_x (i c : nat) :
  (i < m)%nat -> (c < N)%nat ->
  bigsum K (fun j => a i j * x j c)
  = bigsum K (fun l => q i l * bigsum m (fun i' => q i' l * b i' c)).
Proof.
  intros Hi Hc.
  rewrite (bigsum_ext K _ (fun j => bigsum K (fun l => q i l * (r l j * x j c)))).
  - rewrite bigsum_swap. apply bigsum_ext. intros l Hl.
    rewrite bigsum_scal. f_equal. now apply x_solves.
  - intros j Hj. rewrite (a_qr i j Hi Hj), <- bigsum_scal_r.
    apply bigsum_ext. intros l _. ring.
Qed.

(** [qT (b - a x) = 0] *)
Lemma q_residual (k c : nat) :
  (k < K)%nat -> (c < N)%nat ->
  bigsum m (fun i => q i k * res_at x i c) = 0.
Proof.
  intros Hk Hc. unfold res_at.
  rewrite (bigsum_ext m _
             (fun i => q i k * b i c
                       - bigsum K (fun l => (q i k * q i l)
                                            * bigsum m (fun i' => q i' l * b i' c)))).
  - rewrite bigsum_minus, bigsum_swap.
    rewrite (bigsum_ext K _
               (fun l => (if (k =? l)%nat then 1 else 0)
                         * bigsum m (fun i' => q i' l * b i' c))).
    + rewrite (bigsum_single K k).
      * rewrite Nat.eqb_refl. lra.
      * exact Hk.
      * intros l _ Hl. destruct (Nat.eqb_spec k l); [congruence | lra].
    + intros l Hl. rewrite bigsum_scal_r. f_equal. now apply q_orth.
  - intros i Hi. rewrite (a_times_x i c Hi Hc).
    rewrite Rmult_minus_distr_l. f_equal.
    rewrite <- bigsum_scal. apply bigsum_ext. intros l _. ring.
Qed.

(** the normal equations, [aT (b - a x) = 0] *)
Lemma normal_equations (j c : nat) :
  (j < K)%nat -> (c < N)%nat ->
  bigsum m (fun i => a i j * res_at x i c) = 0.
Proof.
  intros Hj Hc.
  rewrite (bigsum_ext m _
             (fun i => bigsum K (fun k => r k j * (q i k * res_at x i c)))).
  - rewrite bigsum_swap. apply bigsum_0. intros k Hk.
    rewrite bigsum_scal, (q_residual k c Hk Hc). lra.
  - intros i Hi. rewrite (a_qr i j Hi Hj), <- bigsum_scal_r.
    apply bigsum_ext. intros k _. ring.
Qed.

(** No candidate has a smaller sum of squares than [x]. *)
Lemma sum_sq_minimal (y : nat -> nat -> R) : sum_sq x <= sum_sq y.
Proof.
  set (g := fun i c => bigsum K (fun j => a i j * (y j c - x j c))).
  assert (Hres : forall i c, res_at y i c = res_at x i c - g i c).
  { intros i c. unfold res_at, g.
    rewrite (bigsum_ext K (fun j => a i j * (y j c - x j c))
               (fun j => a i j * y j c - a i j * x j c))
      by (intros; ring).
    rewrite bigsum_minus. lra. }
  assert (Hcross : bigsum m (fun i => bigsum N (fun c => res_at x i c * g i c)) = 0).
  { rewrite bigsum_swap. apply bigsum_0. intros c Hc. unfold g.
    rewrite (bigsum_ext m _
               (fun i => bigsum K (fun j => (y j c - x j c)
                                            * (a i j * res_at x i c)))).
    - rewrite bigsum_swap. apply bigsum_0. intros j Hj.
      rewrite bigsum_scal, (normal_equations j c Hj Hc). lra.
    - intros i Hi. rewrite <- bigsum_scal.
      apply bigsum_ext. intros j _. ring. }
  assert (Hsplit : sum_sq y
                   = sum_sq x
                     - 2 * bigsum m (fun i => bigsum N (fun c => res_at x i c * g i c))
                     + bigsum m (fun i => bigsum N (fun c => g i c * g i c))).
  { unfold sum_sq. rewrite <- bigsum_scal, <- bigsum_minus, <- bigsum_plus.
    apply bigsum_ext. intros i Hi.
    rewrite <- bigsum_scal, <- bigsum_minus, <- bigsum_plus.
    apply bigsum_ext. intros c Hc. rewrite Hres. ring. }
  rewrite Hsplit, Hcross.
  assert (0 <= bigsum m (fun i => bigsum N (fun c => g i c * g i c))).
  { apply bigsum_nonneg. intros i _. apply bigsum_nonneg. intros c _.
    nra. }
  lra.
Qed.
End LeastSquares.

(** ** The triangular system *)

Section Triangular.
Local Open Scope R_scope.

Lemma bigsum_first (n : nat) (f : nat -> R) :
  bigsum (S n) f = f O + bigsum n (fun i => f (S i)).
Proof.
  induction n as [|n IH]; [simpl; lra|].
  change (bigsum (S (S n)) f) with (bigsum (S n) f + f (S n)).
  rewrite IH. simpl. lra.
Qed.

Lemma nth_vadd (u v : vec R) (c : nat) :
  length u = length v -> (c < length u)%nat ->
  nth c (vadd u v) 0 = nth c u 0 + nth c v 0.
Proof.
  intros Hl Hc. unfold vadd.
  rewrite (nth_map_lt _ _ _ (0, 0)) by (rewrite length_combine; lia).
  now rewrite combine_nth.
Qed.

Lemma nth_vsub (u v : vec R) (c : nat) :
  length u = length v -> (c < length u)%nat ->
  nth c (vsub u v) 0 = nth c u 0 - nth c v 0.
Proof.
  intros Hl Hc. unfold vsub.
  rewrite (nth_map_lt _ _ _ (0, 0)) by (rewrite length_combine; lia).
  now rewrite combine_nth.
Qed.

Lemma nth_vscale (a : R) (v : vec R) (c : nat) :
  (c < length v)%nat -> nth c (vscale a v) 0 = a * nth c v 0.
Proof. intros Hc. unfold vscale. now rewrite (nth_map_lt _ _ _ 0). Qed.

Lemma nth_vdiv (v : vec R) (a : R) (c : nat) :
  (c < length v)%nat -> nth c (vdiv v a) 0 = nth c v 0 / a.
Proof. intros Hc. unfold vdiv. now rewrite (nth_map_lt _ _ _ 0). Qed.

Lemma length_weighted_from (l : list (R * vec R)) (u : vec R) (N : nat) :
  length u = N -> Forall (fun rk => length (snd rk) = N) l ->
  length (fold_left (fun acc rk => vadd acc (vscale (fst rk) (snd rk))) l u) = N.
Proof.
  revert u. induction l as [|rk l IH]; intros u Hu Hl; [exact Hu|].
  pose proof (Forall_inv Hl) as Hrk. cbv beta in Hrk.
  cbn [fold_left]. apply IH; [|now inversion Hl].
  rewrite length_vadd. unfold vscale. rewrite length_map, Hu.
  exact (eq_trans (f_equal (Nat.min N) Hrk) (Nat.min_id N)).
Qed.

Lemma nth_weighted_from (l : list (R * vec R)) (u : vec R) (N c : nat) :
  length u = N -> Forall (fun rk => length (snd rk) = N) l -> (c < N)%nat ->
  nth c (fold_left (fun acc rk => vadd acc (vscale (fst rk) (snd rk))) l u) 0
  = nth c u 0
    + bigsum (length l)
        (fun k => fst (nth k l (0, [])) * nth c (snd (nth k l (0, []))) 0).
Proof.
  revert u. induction l as [|rk l IH]; intros u Hu Hl Hc.
  - simpl. lra.
  - pose proof (Forall_inv Hl) as Hrk. cbv beta in Hrk.
    cbn [fold_left length]. rewrite bigsum_first. cbn [nth].
    assert (Hv : length (vscale (fst rk) (snd rk)) = N)
      by (unfold vscale; rewrite length_map; exact Hrk).
    rewrite IH; [| |now inversion Hl|exact Hc].
    + rewrite nth_vadd by (rewrite ?Hv; lia).
      rewrite nth_vscale
        by exact (eq_ind_r (fun n => (c < n)%nat) Hc Hrk).
      lra.
    + rewrite length_vadd, Hu, Hv. apply Nat.min_id.
Qed.

Lemma nth_weighted_rows (ri : vec R) (rows : list (vec R)) (N c : nat) :
  length ri = length rows -> Forall (fun row => length row = N) rows ->
  (c < N)%nat ->
  nth c (weighted_rows ri rows N) 0
  = bigsum (length rows) (fun l => nth l ri 0 * nth c (nth l rows []) 0).
Proof.
  intros Hl Hrows Hc. unfold weighted_rows.
  rewrite (nth_weighted_from _ _ N c); auto.
  - rewrite length_combine, Hl, Nat.min_id.
    rewrite nth_repeat, Rplus_0_l. apply bigsum_ext. intros k Hk.
    rewrite combine_nth by exact Hl. reflexivity.
  - apply repeat_length.
  - apply Forall_forall. intros [a row] Hin. apply in_combine_r in Hin.
    now apply (proj1 (Forall_forall _ rows) Hrows).
Qed.

Lemma skipn_textbook_from (Rm Z : matrix R) (N l : nat) :
  forall n i, (l <= n)%nat ->
    skipn l (textbook_from Rm Z N n i) = textbook_from Rm Z N (n - l) (i + l).
Proof.
  induction l as [|l IH]; intros n i Hl.
  - now rewrite Nat.sub_0_r, Nat.add_0_r.
  - destruct n as [|n]; [lia|]. cbn [textbook_from skipn].
    rewrite IH by lia. f_equal; lia.
Qed.

Lemma textbook_from_rows (Rm Z : matrix R) (N n i : nat) :
  Forall (fun row => length row = N) Z -> (i + n <= length Z)%nat ->
  Forall (fun row => length row = N) (textbook_from Rm Z N n i).
Proof.
  intros HZ Hi. rewrite <- solve_from_textbook by assumption.
  now apply solve_from_rows.
Qed.

Lemma length_textbook_from (Rm Z : matrix R) (N n i : nat) :
  length (textbook_from Rm Z N n i) = n.
Proof. revert i. induction n; intros i; simpl; auto. Qed.

Variables (Rm Z : matrix R) (K N : nat).
Hypothesis HR : shape Rm K K.
Hypothesis HZ : shape Z K N.

Let X := textbook_from Rm Z N K 0.

(** Row [i] of the solution in terms of the rows after it. *)
Lemma textbook_entry (i c : nat) :
  (i < K)%nat -> (c < N)%nat ->
  ent X i c
  = (ent Z i c
     - bigsum (K - S i) (fun l => ent Rm i (S i + l) * ent X (S i + l) c))
    / ent Rm i i.
Proof.
  intros Hi Hc. destruct HZ as [HZl HZr]. destruct HR as [HRl HRr].
  assert (Hrow : nth i X []
                 = vdiv (vsub (nth i Z [])
                           (weighted_rows (skipn (S i) (nth i Rm []))
                              (skipn (S i) X) N))
                        (ent Rm i i)).
  { rewrite <- (Nat.add_0_r i) at 1. rewrite <- nth_skipn.
    unfold X at 1. rewrite skipn_textbook_from by lia.
    replace (K - i)%nat with (S (K - S i)) by lia.
    cbn [textbook_from nth Nat.add]. unfold X.
    rewrite (skipn_textbook_from Rm Z N (S i) K 0) by lia.
    reflexivity. }
  assert (Hlater : Forall (fun row => length row = N) (skipn (S i) X)).
  { unfold X. rewrite skipn_textbook_from by lia.
    apply textbook_from_rows; [exact HZr | lia]. }
  assert (Hll : length (skipn (S i) X) = (K - S i)%nat).
  { unfold X. rewrite length_skipn, length_textbook_from. reflexivity. }
  assert (Hzi : length (nth i Z []) = N) by (apply (shape_row Z K N); auto; split; auto).
  assert (Hri : length (nth i Rm []) = K) by (apply (shape_row Rm K K); auto; split; auto).
  assert (Hw : length (weighted_rows (skipn (S i) (nth i Rm [])) (skipn (S i) X) N) = N).
  { unfold weighted_rows. apply length_weighted_from; [apply repeat_length|].
    apply Forall_forall. intros [a row] Hin. apply in_combine_r in Hin.
    now apply (proj1 (Forall_forall _ _) Hlater). }
  change (ent X i c) with (nth c (nth i X []) 0). rewrite Hrow.
  rewrite nth_vdiv by (rewrite length_vsub, Hzi, Hw, Nat.min_id; exact Hc).
  rewrite nth_vsub by (rewrite ?Hzi, ?Hw; auto).
  rewrite nth_weighted_rows; auto.
  - rewrite Hll. f_equal. f_equal. apply bigsum_ext. intros l Hl.
    unfold ent. now rewrite !nth_skipn.
  - rewrite length_skipn, Hri, Hll. reflexivity.
Qed.

Hypothesis upper : forall i k, (k < i)%nat -> (i < K)%nat -> ent Rm i k = 0.
Hypothesis diagonal : forall i, (i < K)%nat -> ent Rm i i <> 0.

(** The solution solves the triangular system [R X = Z]. *)
Lemma textbook_solves (i c : nat) :
  (i < K)%nat -> (c < N)%nat ->
  bigsum K (fun k => ent Rm i k * ent X k c) = ent Z i c.
Proof.
  intros Hi Hc.
  rewrite (bigsum_from K i) by (try lia; intros k Hk; rewrite upper by lia; lra).
  replace (K - i)%nat with (S (K - S i)) by lia.
  rewrite bigsum_first, Nat.add_0_r.
  rewrite (bigsum_ext _ _ (fun l => ent Rm i (S i + l) * ent X (S i + l) c))
    by (intros l _; now rewrite Nat.add_succ_r).
  rewrite (textbook_entry i c Hi Hc) at 1.
  pose proof (diagonal i Hi). field. assumption.
Qed.
End Triangular.

(** ** The solver returns the minimizer *)

Section Minimizer.
Local Open Scope R_scope.

Lemma ent_identity (K k l : nat) :
  (k < K)%nat -> (l < K)%nat ->
  ent (np_identity K) k l = if (k =? l)%nat then 1 else 0.
Proof.
  intros Hk Hl. unfold ent, np_identity.
  rewrite (nth_map_lt _ _ _ O) by (rewrite length_seq; lia).
  rewrite (nth_map_lt _ _ _ O) by (rewrite length_seq; lia).
  now rewrite !seq_nth by lia.
Qed.

Lemma ent_scale (c : R) (A : matrix R) (m n i j : nat) :
  shape A m n -> (i < m)%nat -> (j < n)%nat ->
  ent (scale c A) i j = c * ent A i j.
Proof.
  intros HA Hi Hj. unfold ent, scale.
  rewrite (nth_map_lt _ _ _ []) by (destruct HA; lia).
  rewrite (nth_map_lt _ _ _ 0) by (rewrite (shape_row A m n); auto).
  reflexivity.
Qed.

Lemma ent_zeros (m n i j : nat) : ent (repeat (repeat 0 n) m) i j = 0.
Proof.
  unfold ent. destruct (Nat.lt_ge_cases i m) as [Hi|Hi].
  - rewrite nth_repeat_lt by exact Hi. apply nth_repeat.
  - rewrite (nth_overflow (repeat (repeat 0 n) m) [])
      by now rewrite repeat_length.
    now destruct j.
Qed.

Lemma residual_as_sum (A B X : matrix R) (m K N : nat) :
  shape A m K -> shape B m N -> shape X K N -> (0 < K)%nat ->
  sum_squares (msub B (matmul A X)) = sum_sq m K N (ent A) (ent B) (ent X).
Proof.
  intros HA HB HX HK.
  assert (HP : shape (matmul A X) m N) by now apply (shape_matmul A X m K N).
  rewrite (sum_squares_bigsum _ m N) by now apply shape_msub.
  unfold sum_sq, res_at. apply bigsum_ext. intros i Hi.
  apply bigsum_ext. intros c Hc.
  rewrite (ent_msub B _ m N i c HB HP Hi Hc).
  now rewrite (ent_matmul A X m K N i c HA HX HK Hi Hc).
Qed.

(** The back substitution of [R] against [QT B] minimizes [||B - A X||^2]. *)
Lemma solve_minimizes (A B Q Rm : matrix R) (m K N : nat) :
  shape A m K -> shape B m N -> (0 < m)%nat -> (0 < K)%nat ->
  is_qr A Q Rm m K -> regular_diagonal Rm K ->
  forall X' : matrix R, shape X' K N ->
    sum_squares (msub B (matmul A (solve Rm (matmul (transpose Q) B))))
    <= sum_squares (msub B (matmul A X')).
Proof.
  intros HA HB Hm HK (HQ & HRm & HQR & Horth & Hupper) Hdiag X' HX'.
  set (Z := matmul (transpose Q) B).
  assert (HQt : shape (transpose Q) K m) by (apply shape_transpose; auto).
  assert (HZ : shape Z K N) by (apply (shape_matmul _ _ K m N); auto).
  assert (HX : shape (solve Rm Z) K N) by now apply shape_solve.
  rewrite (residual_as_sum A B (solve Rm Z) m K N) by assumption.
  rewrite (residual_as_sum A B X' m K N) by assumption.
  apply (sum_sq_minimal m K N (ent A) (ent Q) (ent Rm)).
  - intros i j Hi Hj. rewrite <- HQR.
    now apply (ent_matmul Q Rm m K K).
  - intros k l Hk Hl. rewrite <- (ent_identity K k l Hk Hl), <- Horth.
    rewrite (ent_matmul (transpose Q) Q K m K k l HQt HQ Hm Hk Hl).
    apply bigsum_ext. intros i Hi. f_equal.
    symmetry. now apply (ent_transpose Q m K).
  - intros k c Hk Hc.
    assert (Hsolve : solve Rm Z = textbook_from Rm Z N K 0).
    { unfold solve. destruct HZ as [HZl HZr]. rewrite HZl.
      apply solve_from_textbook; [exact HZr | lia]. }
    rewrite Hsolve.
    rewrite (textbook_solves Rm Z K N HRm HZ Hupper Hdiag k c Hk Hc).
    unfold Z. rewrite (ent_matmul (transpose Q) B K m N k c HQt HB Hm Hk Hc).
    apply bigsum_ext. intros i Hi. f_equal.
    now apply (ent_transpose Q m K).
Qed.

Lemma matmul_app (A1 A2 X : matrix R) :
  matmul (A1 ++ A2) X = matmul A1 X ++ matmul A2 X.
Proof. unfold matmul. apply map_app. Qed.

Lemma msub_app (Y1 Y2 P1 P2 : matrix R) :
  length Y1 = length P1 ->
  msub (Y1 ++ Y2) (P1 ++ P2) = msub Y1 P1 ++ msub Y2 P2.
Proof.
  intros Hl. unfold msub. rewrite <- map_app. f_equal.
  revert P1 Hl. induction Y1 as [|y Y1 IH]; intros [|p P1] Hl;
    simpl in *; try discriminate; auto.
  rewrite IH by lia. reflexivity.
Qed.

Lemma sum_squares_app (E1 E2 : matrix R) :
  sum_squares (E1 ++ E2) = sum_squares E1 + sum_squares E2.
Proof.
  unfold sum_squares, total. rewrite concat_app, map_app, fold_left_app.
  cbn [add zero R_Arith]. rewrite !fold_left_Rplus. lra.
Qed.

(** The residual of the stacked system is the ridge objective. *)
Lemma stacked_objective (D Y X : matrix R) (alpha : R) (M K N : nat) :
  shape D M K -> shape Y M N -> shape X K N -> (0 < K)%nat -> 0 <= alpha ->
  sum_squares (msub (Y ++ repeat (repeat 0 N) K)
                    (matmul (D ++ scale (sqrt alpha) (np_identity K)) X))
  = ridge_objective D Y alpha X.
Proof.
  intros HD HY HX HK Halpha. unfold ridge_objective.
  assert (HI : shape (scale (sqrt alpha) (np_identity K)) K K)
    by apply shape_scale, shape_identity.
  assert (HP : shape (matmul (scale (sqrt alpha) (np_identity K)) X) K N)
    by now apply (shape_matmul _ _ K K N).
  rewrite matmul_app, msub_app, sum_squares_app.
  2:{ unfold matmul. rewrite length_map. destruct HD, HY. lia. }
  f_equal.
  rewrite (sum_squares_bigsum _ K N)
    by (apply shape_msub; [apply shape_repeat | exact HP]).
  rewrite (sum_squares_bigsum X K N HX), <- bigsum_scal.
  apply bigsum_ext. intros i Hi. rewrite <- bigsum_scal.
  apply bigsum_ext. intros c Hc.
  rewrite (ent_msub _ _ K N i c (shape_repeat 0 K N) HP Hi Hc), ent_zeros.
  rewrite (ent_matmul _ X K K N i c HI HX HK Hi Hc).
  rewrite (bigsum_single K i).
  - rewrite (ent_scale _ _ K K i i (shape_identity K) Hi Hi).
    rewrite (ent_identity K i i Hi Hi), Nat.eqb_refl.
    pose proof (sqrt_sqrt alpha Halpha) as Hs. nra.
  - exact Hi.
  - intros l Hl Hne.
    rewrite (ent_scale _ _ K K i l (shape_identity K) Hi Hl).
    rewrite (ent_identity K i l Hi Hl).
    destruct (Nat.eqb_spec i l); [congruence | lra].
Qed.
End Minimizer.

(** ** The stacked array has a regular factor *)

Section StackedRegular.
Local Open Scope R_scope.
Variables (A Q Rm : matrix R) (M K : nat) (alpha : R).
Hypothesis HQ : shape Q (M + K) K.
Hypothesis HRm : shape Rm K K.
Hypothesis HQR : matmul Q Rm = A.
Hypothesis upper : forall i k, (k < i)%nat -> (i < K)%nat -> ent Rm i k = 0.
Hypothesis stacked : forall i j, (i < K)%nat -> (j < K)%nat ->
  ent A (M + i) j = sqrt alpha * (if (i =? j)%nat then 1 else 0).
Hypothesis alpha_pos : 0 < alpha.

Local Abbreviation patched := (patched Rm K).
Local Abbreviation unit_column := (unit_column K).

Lemma shape_patched (i : nat) : shape (patched i) K K.
Proof.
  unfold patched. split; [now rewrite length_map, length_seq|].
  apply Forall_forall. intros row Hrow. apply in_map_iff in Hrow.
  destruct Hrow as (k & <- & Hk). apply in_seq in Hk.
  destruct (k <? i)%nat.
  - apply (shape_row Rm K K); [exact HRm | lia].
  - apply (shape_row (np_identity K) K K); [apply shape_identity | lia].
Qed.

Lemma shape_unit_column (i : nat) : shape (unit_column i) K 1.
Proof.
  unfold unit_column. split; [now rewrite length_map, length_seq|].
  apply Forall_forall. intros row Hrow. apply in_map_iff in Hrow.
  now destruct Hrow as (k & <- & _).
Qed.

Lemma ent_patched (i k l : nat) :
  (k < K)%nat -> (l < K)%nat ->
  ent (patched i) k l
  = if (k <? i)%nat then ent Rm k l else if (k =? l)%nat then 1 else 0.
Proof.
  intros Hk Hl. unfold ent at 1. unfold patched.
  rewrite (nth_map_lt _ _ _ O) by (rewrite length_seq; lia).
  rewrite seq_nth by lia. cbn [Nat.add].
  destruct (k <? i)%nat; [reflexivity|].
  now apply ent_identity.
Qed.

Lemma ent_unit_column (i k : nat) :
  (k < K)%nat -> ent (unit_column i) k 0 = if (k =? i)%nat then 1 else 0.
Proof.
  intros Hk. unfold ent, unit_column.
  rewrite (nth_map_lt _ _ _ O) by (rewrite length_seq; lia).
  now rewrite seq_nth by lia.
Qed.

(** If the diagonal of [R] is regular before [i] and zero at [i], some [v]
    with [v i = 1] is sent to zero by [R]. *)
Lemma kernel_vector (i : nat) :
  (i < K)%nat ->
  (forall k, (k < i)%nat -> ent Rm k k <> 0) ->
  ent Rm i i = 0 ->
  exists v : nat -> R,
    v i = 1
    /\ forall k, (k < K)%nat -> bigsum K (fun l => ent Rm k l * v l) = 0.
Proof.
  intros Hi Hbefore Hzero.
  set (X := textbook_from (patched i) (unit_column i) 1 K 0).
  assert (Hsolve : forall k, (k < K)%nat ->
            bigsum K (fun l => ent (patched i) k l * ent X l 0)
            = if (k =? i)%nat then 1 else 0).
  { intros k Hk. rewrite <- (ent_unit_column i k Hk).
    apply (textbook_solves (patched i) (unit_column i) K 1
             (shape_patched i) (shape_unit_column i)); try lia.
    - intros a b Hb Ha. rewrite ent_patched by lia.
      destruct (a <? i)%nat; [now apply upper|].
      destruct (Nat.eqb_spec a b); [lia | reflexivity].
    - intros a Ha. rewrite ent_patched by lia.
      destruct (Nat.ltb_spec a i); [now apply Hbefore|].
      rewrite Nat.eqb_refl. lra. }
  assert (Hlate : forall k, (i <= k)%nat -> (k < K)%nat ->
            ent X k 0 = if (k =? i)%nat then 1 else 0).
  { intros k Hik Hk. rewrite <- (Hsolve k Hk).
    rewrite (bigsum_single K k).
    - rewrite ent_patched by lia.
      destruct (Nat.ltb_spec k i); [lia|]. rewrite Nat.eqb_refl. lra.
    - exact Hk.
    - intros l Hl Hne. rewrite ent_patched by lia.
      destruct (Nat.ltb_spec k i); [lia|].
      destruct (Nat.eqb_spec k l); [congruence | lra]. }
  exists (fun l => ent X l 0). split.
  - rewrite (Hlate i) by lia. now rewrite Nat.eqb_refl.
  - intros k Hk. destruct (Nat.lt_trichotomy k i) as [Hlt | [-> | Hgt]].
    + rewrite (bigsum_ext K _ (fun l => ent (patched i) k l * ent X l 0)).
      * rewrite (Hsolve k Hk). destruct (Nat.eqb_spec k i); [lia | reflexivity].
      * intros l Hl. rewrite ent_patched by lia.
        destruct (Nat.ltb_spec k i); [reflexivity | lia].
    + apply bigsum_0. intros l Hl.
      destruct (Nat.lt_trichotomy l i) as [Hl' | [-> | Hl']].
      * rewrite upper by lia. lra.
      * rewrite Hzero. lra.
      * rewrite (Hlate l) by lia.
        destruct (Nat.eqb_spec l i); [lia | lra].
    + apply bigsum_0. intros l Hl.
      destruct (Nat.lt_ge_cases l k) as [Hl' | Hl'].
      * rewrite upper by lia. lra.
      * rewrite (Hlate l) by lia.
        destruct (Nat.eqb_spec l i); [lia | lra].
Qed.

(** The factor [R] of an array that ends in [sqrt(alpha)] times the identity,
    [alpha > 0], has no zero on its diagonal. *)
Lemma stacked_regular_diagonal : regular_diagonal Rm K.
Proof.
  assert (Hstrong : forall n i, (i < n)%nat -> (i < K)%nat -> ent Rm i i <> 0).
  { induction n as [|n IH]; intros i Hin Hi; [lia|].
    intros Hzero.
    destruct (kernel_vector i Hi) as (v & Hvi & Hker); auto.
    { intros k Hk. apply (IH k); lia. }
    assert (HAv : bigsum K (fun j => ent A (M + i) j * v j) = 0).
    { rewrite (bigsum_ext K _
                 (fun j => bigsum K (fun k => ent Q (M + i) k * (ent Rm k j * v j)))).
      - rewrite bigsum_swap. apply bigsum_0. intros k Hk.
        rewrite bigsum_scal, (Hker k Hk). lra.
      - intros j Hj. rewrite <- HQR.
        rewrite (ent_matmul Q Rm (M + K) K K (M + i) j HQ HRm) by lia.
        rewrite <- bigsum_scal_r. apply bigsum_ext. intros k _. ring. }
    rewrite (bigsum_single K i) in HAv.
    - rewrite stacked, Nat.eqb_refl, Hvi in HAv by lia.
      pose proof (sqrt_lt_R0 alpha alpha_pos). lra.
    - exact Hi.
    - intros l Hl Hne. rewrite stacked by lia.
      destruct (Nat.eqb_spec i l); [congruence | lra]. }
  intros i Hi. apply (Hstrong (S i)); lia.
Qed.
End StackedRegular.

Section RidgeSolution.
Local Open Scope R_scope.
Variable qr : matrix R -> matrix R * matrix R.

Lemma D_aug_positive (D : matrix R) (alpha : R) (M K : nat) :
  shape D M K -> (0 < M)%nat -> alpha <> 0 ->
  D_aug D alpha = D ++ scale (sqrt alpha) (np_identity K).
Proof.
  intros HD HM Ha. unfold D_aug. cbn [nonzero root R_Arith].
  rewrite (proj2 (Rnonzero_true alpha) Ha).
  now rewrite (shape_row D M K 0 HD HM).
Qed.

Lemma Y_aug_positive (D Y : matrix R) (alpha : R) (M K N : nat) :
  shape D M K -> shape Y M N -> (0 < M)%nat -> alpha <> 0 ->
  Y_aug D Y alpha = Y ++ repeat (repeat 0 N) K.
Proof.
  intros HD HY HM Ha. unfold Y_aug. cbn [nonzero zero R_Arith].
  rewrite (proj2 (Rnonzero_true alpha) Ha).
  now rewrite (shape_row D M K 0 HD HM), (shape_row Y M N 0 HY HM).
Qed.

Lemma ent_app_below (A1 A2 : matrix R) (i j : nat) :
  ent (A1 ++ A2) (length A1 + i)%nat j = ent A2 i j.
Proof.
  unfold ent. rewrite app_nth2 by lia.
  now replace (length A1 + i - length A1)%nat with i by lia.
Qed.

(** For [alpha > 0] the factor [R] of the stacked array is regular. *)
Lemma is_qr_regular (D Q Rm : matrix R) (alpha : R) (M K : nat) :
  shape D M K -> (0 < M)%nat -> 0 < alpha ->
  is_qr (D_aug D alpha) Q Rm (M + K) K ->
  regular_diagonal Rm K.
Proof.
  intros HD HM Ha (HQ & HRm & HQR & _ & Hupper).
  apply (stacked_regular_diagonal (D_aug D alpha) Q Rm M K alpha); auto.
  intros i j Hi Hj.
  rewrite (D_aug_positive D alpha M K HD HM) by lra.
  destruct HD as [HDl HDr]. rewrite <- HDl, ent_app_below.
  rewrite (ent_scale _ _ K K i j (shape_identity K) Hi Hj).
  now rewrite (ent_identity K i j Hi Hj).
Qed.

(** For [alpha >= 0], a valid factorization and a diagonal of [R] without
    zero, the amplitudes of [_getDAS] minimize the ridge objective. *)
Lemma DAS_of_minimizes (D Y : matrix R) (alpha : R) (M K N : nat) :
  shape D M K -> shape Y M N -> (0 < M)%nat -> (0 < K)%nat -> 0 <= alpha ->
  is_qr (D_aug D alpha) (fst (qr (D_aug D alpha))) (snd (qr (D_aug D alpha)))
        (if Rnonzero alpha then M + K else M)%nat K ->
  regular_diagonal (snd (qr (D_aug D alpha))) K ->
  forall X' : matrix R, shape X' K N ->
    ridge_objective D Y alpha (DAS_of qr D Y alpha)
    <= ridge_objective D Y alpha X'.
Proof.
  intros HD HY HM HK Ha Hqr Hdiag X' HX'.
  pose proof (shape_D_aug D alpha M K HD HM) as HDa.
  pose proof (shape_Y_aug D Y alpha M K N HD HY HM) as HYa.
  cbn [nonzero R_Arith] in HDa, HYa.
  assert (HX : shape (DAS_of qr D Y alpha) K N).
  { unfold DAS_of. apply shape_solve.
    destruct Hqr as (HQ & _).
    apply (shape_matmul _ _ K (if Rnonzero alpha then M + K else M)%nat N);
      [| exact HYa | destruct (Rnonzero alpha); lia].
    apply shape_transpose; [exact HQ | destruct (Rnonzero alpha); lia]. }
  pose proof (solve_minimizes (D_aug D alpha) (Y_aug D Y alpha) _ _ _ K N
                HDa HYa ltac:(destruct (Rnonzero alpha); lia) HK Hqr Hdiag X' HX')
    as Hmin.
  fold (DAS_of qr D Y alpha) in Hmin.
  destruct (Req_dec_T alpha 0) as [H0|Hne].
  - unfold ridge_objective. subst alpha.
    unfold D_aug, Y_aug in Hmin. cbn [nonzero R_Arith] in Hmin.
    rewrite (proj2 (Rnonzero_false 0) eq_refl) in Hmin. lra.
  - rewrite (D_aug_positive D alpha M K HD HM Hne) in Hmin.
    rewrite (Y_aug_positive D Y alpha M K N HD HY HM Hne) in Hmin.
    rewrite !(stacked_objective D Y _ alpha M K N) in Hmin by assumption.
    exact Hmin.
Qed.

(** With shapes as [np.linalg.qr] returns them the residual is computed. *)
Lemma residual_at (D Y : matrix R) (alpha : R) (M K N : nat) :
  shape D M K -> shape Y M N -> (0 < M)%nat -> (0 < K)%nat ->
  is_qr (D_aug D alpha) (fst (qr (D_aug D alpha))) (snd (qr (D_aug D alpha)))
        (if Rnonzero alpha then M + K else M)%nat K ->
  residual qr D Y alpha
  = Ok (sum_squares (msub Y (matmul D (DAS_of qr D Y alpha))))
  /\ shape (DAS_of qr D Y alpha) K N.
Proof.
  intros HD HY HM HK (HQ & HRm & _).
  pose proof (shape_Y_aug D Y alpha M K N HD HY HM) as HYa.
  cbn [nonzero R_Arith] in HYa.
  assert (HX : shape (DAS_of qr D Y alpha) K N).
  { unfold DAS_of. apply shape_solve.
    apply (shape_matmul _ _ K (if Rnonzero alpha then M + K else M)%nat N);
      [| exact HYa | destruct (Rnonzero alpha); lia].
    apply shape_transpose; [exact HQ | destruct (Rnonzero alpha); lia]. }
  split; [|exact HX]. unfold residual.
  rewrite (_getDAS_solve_at qr D Y alpha M K N) by assumption.
  fold (DAS_of qr D Y alpha). cbn [bind].
  rewrite (np_dot_matmul D _ M K HD) by apply HX. cbn [bind].
  rewrite (np_sub_msub Y _ M N HY); [reflexivity|].
  now apply (shape_matmul _ _ M K N).
Qed.
End RidgeSolution.

(** C2.  For [alpha > 0]: the arrays factorized are [D] with
    [sqrt(alpha) Identity(K)] beneath it and [Y] with a [K] by [N] block of
    zeros beneath it; when [np.linalg.qr] returns a factorization of the
    first, its [R] has no zero on its diagonal, and [_getDAS] returns the [K]
    by [N] array that minimizes [||Y - D X||^2 + alpha ||X||^2]. *)
Theorem getDAS_returns_ridge_minimizer
  (qr : matrix R -> matrix R * matrix R) (D Y : matrix R) (alpha : R)
  (M K N : nat) :
  shape D M K -> shape Y M N -> 0 < M -> 0 < K -> (0 < alpha)%R ->
  is_qr (D_aug D alpha) (fst (qr (D_aug D alpha))) (snd (qr (D_aug D alpha)))
        (M + K) K ->
  D_aug D alpha = D ++ scale (sqrt alpha) (np_identity K)
  /\ Y_aug D Y alpha = Y ++ repeat (repeat 0%R N) K
  /\ regular_diagonal (snd (qr (D_aug D alpha))) K
  /\ exists X : matrix R,
       _getDAS qr D Y alpha = Ok X
       /\ X = solve (snd (qr (D_aug D alpha)))
                    (matmul (transpose (fst (qr (D_aug D alpha)))) (Y_aug D Y alpha))
       /\ shape X K N
       /\ forall X' : matrix R, shape X' K N ->
            (ridge_objective D Y alpha X <= ridge_objective D Y alpha X')%R.
Proof.
  intros HD HY HM HK Ha Hqr.
  assert (Hne : alpha <> 0%R) by lra.
  assert (Hnz : Rnonzero alpha = true) by now apply Rnonzero_true.
  assert (Hdiag : regular_diagonal (snd (qr (D_aug D alpha))) K)
    by (apply (is_qr_regular D _ _ alpha M K HD HM Ha Hqr)).
  split; [now apply (D_aug_positive D alpha M K)|].
  split; [now apply (Y_aug_positive D Y alpha M K N)|].
  split; [exact Hdiag|].
  exists (DAS_of qr D Y alpha).
  assert (Hqr' : is_qr (D_aug D alpha) (fst (qr (D_aug D alpha)))
                   (snd (qr (D_aug D alpha)))
                   (if Rnonzero alpha then M + K else M) K)
    by now rewrite Hnz.
  destruct Hqr as (HQ & HRm & _).
  repeat split.
  - apply (_getDAS_solve_at qr D Y alpha M K N); auto.
    cbn [nonzero R_Arith]. now rewrite Hnz.
  - apply (residual_at qr D Y alpha M K N); auto.
  - apply (residual_at qr D Y alpha M K N); auto.
  - intros X' HX'. apply (DAS_of_minimizes qr D Y alpha M K N); auto. lra.
Qed.

(** C8, as amended.  For [0 <= alpha1 < alpha2] and factorizations by
    [np.linalg.qr] at both weights, where at [alpha1 = 0] the factor [R] of
    [D] has no zero on its diagonal ([D] has full column rank): the objective
    [_min] is computed at both weights and its value at [alpha2] is at least
    its value at [alpha1]. *)
Theorem min_residual_monotone_in_alpha
  (qr : matrix R -> matrix R * matrix R) (self : SVD_GA R)
  (taus Ts : vec R) (fit_irf : bool) (D Y : matrix R) (alpha1 alpha2 : R)
  (M K N : nat) :
  _genD self taus Ts fit_irf = Ok D ->
  shape D M K -> shape Y M N -> 0 < M -> 0 < K ->
  (0 <= alpha1 < alpha2)%R ->
  is_qr (D_aug D alpha1) (fst (qr (D_aug D alpha1))) (snd (qr (D_aug D alpha1)))
        (if Rnonzero alpha1 then M + K else M) K ->
  is_qr (D_aug D alpha2) (fst (qr (D_aug D alpha2))) (snd (qr (D_aug D alpha2)))
        (M + K) K ->
  (alpha1 = 0%R -> regular_diagonal (snd (qr (D_aug D alpha1))) K) ->
  exists r1 r2 : R,
    _min qr self taus Y Ts alpha1 fit_irf = Ok r1
    /\ _min qr self taus Y Ts alpha2 fit_irf = Ok r2
    /\ (r1 <= r2)%R.
Proof.
  intros HgenD HD HY HM HK Ha Hqr1 Hqr2 Hrank.
  assert (Hnz : Rnonzero alpha2 = true) by (apply Rnonzero_true; lra).
  assert (Hqr2' : is_qr (D_aug D alpha2) (fst (qr (D_aug D alpha2)))
                    (snd (qr (D_aug D alpha2)))
                    (if Rnonzero alpha2 then M + K else M) K)
    by now rewrite Hnz.
  assert (Hdiag2 : regular_diagonal (snd (qr (D_aug D alpha2))) K)
    by (apply (is_qr_regular D _ _ alpha2 M K HD HM ltac:(lra) Hqr2)).
  assert (Hdiag1 : regular_diagonal (snd (qr (D_aug D alpha1))) K).
  { destruct (Req_dec_T alpha1 0) as [H0|Hne]; [now apply Hrank|].
    apply (is_qr_regular D (fst (qr (D_aug D alpha1))) _ alpha1 M K HD HM);
      [lra|].
    now rewrite (proj2 (Rnonzero_true alpha1) Hne) in Hqr1. }
  destruct (residual_at qr D Y alpha1 M K N HD HY HM HK Hqr1) as [Hr1 HX1].
  destruct (residual_at qr D Y alpha2 M K N HD HY HM HK Hqr2') as [Hr2 HX2].
  unfold _min. rewrite HgenD. cbn [bind]. rewrite Hr1, Hr2.
  eexists. eexists. repeat split.
  pose proof (DAS_of_minimizes qr D Y alpha1 M K N HD HY HM HK
                ltac:(lra) Hqr1 Hdiag1 _ HX2) as H1.
  pose proof (DAS_of_minimizes qr D Y alpha2 M K N HD HY HM HK
                ltac:(lra) Hqr2' Hdiag2 _ HX1) as H2.
  unfold ridge_objective in H1, H2.
  set (r1 := sum_squares (msub Y (matmul D (DAS_of qr D Y alpha1)))) in *.
  set (r2 := sum_squares (msub Y (matmul D (DAS_of qr D Y alpha2)))) in *.
  set (p1 := sum_squares (DAS_of qr D Y alpha1)) in *.
  set (p2 := sum_squares (DAS_of qr D Y alpha2)) in *.
  assert (Hp : (p2 <= p1)%R) by nra.
  nra.
Qed.

(** ** The solver without regularization *)

(** C6, as amended.  With [alpha = 0] (the test [alpha != 0] fails), on a [D]
    with at least as many rows as columns and factors of the shapes that
    [np.linalg.qr] returns, [_getDAS] raises nothing, whatever the rank of
    [D]: it returns the [K] by [N] array of the back substitution, whose rows
    are divided by the diagonal entries of [R] as they are. *)
Theorem getDAS_without_ridge_raises_nothing
  {F : Type} {AF : Arith F}
  (qr : matrix F -> matrix F * matrix F) (D Y : matrix F) (alpha : F)
  (M K N : nat) :
  nonzero alpha = false ->
  shape D M K -> shape Y M N -> 0 < K -> K <= M ->
  shape (fst (qr D)) M K -> shape (snd (qr D)) K K ->
  exists X : matrix F,
    _getDAS qr D Y alpha = Ok X
    /\ shape X K N
    /\ X = solve (snd (qr D)) (matmul (transpose (fst (qr D))) Y).
Proof.
  intros Ha HD HY HK HKM HQ HRm.
  assert (HDa : D_aug D alpha = D) by (unfold D_aug; now rewrite Ha).
  assert (HYa : Y_aug D Y alpha = Y) by (unfold Y_aug; now rewrite Ha).
  eexists. split; [|split; [|reflexivity]].
  - rewrite (_getDAS_solve_at qr D Y alpha M K N); auto; try lia.
    + now rewrite HDa, HYa.
    + now rewrite Ha, HDa.
    + now rewrite HDa.
  - apply shape_solve. apply (shape_matmul _ _ K M N); auto; [|lia].
    apply shape_transpose; [exact HQ | lia].
Qed.

Section Binary64Examples.
Local Open Scope float_scope.

(** C6, a rank deficient [D] with [alpha = 0]: [R] is [[0.]], and the
    amplitudes returned are NaN for [Y = [[0.]]] and infinite for
    [Y = [[1.]]]. *)
Lemma getDAS_rank_deficient_returns_nan :
  snd (qr_examples [[0]]) = [[0]]
  /\ _getDAS qr_examples [[0]] [[0]] 0 = Ok [[nan]]
  /\ _getDAS qr_examples [[0]] [[1]] 0 = Ok [[infinity]].
Proof. repeat split; reflexivity. Qed.

(** C6, amended: the same call, to which the theorem applies. *)
Lemma getDAS_without_ridge_example :
  exists X : matrix float,
    _getDAS qr_examples [[0]] [[0]] 0 = Ok X
    /\ shape X 1 1
    /\ X = solve [[0]] (matmul (transpose [[1]]) [[0]]).
Proof.
  refine (getDAS_without_ridge_raises_nothing
            qr_examples [[0]] [[0]] 0 1 1 1 _ _ _ _ _ _ _);
    try reflexivity; try lia; split; try reflexivity; repeat constructor.
Defined.

(** C8, the same [D] with [Y = [[1.]]]: the residual is NaN at [alpha = 0]
    and 1 at [alpha = 1], and NaN is below no number. *)
Lemma residual_at_rank_deficient_not_monotone :
  residual qr_examples [[0]] [[1]] 0 = Ok nan
  /\ residual qr_examples [[0]] [[1]] 1 = Ok 1
  /\ PrimFloat.leb 0 0 = true
  /\ PrimFloat.ltb 0 1 = true
  /\ PrimFloat.leb nan 1 = false.
Proof. repeat split; reflexivity. Qed.
End Binary64Examples.

(** ** Instances in exact arithmetic *)

Section RealExamples.
Local Open Scope R_scope.

(** C3 at a two by two system. *)
Lemma back_substitute_is_textbook_example :
  back_substitute [[2; 1]; [0; 1]] [[3]; [1]] [[0]; [0]]
  = Ok (textbook_back_substitution [[2; 1]; [0; 1]] [[3]; [1]]).
Proof.
  apply (back_substitute_is_textbook
           [[2; 1]; [0; 1]] [[3]; [1]] [[0]; [0]] 2 1);
    try lia; split; try reflexivity; repeat constructor.
Defined.

Lemma D_aug_unit : D_aug [[0]] 1 = [[0]; [sqrt 1 * 1]].
Proof.
  rewrite (D_aug_positive [[0]] 1 1 1); try lra; try lia; [reflexivity|].
  split; [reflexivity | repeat constructor].
Qed.

Lemma is_qr_unit : is_qr (D_aug [[0]] 1) [[0]; [1]] [[1]] 2 1.
Proof.
  rewrite D_aug_unit, sqrt_1.
  split; [split; [reflexivity | repeat constructor]|].
  split; [split; [reflexivity | repeat constructor]|].
  split; [|split].
  - cbv [matmul map transpose length seq nth inner total combine fold_left
           fst snd add mul zero R_Arith].
    repeat (f_equal; try lra).
  - cbv [matmul map transpose length seq nth inner total combine fold_left
           fst snd add mul zero one R_Arith np_identity Nat.eqb].
    repeat (f_equal; try lra).
  - intros i k Hk Hi. lia.
Qed.

(** C2 for [D = [[0]]], [Y = [[1]]] and [alpha = 1]. *)
Lemma getDAS_returns_ridge_minimizer_example :
  exists X : matrix R,
    _getDAS qr_unit [[0]] [[1]] 1 = Ok X
    /\ forall X' : matrix R, shape X' 1 1 ->
         ridge_objective [[0]] [[1]] 1 X <= ridge_objective [[0]] [[1]] 1 X'.
Proof.
  destruct (getDAS_returns_ridge_minimizer qr_unit [[0]] [[1]] 1 1 1 1)
    as (_ & _ & _ & X & HX & _ & _ & Hmin).
  - split; [reflexivity | repeat constructor].
  - split; [reflexivity | repeat constructor].
  - lia.
  - lia.
  - lra.
  - exact is_qr_unit.
  - exists X. split; [exact HX | exact Hmin].
Defined.
End RealExamples.

Section RealFitExamples.
Local Open Scope R_scope.

Lemma genD_one_entry :
  _genD (self_with_width 0) [1] [0] false = Ok [[exp (- 0 / 1)]].
Proof.
  exact (_genD_fixed_width (self_with_width 0) [1] [0]
           (proj2 (Rnonzero_false 0) eq_refl)).
Qed.

Lemma exp_entry : exp (- 0 / 1) = 1.
Proof. replace (- 0 / 1) with 0 by lra. apply exp_0. Qed.

Lemma shape_one (a : R) : shape [[a]] 1 1.
Proof. split; [reflexivity | repeat constructor]. Qed.

Lemma is_qr_at_0 :
  is_qr (D_aug [[exp (- 0 / 1)]] 0)
        (fst (qr_column (D_aug [[exp (- 0 / 1)]] 0)))
        (snd (qr_column (D_aug [[exp (- 0 / 1)]] 0)))
        (if Rnonzero 0 then 1 + 1 else 1) 1.
Proof.
  unfold D_aug. cbn [nonzero R_Arith].
  rewrite (proj2 (Rnonzero_false 0) eq_refl). cbn [qr_column fst snd].
  split; [apply shape_one|]. split; [apply shape_one|].
  split; [|split].
  - cbv [matmul map transpose length seq nth inner total combine fold_left
           fst snd add mul zero R_Arith].
    repeat (f_equal; try lra).
  - cbv [matmul map transpose length seq nth inner total combine fold_left
           fst snd add mul zero one R_Arith np_identity Nat.eqb].
    repeat (f_equal; try lra).
  - intros i k Hk Hi. lia.
Qed.

Lemma is_qr_at_3 :
  is_qr (D_aug [[exp (- 0 / 1)]] 3)
        (fst (qr_column (D_aug [[exp (- 0 / 1)]] 3)))
        (snd (qr_column (D_aug [[exp (- 0 / 1)]] 3)))
        (1 + 1) 1.
Proof.
  rewrite (D_aug_positive [[exp (- 0 / 1)]] 3 1 1 (shape_one _))
    by (try lia; lra).
  cbn [app scale map np_identity seq Nat.eqb mul one R_Arith qr_column fst snd].
  pose proof (sqrt_sqrt 3 ltac:(lra)) as H3.
  split; [split; [reflexivity | repeat constructor]|].
  split; [apply shape_one|].
  split; [|split].
  - cbv [matmul map transpose length seq nth inner total combine fold_left
           fst snd add mul zero R_Arith].
    rewrite exp_entry. repeat (f_equal; try lra).
  - cbv [matmul map transpose length seq nth inner total combine fold_left
           fst snd add mul zero one R_Arith np_identity Nat.eqb].
    repeat (f_equal; try nra).
  - intros i k Hk Hi. lia.
Qed.

Lemma regular_diagonal_one (a : R) : a <> 0 -> regular_diagonal [[a]] 1.
Proof.
  intros Ha i Hi. replace i with O by lia. exact Ha.
Qed.

(** C8 at lifetime 1, time 0 and the weights 0 and 3. *)
Lemma min_residual_monotone_example :
  exists r1 r2 : R,
    _min qr_column (self_with_width 0) [1] [[1]] [0] 0 false = Ok r1
    /\ _min qr_column (self_with_width 0) [1] [[1]] [0] 3 false = Ok r2
    /\ r1 <= r2.
Proof.
  apply (min_residual_monotone_in_alpha
           qr_column (self_with_width 0) [1] [0] false
           [[exp (- 0 / 1)]] [[1]] 0 3 1 1 1).
  - exact genD_one_entry.
  - apply shape_one.
  - apply shape_one.
  - lia.
  - lia.
  - lra.
  - exact is_qr_at_0.
  - exact is_qr_at_3.
  - intros _. unfold D_aug. cbn [nonzero R_Arith].
    rewrite (proj2 (Rnonzero_false 0) eq_refl). cbn [qr_column snd].
    apply regular_diagonal_one. pose proof (exp_pos (- 0 / 1)). lra.
Defined.

Lemma qr_shapes_shaped : qr_shapes qr_shaped.
Proof.
  intros A m n HA Hn. unfold qr_shaped. cbn [fst snd]. split; [exact HA|].
  destruct A as [|row A'].
  - destruct HA as [Hm _]. simpl in Hm. replace n with O by lia.
    apply shape_identity.
  - rewrite (shape_row (row :: A') m n 0 HA) by (destruct HA; simpl in *; lia).
    apply shape_identity.
Qed.

(** C7 for one lifetime and the width, on a basis of three columns. *)
Lemma Global_width_fit_example :
  Global qr_shaped minimize_once basis3 "" [1; 1] None 1 true
  = Raise NameError
  /\ _GA qr_shaped minimize_once basis3 [1; 1] [[1; 2; 3]] [0] 1 None true
     = Raise NameError
  /\ _genD basis3 [1; 1] [0] true = Raise NameError.
Proof.
  destruct (Global_width_fit_raises_NameError
              qr_shaped minimize_once basis3 "" [1; 1] None 1
              [3%Z] [[1; 2; 3]])
    as (HG & HGA & Hp).
  - constructor; [reflexivity|]. intros v. constructor. reflexivity.
  - discriminate.
  - reflexivity.
  - split; [exact HG|]. split; [exact HGA|].
    exact (proj1 (Hp [1; 1] eq_refl)).
Defined.
End RealFitExamples.

(** * Further properties of the code *)

(** ** The columns of the decay matrix *)

Section DecayMatrixColumns.
Context {F : Type} {AF : Arith F} {SF : Special F}.
Variable self : SVD_GA F.
Local Open Scope arith_scope.

Lemma map_nil_rows {A B : Type} (l : list A) :
  map (fun _ => @nil B) l = repeat [] (length l).
Proof. induction l as [|a l IH]; simpl; congruence. Qed.

Lemma hstack_map {A : Type} (f g : A -> vec F) (l : list A) :
  hstack (map f l) (map g l) = map (fun a => f a ++ g a) l.
Proof. unfold hstack. rewrite combine_map_map, map_map. reflexivity. Qed.

End DecayMatrixColumns.

(** X1.  Where there is no entry to compute, [_genD] does not reach the
    names that the module lacks.  Without lifetimes, and the width not
    fitted, it returns an array of no columns, one empty row for every time
    point; on an empty time grid it returns the array without rows; both
    whatever the stored width.  With the width fitted and an empty [taus] it
    asks [np.zeros] for -1 columns, which is a [ValueError]. *)
Theorem genD_without_lifetimes
  {F : Type} {AF : Arith F} {SF : Special F}
  (self : SVD_GA F) (taus Ts : vec F) :
  _genD self [] Ts false = Ok (repeat [] (length Ts))
  /\ _genD self taus [] false = Ok []
  /\ _genD self [] Ts true = Raise ValueError.
Proof.
  split; [|split].
  - unfold _genD, np_zeros.
    cbn [length Z.of_nat Z.ltb Z.compare bind Z.to_nat repeat].
    apply fill_D_no_entry.
  - unfold _genD, np_zeros.
    destruct (Z.ltb_spec (Z.of_nat (length taus)) 0); [lia | reflexivity].
  - reflexivity.
Qed.

(** X2.  On the pure exponential branch (the width not fitted, the stored
    width zero) the columns of the decay matrix are built one lifetime at a
    time: the array for the lifetimes [taus1] followed by [taus2] is the
    array for [taus1] with the array for [taus2] to its right. *)
Theorem genD_appends_columns
  {F : Type} {AF : Arith F} {SF : Special F}
  (self : SVD_GA F) (taus1 taus2 Ts : vec F) :
  nonzero (FWHM_mod self) = false ->
  exists D1 D2 : matrix F,
    _genD self taus1 Ts false = Ok D1
    /\ _genD self taus2 Ts false = Ok D2
    /\ shape D1 (length Ts) (length taus1)
    /\ shape D2 (length Ts) (length taus2)
    /\ _genD self (taus1 ++ taus2) Ts false = Ok (hstack D1 D2).
Proof.
  intros Hw. eexists. eexists.
  split; [apply _genD_fixed_width, Hw|].
  split; [apply _genD_fixed_width, Hw|].
  split; [apply (shape_map_map (fun t tau => fexp (- t / tau)%ar))|].
  split; [apply (shape_map_map (fun t tau => fexp (- t / tau)%ar))|].
  rewrite _genD_fixed_width, hstack_map by exact Hw.
  f_equal. apply map_ext. intros t. apply map_app.
Qed.

(** ** The constructor *)

Section ConstructionFacts.
Context {F O : Type} {AF : Arith F} {SF : Special F}.
Local Open Scope arith_scope.

Lemma shape_diag (v : vec F) : shape (np_diag v) (length v) (length v).
Proof.
  unfold np_diag. split; [now rewrite length_map, length_seq|].
  apply Forall_forall. intros row Hrow. apply in_map_iff in Hrow.
  destruct Hrow as (i & <- & _). now rewrite length_map, length_seq.
Qed.

(** What [updateData] stores when the product [U.dot(S)] is defined. *)
Lemma updateData_attributes (data : Data F O) (U Vt : matrix F) (Sv : vec F)
    (FWHM : F) (chirporder munot mu lamnot : O) (K : nat) :
  get_SVD data = (U, Sv, Vt) ->
  get_IRF data = (chirporder, FWHM, munot, mu, lamnot) ->
  Forall (fun row => length row = K) U -> length Sv = K ->
  updateData data
  = Ok {| wLSV := matmul U (np_diag Sv);
          T := get_T data;
          FWHM_mod := FWHM / (two * root (flog two)) |}.
Proof.
  intros HSVD HIRF HU HS. unfold updateData. rewrite HSVD, HIRF.
  rewrite (np_dot_matmul U (np_diag Sv) (length U) K).
  - reflexivity.
  - split; [reflexivity | exact HU].
  - unfold np_diag. now rewrite length_map, length_seq.
Qed.
End ConstructionFacts.

(** X3.  [updateData] does not check its factors beyond what [U.dot(S)]
    needs: when [U] has a row and the number of singular values differs from
    the number of columns of [U], the product is a [ValueError] and no
    instance is made. *)
Theorem updateData_rejects_mismatched_factors
  {F O : Type} {AF : Arith F} {SF : Special F}
  (data : Data F O) (U Vt : matrix F) (Sv : vec F) (M K : nat) :
  get_SVD data = (U, Sv, Vt) ->
  shape U M K -> 0 < M -> length Sv <> K ->
  updateData data = Raise ValueError /\ __init__ data = Raise ValueError.
Proof.
  intros HSVD [HUl HUr] HM HS.
  assert (H : updateData data = Raise ValueError).
  { unfold updateData. rewrite HSVD. unfold np_dot.
    destruct U as [|row U']; [simpl in HUl; lia|].
    pose proof (Forall_inv HUr) as Hrow. cbv beta in Hrow.
    cbn [forallb]. unfold np_diag at 1. rewrite length_map, length_seq, Hrow.
    destruct (Nat.eqb_spec K (length Sv)) as [E|_]; [congruence|].
    reflexivity. }
  split; [exact H | exact H].
Qed.

Section ArraysByEntries.
Local Open Scope R_scope.

(** Two arrays of one shape with the same entries are the same array. *)
Lemma matrix_ext (A B : matrix R) (m n : nat) :
  shape A m n -> shape B m n ->
  (forall i j, (i < m)%nat -> (j < n)%nat -> ent A i j = ent B i j) ->
  A = B.
Proof.
  intros [HAl HAr] [HBl HBr] H.
  apply (nth_ext A B [] []); [congruence|].
  intros i Hi. rewrite HAl in Hi.
  assert (Ha : length (nth i A []) = n)
    by (apply (shape_row A m n); [split|]; assumption).
  assert (Hb : length (nth i B []) = n)
    by (apply (shape_row B m n); [split|]; assumption).
  apply (nth_ext _ _ 0 0); [congruence|].
  intros j Hj. rewrite Ha in Hj. exact (H i j Hi Hj).
Qed.

Lemma ent_diag (v : vec R) (i j : nat) :
  (i < length v)%nat -> (j < length v)%nat ->
  ent (np_diag v) i j = if (i =? j)%nat then nth i v 0 else 0.
Proof.
  intros Hi Hj. unfold ent, np_diag.
  rewrite (nth_map_lt _ _ _ O) by (rewrite length_seq; lia).
  rewrite (nth_map_lt _ _ _ O) by (rewrite length_seq; lia).
  now rewrite !seq_nth by lia.
Qed.
End ArraysByEntries.

(** X4.  In exact arithmetic, for factors of matching sizes with at least
    one singular value, [updateData] makes the instance whose time grid is
    [data.get_T()], whose width is [FWHM / (2 sqrt(ln 2))], and whose basis
    [wLSV] has the shape of [U], its column [j] being column [j] of [U]
    times the singular value [j]. *)
Theorem updateData_weights_singular_vectors
  {O : Type} (data : Data R O) (U Vt : matrix R) (Sv : vec R)
  (FWHM : R) (chirporder munot mu lamnot : O) (M K : nat) :
  get_SVD data = (U, Sv, Vt) ->
  get_IRF data = (chirporder, FWHM, munot, mu, lamnot) ->
  shape U M K -> length Sv = K -> 0 < K ->
  exists self : SVD_GA R,
    updateData data = Ok self
    /\ T self = get_T data
    /\ FWHM_mod self = (FWHM / (2 * sqrt (ln 2)))%R
    /\ shape (wLSV self) M K
    /\ forall i j, i < M -> j < K ->
         ent (wLSV self) i j = (ent U i j * nth j Sv 0)%R.
Proof.
  intros HSVD HIRF HU HS HK.
  pose proof (shape_diag Sv) as Hdiag. rewrite HS in Hdiag.
  eexists. split.
  - apply (updateData_attributes data U Vt Sv FWHM chirporder munot mu lamnot K);
      auto. apply HU.
  - cbn [T FWHM_mod wLSV]. split; [reflexivity|]. split; [reflexivity|].
    split; [now apply (shape_matmul U (np_diag Sv) M K K)|].
    intros i j Hi Hj.
    rewrite (ent_matmul U (np_diag Sv) M K K i j HU Hdiag HK Hi Hj).
    rewrite (bigsum_single K j).
    + rewrite ent_diag by lia. now rewrite Nat.eqb_refl.
    + exact Hj.
    + intros l Hl Hne. rewrite ent_diag by lia.
      destruct (Nat.eqb_spec l j); [congruence | apply Rmult_0_r].
Qed.

(** X5.  In exact arithmetic, on an instance made by [updateData] from a
    nonzero FWHM no decay matrix with an entry can be built.  The stored
    width [FWHM / (2 sqrt(ln 2))] is not zero, so that without width fitting
    the first entry goes through line 82, which reads the name [exp]; with
    width fitting line 69 reads the name [sqrt].  The module binds neither
    name, and both calls raise [NameError]. *)
Theorem genD_with_instrument_response_raises_NameError
  {O : Type} (data : Data R O) (self : SVD_GA R) (taus Ts : vec R)
  (fit_irf : bool) (FWHM : R) (chirporder munot mu lamnot : O) :
  updateData data = Ok self ->
  get_IRF data = (chirporder, FWHM, munot, mu, lamnot) ->
  FWHM <> 0%R -> taus <> [] -> Ts <> [] ->
  _genD self taus Ts fit_irf = Raise NameError.
Proof.
  intros Hself HIRF Hne Htaus HT.
  assert (Hw : FWHM_mod self = (FWHM / (2 * sqrt (ln 2)))%R).
  { unfold updateData in Hself. rewrite HIRF in Hself.
    destruct (get_SVD data) as [[U Sv] Vt].
    destruct (np_dot U (np_diag Sv)) as [W|e]; [|discriminate].
    cbn [bind] in Hself. injection Hself as <-. reflexivity. }
  assert (Hnz : nonzero (FWHM_mod self) = true).
  { rewrite Hw. cbn [nonzero R_Arith]. apply Rnonzero_true.
    pose proof sqrt_ln_2_pos as Hpos. unfold Rdiv.
    apply Rmult_integral_contrapositive_currified; [exact Hne|].
    apply Rinv_neq_0_compat. lra. }
  destruct fit_irf.
  - rewrite _genD_fitted_width. destruct taus; [contradiction | reflexivity].
  - now apply _genD_stored_width.
Qed.

(** ** The selection of columns, outside of the policy *)

Section SelectionBounds.
Context {F : Type} {AF : Arith F}.


(** [row[j]] for an index that counts from the end *)
Lemma getitem_wrap (row : vec F) (j : Z) :
  (- Z.of_nat (length row) <= j < Z.of_nat (length row))%Z ->
  getitem row j
  = Ok (nth (Z.to_nat (j mod Z.of_nat (length row))) row zero).
Proof.
  intros Hj. destruct (Z.ltb_spec j 0) as [Hneg|Hpos].
  - unfold getitem. cbv zeta.
    assert (E : (j <? 0)%Z = true) by (apply Z.ltb_lt; lia).
    assert (E' : (Z.of_nat (length row) + j <? 0)%Z = false)
      by (apply Z.ltb_ge; lia).
    rewrite E, E'.
    replace (j mod Z.of_nat (length row))%Z with (Z.of_nat (length row) + j)%Z.
    + rewrite (nth_error_nth_lt row _ zero) by lia. reflexivity.
    + apply (Z.mod_unique _ _ (-1)); lia.
  - rewrite Z.mod_small by lia.
    rewrite <- (Z2Nat.id j) at 1 by lia.
    apply getitem_nat. lia.
Qed.

Lemma getitem_outside (row : vec F) (j : Z) :
  (j < - Z.of_nat (length row) \/ Z.of_nat (length row) <= j)%Z ->
  getitem row j = Raise IndexError.
Proof.
  intros Hj. unfold getitem. cbv zeta.
  destruct (Z.ltb_spec j 0) as [Hneg|Hpos].
  - assert (E : (Z.of_nat (length row) + j <? 0)%Z = true)
      by (apply Z.ltb_lt; lia).
    now rewrite E.
  - assert (E : (j <? 0)%Z = false) by (apply Z.ltb_ge; lia).
    rewrite E.
    assert (N : nth_error row (Z.to_nat j) = None)
      by (apply nth_error_None; lia).
    now rewrite N.
Qed.

(** [A[:, j]] for an index that counts from the end *)
Lemma getcol_wrap (A : matrix F) (j : Z) (C : nat) :
  Forall (fun row => length row = C) A ->
  (- Z.of_nat C <= j < Z.of_nat C)%Z ->
  getcol A j = Ok (map (fun row => nth (Z.to_nat (j mod Z.of_nat C)) row zero) A).
Proof.
  intros HA Hj. unfold getcol.
  assert (Hgen : forall acc,
             for_in A (fun row acc =>
                         match getitem row j with
                         | Ok x => Ok (acc ++ [x])
                         | Raise _ => Raise (out_of_bounds j)
                         end) acc
             = Ok (acc ++ map (fun row => nth (Z.to_nat (j mod Z.of_nat C)) row zero) A)).
  { induction A as [|row A' IH]; intros acc; simpl.
    - now rewrite app_nil_r.
    - pose proof (Forall_inv HA) as Hrow. cbv beta in Hrow.
      rewrite getitem_wrap by (rewrite Hrow; exact Hj). cbn [bind].
      rewrite IH by exact (Forall_inv_tail HA).
      rewrite Hrow. now rewrite <- app_assoc. }
  apply (Hgen []).
Qed.

Lemma getcol_outside (A : matrix F) (j : Z) (C : nat) :
  Forall (fun row => length row = C) A -> 0 < length A ->
  (j < - Z.of_nat C \/ Z.of_nat C <= j)%Z ->
  getcol A j = Raise (out_of_bounds j).
Proof.
  intros HA Hne Hj. unfold getcol.
  destruct A as [|row A']; [simpl in Hne; lia|].
  pose proof (Forall_inv HA) as Hrow. cbv beta in Hrow.
  cbn [for_in]. rewrite getitem_outside by (rewrite Hrow; exact Hj).
  reflexivity.
Qed.

End SelectionBounds.

Section SelectionLoop.
Context {F : Type} {AF : Arith F}.

(** Lines 146-148 for indices that may count from the end. *)
Lemma copy_columns_wrapped (A : matrix F) (idx : list Z) (C : nat) :
  Forall (fun row => length row = C) A ->
  Forall (fun n => (1 - Z.of_nat C <= n <= Z.of_nat C)%Z) idx ->
  for_in (range 0 (length idx))
    (fun j fit =>
       n <- getitem idx (Z.of_nat j) ;;
       col <- getcol A (n - 1) ;;
       setcol fit j col)
    (repeat (repeat zero (length idx)) (length A))
  = Ok (take_columns A (map (wrapped_column C) idx)).
Proof.
  intros HA Hidx. unfold range. rewrite Nat.sub_0_r.
  set (L := length idx).
  set (pick := fun (row : vec F) (j : nat) =>
                 nth (Z.to_nat ((nth j idx 0%Z - 1) mod Z.of_nat C)) row zero).
  assert (Hgen : forall k, k <= L ->
    for_in (seq 0 k)
      (fun j fit =>
         n <- getitem idx (Z.of_nat j) ;;
         col <- getcol A (n - 1) ;;
         setcol fit j col)
      (repeat (repeat zero L) (length A))
    = Ok (map (fun row => map (pick row) (seq 0 k) ++ repeat zero (L - k)) A)).
  { induction k as [|k IH]; intros Hk.
    - cbn [for_in seq map app]. rewrite Nat.sub_0_r. f_equal.
      clear. induction A as [|row A' IH]; simpl; auto. now rewrite IH.
    - rewrite seq_S, for_in_app, IH by lia. cbn [bind for_in Nat.add].
      rewrite (getitem_nat idx k 0%Z) by (fold L; lia). cbn [bind].
      assert (Hn : (1 - Z.of_nat C <= nth k idx 0 <= Z.of_nat C)%Z).
      { apply (proj1 (Forall_forall _ idx) Hidx). apply nth_In. fold L. lia. }
      rewrite (getcol_wrap A _ C HA) by lia. cbn [bind].
      unfold setcol.
      replace (forallb _ _) with true.
      + rewrite !length_map, Nat.eqb_refl, combine_map_map.
        cbn [bind]. f_equal. rewrite map_map. apply map_ext. intros row.
        cbn [fst snd].
        replace (L - k) with (S (L - S k)) by lia. cbn [repeat].
        rewrite update_app_cons by now rewrite length_map, length_seq.
        rewrite map_app, <- app_assoc. reflexivity.
      + symmetry. apply forallb_forall. intros row Hrow.
        apply in_map_iff in Hrow. destruct Hrow as (r & <- & _).
        apply Nat.ltb_lt.
        rewrite length_app, length_map, length_seq, repeat_length. lia. }
  rewrite Hgen by lia. f_equal. unfold take_columns.
  apply map_ext. intros row. rewrite Nat.sub_diag, app_nil_r.
  unfold L, pick. rewrite map_map.
  rewrite <- (map_nth_seq
                (fun n => nth (Z.to_nat (wrapped_column C n - 1)) row zero) idx 0%Z).
  apply map_ext. intros j. unfold wrapped_column. f_equal. f_equal. lia.
Qed.

End SelectionLoop.

(** X6.  A selector of several integers reads column [n - 1] of the basis as
    numpy indexes it: for a basis of [C] columns every entry from [1 - C] to
    [C] is accepted, an entry from 1 to [C] standing for itself and an entry
    [n <= 0] for column [C + n] (0 is the last column); the indices returned
    are the entries as written. *)
Theorem get_wLSVs_for_fit_wraps_indices
  {F : Type} {AF : Arith F} (self : SVD_GA F) (sel : string)
  (B : option (list (F * F))) (ns : list Z) (C : nat) :
  shape (wLSV self) (length (T self)) C ->
  map_int (split sel) = Ok ns -> 2 <= length ns ->
  Forall (fun n => (1 - Z.of_nat C <= n <= Z.of_nat C)%Z) ns ->
  _get_wLSVs_for_fit self sel B
  = Ok (ns, take_columns (wLSV self) (map (wrapped_column C) ns))
  /\ Forall (fun n => wrapped_column C n
                      = if (n <=? 0)%Z then (Z.of_nat C + n)%Z else n) ns.
Proof.
  intros [HM HC] Hparse Hlen Hns. split.
  - unfold _get_wLSVs_for_fit.
    destruct (split sel) as [|tok toks] eqn:Etoks.
    { simpl in Hparse. injection Hparse as <-. simpl in Hlen. lia. }
    cbv beta iota. rewrite Hparse. cbn [bind].
    destruct ns as [|n [|n' ns']]; [simpl in Hlen; lia | simpl in Hlen; lia|].
    cbn [length Nat.eqb]. unfold np_zeros.
    assert (E : forall k, (Z.of_nat k <? 0)%Z = false)
      by (intros; apply Z.ltb_ge; lia).
    rewrite E, Nat2Z.id. cbn [bind]. rewrite <- HM.
    rewrite (copy_columns_wrapped (wLSV self) (n :: n' :: ns') C HC Hns).
    reflexivity.
  - apply Forall_forall. intros n Hn.
    pose proof (proj1 (Forall_forall _ ns) Hns n Hn) as Hr. cbv beta in Hr.
    unfold wrapped_column. destruct (Z.leb_spec n 0) as [Hle|Hgt].
    + assert (E : ((n - 1) mod Z.of_nat C = Z.of_nat C + n - 1)%Z)
        by (symmetry; apply (Z.mod_unique _ _ (-1)); lia).
      lia.
    + rewrite Z.mod_small by lia. lia.
Qed.


(** X8.  A selector of a single integer [n], and the empty selector, which
    stands for 3, never raise, whatever the number [C] of columns of the
    basis: the slice [wLSV[:, :n]] is the whole basis when [n >= C], has no
    column when [n = 0], and leaves out the last [-n] columns when
    [n < 0]. *)
Theorem get_wLSVs_for_fit_count_saturates
  {F : Type} {AF : Arith F} (self : SVD_GA F) (sel : string)
  (B : option (list (F * F))) (ns : list Z) (M C : nat) :
  shape (wLSV self) M C ->
  map_int (split sel) = Ok ns -> length ns <= 1 ->
  let n := nth 0 ns 3%Z in
  exists fit : matrix F,
    _get_wLSVs_for_fit self sel B = Ok ([n], fit)
    /\ ((Z.of_nat C <= n)%Z -> fit = wLSV self)
    /\ (n = 0%Z -> fit = repeat [] M)
    /\ ((n < 0)%Z ->
        fit = map (firstn (C - Z.to_nat (- n))) (wLSV self)).
Proof.
  intros [HM HC] Hparse Hlen n.
  assert (Hfit : _get_wLSVs_for_fit self sel B = Ok ([n], cols_to (wLSV self) n)).
  { unfold _get_wLSVs_for_fit.
    destruct (split sel) as [|tok toks] eqn:Etoks.
    - simpl in Hparse. injection Hparse as <-. reflexivity.
    - cbv beta iota. rewrite Hparse. cbn [bind].
      destruct ns as [|n0 [|n1 ns']]; [| |simpl in Hlen; lia].
      + simpl in Hparse. destruct (int tok); [|discriminate].
        simpl in Hparse. destruct (map_int toks); discriminate.
      + cbn [length Nat.eqb]. rewrite (getitem_first [n0] 0%Z) by (simpl; lia).
        reflexivity. }
  exists (cols_to (wLSV self) n). split; [exact Hfit|].
  unfold cols_to, slice_to. cbv zeta. split; [|split].
  - intros Hn. assert (E : (n <? 0)%Z = false) by (apply Z.ltb_ge; lia).
    rewrite E. rewrite <- (map_id (wLSV self)) at 2.
    apply map_ext_in. intros row Hrow. apply firstn_all2.
    rewrite (proj1 (Forall_forall _ _) HC row Hrow). lia.
  - intros ->. cbn [Z.ltb Z.compare Z.to_nat firstn].
    rewrite <- HM. apply map_nil_rows.
  - intros Hn. assert (E : (n <? 0)%Z = true) by (apply Z.ltb_lt; lia).
    rewrite E. apply map_ext_in. intros row Hrow. f_equal.
    rewrite (proj1 (Forall_forall _ _) HC row Hrow). lia.
Qed.

(** ** Selectors that are not numbers *)

Section SelectorText.

(** Every character that is not white space ends up in a token. *)
Lemma tokens_cover (c : ascii) (cs cur : list ascii) :
  In c cur \/ (In c cs /\ isspace c = false) ->
  exists tok, In tok (tokens cs cur) /\ In c tok.
Proof.
  revert cur. induction cs as [|x cs IH]; intros cur H.
  - destruct H as [H | [[] _]].
    destruct cur as [|y cur']; [destruct H|].
    exists (rev (y :: cur')). split; [now left | now apply in_rev in H].
  - cbn [tokens]. destruct (isspace x) eqn:Ex.
    + destruct H as [H | [[-> | H] Hc]]; [| congruence |].
      * destruct cur as [|y cur']; [destruct H|].
        exists (rev (y :: cur')). split; [now left | now apply in_rev in H].
      * destruct (IH [] (or_intror (conj H Hc))) as (tok & Htok & Hin).
        exists tok. split; [|exact Hin].
        destruct cur; [exact Htok | now right].
    + apply IH. destruct H as [H | [[-> | H] Hc]].
      * left. now right.
      * left. now left.
      * right. now split.
Qed.

Lemma digits_rejects (c : ascii) (cs : list ascii) :
  In c cs -> digit c = None -> c <> "_"%char ->
  forall acc b, digits cs acc b = None.
Proof.
  intros Hin Hd Hu. induction cs as [|x cs IH]; [destruct Hin|].
  intros acc b. cbn [digits]. destruct Hin as [-> | Hin].
  - rewrite Hd. destruct (Ascii.eqb_spec c "_"%char); [congruence|].
    reflexivity.
  - destruct (digit x); [now apply IH|].
    destruct (Ascii.eqb x "_" && b)%bool; [now apply IH | reflexivity].
Qed.

Lemma int_rejects (c : ascii) (tok : list ascii) :
  In c tok -> digit c = None ->
  c <> "_"%char -> c <> "+"%char -> c <> "-"%char ->
  int tok = Raise ValueError.
Proof.
  intros Hin Hd Hu Hp Hm. unfold int.
  destruct tok as [|x ds]; [reflexivity|].
  destruct (Ascii.eqb_spec x "-"%char) as [->|Hx].
  - destruct Hin as [E | Hin]; [congruence|].
    now rewrite (digits_rejects c ds Hin Hd Hu).
  - destruct (Ascii.eqb_spec x "+"%char) as [->|Hx'].
    + destruct Hin as [E | Hin]; [congruence|].
      now rewrite (digits_rejects c ds Hin Hd Hu).
    + now rewrite (digits_rejects c (x :: ds) Hin Hd Hu).
Qed.

Lemma int_raises_ValueError (tok : list ascii) (e : exn) :
  int tok = Raise e -> e = ValueError.
Proof.
  unfold int.
  match goal with |- match ?p with _ => _ end = _ -> _ => destruct p end;
    [discriminate | congruence].
Qed.

Lemma map_int_rejects (tok : list ascii) (toks : list (list ascii)) :
  In tok toks -> int tok = Raise ValueError ->
  map_int toks = Raise ValueError.
Proof.
  intros Hin Hbad. induction toks as [|t toks IH]; [destruct Hin|].
  cbn [map_int]. destruct Hin as [-> | Hin].
  - now rewrite Hbad.
  - destruct (int t) as [z|e] eqn:Et.
    + cbn [bind]. now rewrite (IH Hin).
    + cbn [bind]. now rewrite (int_raises_ValueError t e Et).
Qed.
End SelectorText.

(** X9.  A selector with an ASCII character that is neither white space, a
    digit, a sign nor an underscore holds a token that [int] refuses:
    [_get_wLSVs_for_fit] raises [ValueError], and so does [Global], before
    the optimizer is called. *)
Theorem Global_rejects_selector_that_is_no_number
  {F : Type} {AF : Arith F} {SF : Special F}
  (qr : matrix F -> matrix F * matrix F)
  (minimize : vec F -> option (list (F * F)) -> optimizer F)
  (self : SVD_GA F) (sel : string) (c : ascii) (x0 : vec F)
  (B : option (list (F * F))) (alpha : F) (fit_irf : bool) :
  In c (list_ascii_of_string sel) -> nat_of_ascii c < 128 ->
  isspace c = false -> digit c = None ->
  c <> "_"%char -> c <> "+"%char -> c <> "-"%char ->
  _get_wLSVs_for_fit self sel B = Raise ValueError
  /\ Global qr minimize self sel x0 B alpha fit_irf = Raise ValueError.
Proof.
  intros Hin _ Hs Hd Hu Hp Hm.
  assert (H : _get_wLSVs_for_fit self sel B = Raise ValueError).
  { destruct (tokens_cover c (list_ascii_of_string sel) []
                (or_intror (conj Hin Hs))) as (tok & Htok & Hc).
    fold (split sel) in Htok.
    pose proof (map_int_rejects tok (split sel) Htok
                  (int_rejects c tok Hc Hd Hu Hp Hm)) as Hbad.
    unfold _get_wLSVs_for_fit.
    destruct (split sel) as [|t ts]; [destruct Htok|].
    cbv beta iota. now rewrite Hbad. }
  split; [exact H|]. unfold Global. now rewrite H.
Qed.

(** ** The fit driver *)

Section Driver.
Context {F : Type} {AF : Arith F} {SF : Special F}.
Variable qr : matrix F -> matrix F * matrix F.
Variable minimize : vec F -> option (list (F * F)) -> optimizer F.
Variable self : SVD_GA F.

(** [_GA] without width fitting, the stored width being zero, on data of
    matching shapes: the optimizer ends at a vector [x] of the length of
    [x0], and the amplitudes and the fit are those of the decay matrix at
    [x]. *)
Lemma _GA_returns (x0 : vec F) (Y : matrix F) (Ts : vec F) (alpha : F)
    (B : option (list (F * F))) (K N : nat) :
  qr_shapes qr ->
  nonzero (FWHM_mod self) = false ->
  sized (length x0) (minimize x0 B) ->
  length x0 = K -> 0 < K ->
  shape Y (length Ts) N -> 0 < length Ts ->
  (nonzero alpha = false -> K <= length Ts) ->
  exists (x : vec F) (D : matrix F),
    run_optimizer (minimize x0 B) (fun p => _min qr self p Y Ts alpha false)
    = Ok x
    /\ length x = length x0
    /\ _genD self x Ts false = Ok D
    /\ shape D (length Ts) K
    /\ shape (DAS_of qr D Y alpha) K N
    /\ shape (matmul D (DAS_of qr D Y alpha)) (length Ts) N
    /\ _GA qr minimize self x0 Y Ts alpha B false
       = Ok (x, DAS_of qr D Y alpha, matmul D (DAS_of qr D Y alpha)).
Proof.
  intros Hqr Hw Hsized Hx0 HK HY HM Hrank.
  destruct (run_sized (length x0)
              (fun p => _min qr self p Y Ts alpha false) (minimize x0 B) Hsized)
    as (x & Hrun & Hlen & _).
  { intros p Hp. apply (_min_returns qr self p Y Ts alpha K N); auto.
    lia. }
  destruct (_genD_has_shape self x Ts Hw) as (D & HgenD & HD).
  replace (length x) with K in HD by lia.
  pose proof (shape_DAS_of qr D Y alpha (length Ts) K N Hqr HD HY HM HK Hrank)
    as HX.
  exists x, D. repeat split; try assumption; try apply HX; try apply HD.
  - unfold matmul. rewrite length_map. apply HD.
  - apply (shape_matmul D _ (length Ts) K N); assumption.
  - unfold _GA. rewrite Hrun. cbn [bind]. rewrite HgenD. cbn [bind].
    rewrite (_getDAS_solve qr D Y alpha (length Ts) K N) by assumption.
    cbn [bind]. fold (DAS_of qr D Y alpha).
    rewrite (np_dot_matmul D _ (length Ts) K HD) by apply HX.
    reflexivity.
Qed.
End Driver.

(** X10.  Without width fitting, the stored width being zero, [_GA] on data
    of matching shapes returns the vector [x] at which the optimizer ended,
    the [K] by [N] amplitudes and the fit, which is the product of the decay
    matrix at [x] with the amplitudes; the objective at [x] is the sum of
    the squared differences between the data and this fit. *)
Theorem GA_returns_the_fit_of_its_lifetimes
  {F : Type} {AF : Arith F} {SF : Special F}
  (qr : matrix F -> matrix F * matrix F)
  (minimize : vec F -> option (list (F * F)) -> optimizer F)
  (self : SVD_GA F) (x0 : vec F) (Y : matrix F) (Ts : vec F) (alpha : F)
  (B : option (list (F * F))) (K N : nat) :
  qr_shapes qr ->
  nonzero (FWHM_mod self) = false ->
  sized (length x0) (minimize x0 B) ->
  length x0 = K -> 0 < K ->
  shape Y (length Ts) N -> 0 < length Ts ->
  (nonzero alpha = false -> K <= length Ts) ->
  exists (x : vec F) (D DAS SpecFit : matrix F),
    _GA qr minimize self x0 Y Ts alpha B false = Ok (x, DAS, SpecFit)
    /\ run_optimizer (minimize x0 B) (fun p => _min qr self p Y Ts alpha false)
       = Ok x
    /\ _genD self x Ts false = Ok D
    /\ _getDAS qr D Y alpha = Ok DAS
    /\ shape DAS K N
    /\ SpecFit = matmul D DAS
    /\ shape SpecFit (length Ts) N
    /\ _min qr self x Y Ts alpha false = Ok (sum_squares (msub Y SpecFit)).
Proof.
  intros Hqr Hw Hsized Hx0 HK HY HM Hrank.
  destruct (_GA_returns qr minimize self x0 Y Ts alpha B K N)
    as (x & D & Hrun & Hlen & HgenD & HD & HX & HP & HGA); auto.
  exists x, D, (DAS_of qr D Y alpha), (matmul D (DAS_of qr D Y alpha)).
  split; [exact HGA|]. split; [exact Hrun|]. split; [exact HgenD|].
  split; [now apply (_getDAS_solve qr D Y alpha (length Ts) K N)|].
  split; [exact HX|]. split; [reflexivity|]. split; [exact HP|].
  unfold _min. rewrite HgenD. cbn [bind].
  now apply (residual_returns qr D Y alpha (length Ts) K N).
Qed.

(** X11.  Without width fitting, the stored width being zero, on data of
    matching shapes with at least one fitted column, [Global] returns the
    vector at which the optimizer ended, whole: its [K] entries are the
    lifetimes. *)
Theorem Global_without_width_fit_returns_lifetimes
  {F : Type} {AF : Arith F} {SF : Special F}
  (qr : matrix F -> matrix F * matrix F)
  (minimize : vec F -> option (list (F * F)) -> optimizer F)
  (self : SVD_GA F) (sel : string) (x0 : vec F) (B : option (list (F * F)))
  (alpha : F) (K N : nat) (idx : list Z) (Y : matrix F) :
  qr_shapes qr ->
  nonzero (FWHM_mod self) = false ->
  sized (length x0) (minimize x0 B) ->
  length x0 = K -> 0 < K ->
  _get_wLSVs_for_fit self sel B = Ok (idx, Y) ->
  shape Y (length (T self)) N -> 0 < length (T self) -> 0 < N ->
  (nonzero alpha = false -> K <= length (T self)) ->
  exists x : vec F,
    run_optimizer (minimize x0 B)
      (fun p => _min qr self p Y (T self) alpha false) = Ok x
    /\ length x = K
    /\ Global qr minimize self sel x0 B alpha false = Ok (x, None).
Proof.
  intros Hqr Hw Hsized Hx0 HK Hsel HY HM HN Hrank.
  destruct (_GA_returns qr minimize self x0 Y (T self) alpha B K N)
    as (x & D & Hrun & Hlen & HgenD & HD & HX & HP & HGA); auto.
  exists x. split; [exact Hrun|]. split; [lia|].
  unfold Global. rewrite Hsel. cbn [bind snd fst]. rewrite HGA.
  cbn [bind snd fst].
  rewrite (_plot_res_returns Y idx x _ _ (T self) (length (T self)) K N);
    auto. lia.
Qed.

Section NoColumn.
Context {F : Type} {AF : Arith F}.

Lemma msub_no_column (Y P : matrix F) :
  Forall (fun row => length row = 0) Y ->
  Forall (fun row => length row = 0) (msub Y P).
Proof.
  intros HY. apply Forall_forall. intros row Hrow. unfold msub in Hrow.
  apply in_map_iff in Hrow. destruct Hrow as ([y p] & <- & Hin).
  cbn [fst snd]. rewrite length_vsub.
  rewrite (proj1 (Forall_forall _ Y) HY y (in_combine_l _ _ _ _ Hin)).
  reflexivity.
Qed.

Lemma sum_squares_no_column (E : matrix F) :
  Forall (fun row => length row = 0) E -> sum_squares E = zero.
Proof.
  intros HE. unfold sum_squares.
  replace (concat E) with (@nil F); [reflexivity|].
  induction E as [|row E IH]; [reflexivity|].
  pose proof (Forall_inv HE) as Hrow. cbv beta in Hrow.
  destruct row; [|discriminate]. cbn [concat app].
  apply IH, (Forall_inv_tail HE).
Qed.
End NoColumn.

(** X12.  Without width fitting, the stored width being zero: when the
    selection holds no column (a selector [0], or a basis without columns),
    the objective is zero at every parameter vector, the fit itself runs
    through, on arrays of no column, and [Global] then ends in an
    [IndexError]: [_plot_res] reads the first fitted column,
    [wLSV_fit[:, 0]]. *)
Theorem Global_without_fitted_columns_raises
  {F : Type} {AF : Arith F} {SF : Special F}
  (qr : matrix F -> matrix F * matrix F)
  (minimize : vec F -> option (list (F * F)) -> optimizer F)
  (self : SVD_GA F) (sel : string) (x0 : vec F) (B : option (list (F * F)))
  (alpha : F) (K : nat) (idx : list Z) (Y : matrix F) :
  qr_shapes qr ->
  nonzero (FWHM_mod self) = false ->
  sized (length x0) (minimize x0 B) ->
  length x0 = K -> 0 < K ->
  _get_wLSVs_for_fit self sel B = Ok (idx, Y) ->
  shape Y (length (T self)) 0 -> 0 < length (T self) ->
  (nonzero alpha = false -> K <= length (T self)) ->
  (forall p, length p = length x0 ->
     _min qr self p Y (T self) alpha false = Ok zero)
  /\ (exists fitted,
        _GA qr minimize self x0 Y (T self) alpha B false = Ok fitted)
  /\ Global qr minimize self sel x0 B alpha false = Raise IndexError.
Proof.
  intros Hqr Hw Hsized Hx0 HK Hsel HY HM Hrank.
  destruct (_GA_returns qr minimize self x0 Y (T self) alpha B K 0)
    as (x & D & Hrun & Hlen & HgenD & HD & HX & HP & HGA); auto.
  split.
  { intros p Hp.
    destruct (_genD_has_shape self p (T self) Hw) as (Dp & Hp1 & Hp2).
    replace (length p) with K in Hp2 by lia.
    unfold _min. rewrite Hp1. cbn [bind].
    rewrite (residual_returns qr Dp Y alpha (length (T self)) K 0)
      by assumption.
    f_equal. apply sum_squares_no_column. apply msub_no_column, HY. }
  split; [eexists; exact HGA|].
  assert (Hplot : forall taus : vec F, length taus = K ->
            _plot_res Y idx taus (DAS_of qr D Y alpha)
              (matmul D (DAS_of qr D Y alpha)) (T self) = Raise IndexError).
  { intros taus Htaus. unfold _plot_res. destruct HX as [HXl HXr].
    rewrite for_in_skip.
    - cbn [bind]. rewrite (getcol_outside Y 0 0); [reflexivity | | |].
      + apply HY.
      + destruct HY as [HYl _]. lia.
      + right. simpl. lia.
    - intros i Hi. unfold range in Hi. apply in_seq in Hi.
      rewrite (getitem_first _ []) by lia. cbn [bind].
      rewrite (getitem_nat _ i []) by lia. cbn [bind].
      rewrite (getitem_nat taus i zero) by lia. reflexivity. }
  unfold Global. rewrite Hsel. cbn [bind snd fst]. rewrite HGA.
  cbn [bind snd fst].
  rewrite Hplot; [reflexivity | lia].
Qed.

(** ** The linear solve on arrays that do not match *)

Section ProductOfLine99.
Context {F : Type} {AF : Arith F}.
Variable qr : matrix F -> matrix F * matrix F.

(** Lines 90-99 on arrays with a first row: [_getDAS] up to the product
    [Qt.dot(Y_aug)]. *)
Lemma _getDAS_up_to_product (D Y : matrix F) (alpha : F) (M M' K N : nat) :
  shape D M K -> shape Y M' N -> 0 < M -> 0 < M' ->
  _getDAS qr D Y alpha
  = (QtY <- np_dot (transpose (fst (qr (D_aug D alpha)))) (Y_aug D Y alpha) ;;
     back_substitute (snd (qr (D_aug D alpha))) QtY (repeat (repeat zero N) K)).
Proof.
  intros HD HY HM HM'.
  assert (E : forall k, (Z.of_nat k <? 0)%Z = false)
    by (intros; apply Z.ltb_ge; lia).
  assert (Haug : (if nonzero alpha
                  then d0 <- getitem D 0 ;;
                       da0 <- getitem
                                (D ++ scale (root alpha) (np_identity (length d0))) 0 ;;
                       y0 <- getitem Y 0 ;;
                       Z0 <- np_zeros (length da0) (Z.of_nat (length y0)) ;;
                       Ok (D ++ scale (root alpha) (np_identity (length d0)), Y ++ Z0)
                  else Ok (D, Y))
                 = Ok (D_aug D alpha, Y_aug D Y alpha)).
  { unfold D_aug, Y_aug. destruct (nonzero alpha); [|reflexivity].
    rewrite (getitem_first D []) by (destruct HD as [-> _]; lia). cbn [bind].
    rewrite (getitem_first (D ++ _) [])
      by (rewrite length_app; destruct HD as [-> _]; lia).
    cbn [bind].
    rewrite (getitem_first Y []) by (destruct HY as [-> _]; lia). cbn [bind].
    unfold np_zeros. rewrite E, Nat2Z.id. cbn [bind].
    rewrite app_nth1 by (destruct HD as [-> _]; lia). reflexivity. }
  unfold _getDAS.
  match goal with
  | |- bind ?r _ = _ =>
      replace r with (Ok (D_aug D alpha, Y_aug D Y alpha))
        by (symmetry; exact Haug)
  end.
  cbn [bind fst snd].
  assert (Hd0 : length (nth 0 (D_aug D alpha) []) = K).
  { unfold D_aug. destruct (nonzero alpha).
    - rewrite app_nth1 by (destruct HD as [-> _]; lia).
      apply (shape_row D M K 0 HD HM).
    - apply (shape_row D M K 0 HD HM). }
  assert (Hy0 : length (nth 0 (Y_aug D Y alpha) []) = N).
  { unfold Y_aug. destruct (nonzero alpha).
    - rewrite app_nth1 by (destruct HY as [-> _]; lia).
      apply (shape_row Y M' N 0 HY HM').
    - apply (shape_row Y M' N 0 HY HM'). }
  rewrite (getitem_first (D_aug D alpha) [])
    by (unfold D_aug; destruct (nonzero alpha); rewrite ?length_app;
        destruct HD as [-> _]; lia).
  cbn [bind].
  rewrite (getitem_first (Y_aug D Y alpha) [])
    by (unfold Y_aug; destruct (nonzero alpha); rewrite ?length_app;
        destruct HY as [-> _]; lia).
  cbn [bind]. unfold np_zeros. rewrite E, Nat2Z.id, Hd0, Hy0. reflexivity.
Qed.

(** [Q] has as many rows as [D_aug], and [Y_aug] has another number. *)
Lemma product_rejects (D Y : matrix F) (alpha : F) (M M' K N : nat) :
  qr_shapes qr ->
  shape D M K -> shape Y M' N -> M <> M' -> 0 < M -> 0 < K ->
  (nonzero alpha = false -> K <= M) ->
  np_dot (transpose (fst (qr (D_aug D alpha)))) (Y_aug D Y alpha)
  = Raise ValueError.
Proof.
  intros Hqr HD HY Hne HM HK Hrank.
  pose proof (shape_D_aug D alpha M K HD HM) as HDa.
  fold (@D_aug F AF D alpha) in HDa.
  assert (HYa : length (Y_aug D Y alpha) = if nonzero alpha then M' + K else M').
  { unfold Y_aug. destruct (nonzero alpha); [|apply HY].
    rewrite length_app, repeat_length, (shape_row D M K 0 HD HM).
    destruct HY as [-> _]. reflexivity. }
  assert (HQ : shape (fst (qr (D_aug D alpha)))
                 (if nonzero alpha then M + K else M) K).
  { apply Hqr; [exact HDa|]. destruct (nonzero alpha); [lia | auto]. }
  assert (HQt : shape (transpose (fst (qr (D_aug D alpha)))) K
                  (if nonzero alpha then M + K else M)).
  { apply shape_transpose; [exact HQ | destruct (nonzero alpha); lia]. }
  unfold np_dot.
  destruct (transpose (fst (qr (D_aug D alpha)))) as [|row Qt] eqn:EQt.
  - destruct HQt as [HQl _]. simpl in HQl. lia.
  - destruct HQt as [_ HQr]. pose proof (Forall_inv HQr) as Hrow.
    cbv beta in Hrow. cbn [forallb]. rewrite Hrow, HYa.
    destruct (nonzero alpha).
    + assert (E' : (M + K =? M' + K) = false) by (apply Nat.eqb_neq; lia).
      now rewrite E'.
    + assert (E' : (M =? M') = false) by (apply Nat.eqb_neq; lia).
      now rewrite E'.
Qed.
End ProductOfLine99.

(** X13.  [_getDAS] on a [D] of [M] rows and a [Y] with another number of
    rows ends in the [ValueError] of the product [Qt.dot(Y_aug)], with or
    without regularization: the factor [Q] has as many rows as the array
    factorized, and [Y_aug] has not. *)
Theorem getDAS_rejects_data_of_other_length
  {F : Type} {AF : Arith F}
  (qr : matrix F -> matrix F * matrix F) (D Y : matrix F) (alpha : F)
  (M M' K N : nat) :
  qr_shapes qr ->
  shape D M K -> shape Y M' N -> M <> M' -> 0 < M -> 0 < M' -> 0 < K ->
  (nonzero alpha = false -> K <= M) ->
  _getDAS qr D Y alpha = Raise ValueError.
Proof.
  intros Hqr HD HY Hne HM HM' HK Hrank.
  rewrite (_getDAS_up_to_product qr D Y alpha M M' K N HD HY HM HM').
  rewrite (product_rejects qr D Y alpha M M' K N) by assumption.
  reflexivity.
Qed.

(** X14.  On an empty time grid, the width not fitted, the decay matrix has
    no row, whatever the stored width, and with regularization [_getDAS]
    reads its first row, [D[0]]: the objective [_min] ends in an
    [IndexError].  With the width fitted the objective does not get that
    far: no decay matrix is returned. *)
Theorem min_on_empty_time_grid_raises
  {F : Type} {AF : Arith F} {SF : Special F}
  (qr : matrix F -> matrix F * matrix F) (self : SVD_GA F)
  (taus : vec F) (Y : matrix F) (alpha : F) :
  nonzero alpha = true ->
  _genD self taus [] false = Ok []
  /\ _getDAS qr [] Y alpha = Raise IndexError
  /\ _min qr self taus Y [] alpha false = Raise IndexError
  /\ _min qr self taus Y [] alpha true
     = Raise (match taus with [] => ValueError | _ => NameError end).
Proof.
  intros Ha.
  assert (HD : _genD self taus [] false = Ok []) by apply _genD_no_time.
  assert (HX : _getDAS qr [] Y alpha = Raise IndexError).
  { unfold _getDAS. rewrite Ha. reflexivity. }
  split; [exact HD|]. split; [exact HX|]. split.
  - unfold _min, residual. rewrite HD. cbn [bind]. now rewrite HX.
  - unfold _min. rewrite _genD_fitted_width. now destruct taus.
Qed.

(** ** The linear solve in exact arithmetic *)

Section TriangularUnique.
Local Open Scope R_scope.
Variables (Rm : matrix R) (K : nat).
Hypothesis upper : forall i k, (k < i)%nat -> (i < K)%nat -> ent Rm i k = 0.
Hypothesis diagonal : regular_diagonal Rm K.

(** A regular triangular system has one solution. *)
Lemma triangular_unique (x y : nat -> R) :
  (forall i, (i < K)%nat ->
     bigsum K (fun k => ent Rm i k * x k) = bigsum K (fun k => ent Rm i k * y k)) ->
  forall i, (i < K)%nat -> x i = y i.
Proof.
  intros Heq.
  assert (Hgen : forall n i, (K - i <= n)%nat -> (i < K)%nat -> x i = y i).
  { induction n as [|n IH]; intros i Hn Hi; [lia|].
    assert (Hzero : bigsum K (fun k => ent Rm i k * (x k - y k)) = 0).
    { rewrite (bigsum_ext K _ (fun k => ent Rm i k * x k - ent Rm i k * y k))
        by (intros; ring).
      rewrite bigsum_minus, (Heq i Hi). ring. }
    rewrite (bigsum_single K i) in Hzero.
    - pose proof (diagonal i Hi) as Hd.
      apply Rmult_integral in Hzero. destruct Hzero; [contradiction | lra].
    - exact Hi.
    - intros k Hk Hne. destruct (Nat.lt_ge_cases k i) as [Hlt|Hge].
      + rewrite upper by lia. ring.
      + rewrite (IH k) by lia. ring. }
  intros i Hi. apply (Hgen (K - i)%nat); [lia | exact Hi].
Qed.
End TriangularUnique.

Section FactorAlgebra.
Local Open Scope R_scope.
Variables (m K : nat).
Variables (a q r : nat -> nat -> R).
Hypothesis a_qr : forall i j, (i < m)%nat -> (j < K)%nat ->
  a i j = bigsum K (fun k => q i k * r k j).
Hypothesis q_orth : forall k l, (k < K)%nat -> (l < K)%nat ->
  bigsum m (fun i => q i k * q i l) = if (k =? l)%nat then 1 else 0.

(** [qT a = r] *)
Lemma qt_a (k j : nat) :
  (k < K)%nat -> (j < K)%nat -> bigsum m (fun i => q i k * a i j) = r k j.
Proof.
  intros Hk Hj.
  rewrite (bigsum_ext m _
             (fun i => bigsum K (fun l => (q i k * q i l) * r l j))).
  - rewrite bigsum_swap.
    rewrite (bigsum_ext K _
               (fun l => (if (k =? l)%nat then 1 else 0) * r l j)).
    + rewrite (bigsum_single K k).
      * rewrite Nat.eqb_refl. ring.
      * exact Hk.
      * intros l _ Hl. destruct (Nat.eqb_spec k l); [congruence | ring].
    + intros l Hl. rewrite bigsum_scal_r. f_equal. now apply q_orth.
  - intros i Hi. rewrite (a_qr i j Hi Hj), <- bigsum_scal.
    apply bigsum_ext. intros l _. ring.
Qed.

(** [qT (a x) = r x] *)
Lemma qt_a_x (x : nat -> R) (k : nat) :
  (k < K)%nat ->
  bigsum m (fun i => q i k * bigsum K (fun j => a i j * x j))
  = bigsum K (fun j => r k j * x j).
Proof.
  intros Hk.
  rewrite (bigsum_ext m _
             (fun i => bigsum K (fun j => (q i k * a i j) * x j))).
  - rewrite bigsum_swap. apply bigsum_ext. intros j Hj.
    rewrite bigsum_scal_r. f_equal. now apply qt_a.
  - intros i Hi. rewrite <- bigsum_scal. apply bigsum_ext. intros j _. ring.
Qed.
End FactorAlgebra.

Section ExactSolve.
Local Open Scope R_scope.

Lemma is_qr_entries (A Q Rm : matrix R) (m K : nat) :
  (0 < m)%nat -> is_qr A Q Rm m K ->
  (forall i j, (i < m)%nat -> (j < K)%nat ->
     ent A i j = bigsum K (fun k => ent Q i k * ent Rm k j))
  /\ (forall k l, (k < K)%nat -> (l < K)%nat ->
        bigsum m (fun i => ent Q i k * ent Q i l) = if (k =? l)%nat then 1 else 0).
Proof.
  intros Hm (HQ & HRm & HQR & Horth & _). split.
  - intros i j Hi Hj. rewrite <- HQR.
    destruct (Nat.eq_dec K 0) as [->|HK]; [lia|].
    apply (ent_matmul Q Rm m K K); auto. lia.
  - intros k l Hk Hl.
    assert (HQt : shape (transpose Q) K m) by (apply shape_transpose; auto).
    rewrite <- (ent_identity K k l Hk Hl), <- Horth.
    rewrite (ent_matmul (transpose Q) Q K m K k l HQt HQ Hm Hk Hl).
    apply bigsum_ext. intros i Hi. f_equal.
    symmetry. now apply (ent_transpose Q m K).
Qed.

(** The entries of the back substitution solve [R X = Z]. *)
Lemma solve_entries (Rm Z : matrix R) (K N : nat) :
  shape Rm K K -> shape Z K N ->
  (forall i k, (k < i)%nat -> (i < K)%nat -> ent Rm i k = 0) ->
  regular_diagonal Rm K ->
  forall i c, (i < K)%nat -> (c < N)%nat ->
    bigsum K (fun k => ent Rm i k * ent (solve Rm Z) k c) = ent Z i c.
Proof.
  intros HRm HZ Hupper Hdiag i c Hi Hc.
  assert (Hsolve : solve Rm Z = textbook_from Rm Z N K 0).
  { unfold solve. destruct HZ as [HZl HZr]. rewrite HZl.
    apply solve_from_textbook; [exact HZr | lia]. }
  rewrite Hsolve.
  apply (textbook_solves Rm Z K N HRm HZ Hupper Hdiag i c Hi Hc).
Qed.

(** Back substitution against [QT (A X0)] gives [X0] back. *)
Lemma solve_recovers (A Q Rm X0 : matrix R) (m K N : nat) :
  shape A m K -> shape X0 K N -> (0 < m)%nat -> (0 < K)%nat ->
  is_qr A Q Rm m K -> regular_diagonal Rm K ->
  solve Rm (matmul (transpose Q) (matmul A X0)) = X0.
Proof.
  intros HA HX0 Hm HK Hqr Hdiag.
  destruct (is_qr_entries A Q Rm m K Hm Hqr) as [Ha_qr Hq_orth].
  destruct Hqr as (HQ & HRm & HQR & Horth & Hupper).
  assert (HQt : shape (transpose Q) K m) by (apply shape_transpose; auto).
  assert (HY : shape (matmul A X0) m N) by (apply (shape_matmul _ _ m K N); auto).
  set (Z := matmul (transpose Q) (matmul A X0)).
  assert (HZ : shape Z K N) by (apply (shape_matmul _ _ K m N); auto).
  apply (matrix_ext _ _ K N); [now apply shape_solve | exact HX0|].
  intros i c Hi Hc.
  apply (triangular_unique Rm K Hupper Hdiag
           (fun k => ent (solve Rm Z) k c) (fun k => ent X0 k c)); [|exact Hi].
  intros k Hk.
  rewrite (solve_entries Rm Z K N HRm HZ Hupper Hdiag k c Hk Hc).
  unfold Z. rewrite (ent_matmul (transpose Q) _ K m N k c HQt HY Hm Hk Hc).
  rewrite <- (qt_a_x m K (ent A) (ent Q) (ent Rm) Ha_qr Hq_orth
                (fun j => ent X0 j c) k Hk).
  apply bigsum_ext. intros l Hl.
  rewrite (ent_transpose Q m K l k HQ Hl Hk). f_equal.
  apply (ent_matmul A X0 m K N); auto.
Qed.

Lemma sum_squares_nonneg (E : matrix R) : 0 <= sum_squares E.
Proof.
  unfold sum_squares. rewrite total_bigsum. apply bigsum_nonneg.
  intros i Hi. rewrite length_map in Hi.
  rewrite (nth_map_lt sqr _ _ 0 0) by exact Hi.
  unfold sqr. cbn [mul R_Arith]. nra.
Qed.

Lemma sum_squares_self (A : matrix R) (m n : nat) :
  shape A m n -> sum_squares (msub A A) = 0.
Proof.
  intros HA. rewrite (sum_squares_bigsum _ m n) by now apply shape_msub.
  apply bigsum_0. intros i Hi. apply bigsum_0. intros j Hj.
  rewrite (ent_msub A A m n i j HA HA Hi Hj). ring.
Qed.

Lemma D_aug_zero (D : matrix R) : D_aug D 0 = D.
Proof.
  unfold D_aug. cbn [nonzero R_Arith].
  now rewrite (proj2 (Rnonzero_false 0) eq_refl).
Qed.

Lemma Y_aug_zero (D Y : matrix R) : Y_aug D Y 0 = Y.
Proof.
  unfold Y_aug. cbn [nonzero R_Arith].
  now rewrite (proj2 (Rnonzero_false 0) eq_refl).
Qed.
End ExactSolve.

(** X15.  Without regularization and in exact arithmetic, [_getDAS] undoes
    the product with [D]: for data [Y = D X0] made from amplitudes [X0], and
    a factorization of [D] whose [R] has no zero on its diagonal ([D] has
    full column rank), it returns [X0], and the residual of the fit is 0. *)
Theorem getDAS_recovers_amplitudes
  (qr : matrix R -> matrix R * matrix R) (D X0 : matrix R) (M K N : nat) :
  shape D M K -> shape X0 K N -> 0 < M -> 0 < K ->
  is_qr D (fst (qr D)) (snd (qr D)) M K ->
  regular_diagonal (snd (qr D)) K ->
  _getDAS qr D (matmul D X0) 0%R = Ok X0
  /\ residual qr D (matmul D X0) 0%R = Ok 0%R.
Proof.
  intros HD HX0 HM HK Hqr Hdiag.
  assert (HY : shape (matmul D X0) M N) by (apply (shape_matmul _ _ M K N); auto).
  assert (HX : DAS_of qr D (matmul D X0) 0%R = X0).
  { unfold DAS_of. rewrite D_aug_zero, Y_aug_zero.
    now apply (solve_recovers D _ _ X0 M K N). }
  assert (Hqr' : is_qr (D_aug D 0%R) (fst (qr (D_aug D 0%R)))
                   (snd (qr (D_aug D 0%R)))
                   (if Rnonzero 0%R then M + K else M) K).
  { rewrite D_aug_zero, (proj2 (Rnonzero_false 0%R) eq_refl). exact Hqr. }
  split.
  - rewrite (_getDAS_solve_at qr D (matmul D X0) 0%R M K N); auto.
    + fold (DAS_of qr D (matmul D X0) 0%R). now rewrite HX.
    + apply Hqr'.
    + apply Hqr'.
  - destruct (residual_at qr D (matmul D X0) 0%R M K N HD HY HM HK Hqr')
      as [-> _].
    rewrite HX. f_equal. now apply (sum_squares_self _ M N).
Qed.

Section RidgeBounds.
Local Open Scope R_scope.
Variable qr : matrix R -> matrix R * matrix R.

Lemma ridge_objective_zero (D Y : matrix R) (alpha : R) (M K N : nat) :
  shape D M K -> shape Y M N -> (0 < K)%nat ->
  ridge_objective D Y alpha (repeat (repeat 0 N) K) = sum_squares Y.
Proof.
  intros HD HY HK. unfold ridge_objective.
  pose proof (shape_repeat 0 K N) as H0.
  assert (HP : shape (matmul D (repeat (repeat 0 N) K)) M N)
    by (apply (shape_matmul _ _ M K N); auto).
  rewrite (sum_squares_bigsum (repeat (repeat 0 N) K) K N H0).
  rewrite (bigsum_0 K) by (intros i _; apply bigsum_0; intros j _;
                           rewrite ent_zeros; ring).
  rewrite (sum_squares_bigsum _ M N) by now apply shape_msub.
  rewrite (sum_squares_bigsum Y M N HY), Rmult_0_r, Rplus_0_r.
  apply bigsum_ext. intros i Hi. apply bigsum_ext. intros j Hj.
  rewrite (ent_msub Y _ M N i j HY HP Hi Hj).
  rewrite (ent_matmul D _ M K N i j HD H0 HK Hi Hj).
  rewrite (bigsum_0 K) by (intros l _; rewrite ent_zeros; ring).
  ring.
Qed.

(** The factor [R] is regular for [alpha > 0], and by assumption at 0. *)
Lemma regular_at (D : matrix R) (alpha : R) (M K : nat) :
  shape D M K -> (0 < M)%nat -> 0 <= alpha ->
  is_qr (D_aug D alpha) (fst (qr (D_aug D alpha))) (snd (qr (D_aug D alpha)))
        (if Rnonzero alpha then M + K else M)%nat K ->
  (alpha = 0 -> regular_diagonal (snd (qr (D_aug D alpha))) K) ->
  regular_diagonal (snd (qr (D_aug D alpha))) K.
Proof.
  intros HD HM Ha Hqr Hrank.
  destruct (Req_dec_T alpha 0) as [H0|Hne]; [now apply Hrank|].
  apply (is_qr_regular D (fst (qr (D_aug D alpha))) _ alpha M K HD HM); [lra|].
  now rewrite (proj2 (Rnonzero_true alpha) Hne) in Hqr.
Qed.
End RidgeBounds.

(** X16.  In exact arithmetic, for [alpha >= 0] and a factorization by
    [np.linalg.qr] (with, at [alpha = 0], an [R] without zero on its
    diagonal), the objective [_min] lies between 0 and the sum of the
    squares of the data: the fit is never worse than amplitudes that are all
    zero. *)
Theorem min_between_zero_and_data
  (qr : matrix R -> matrix R * matrix R) (self : SVD_GA R)
  (taus Ts : vec R) (fit_irf : bool) (D Y : matrix R) (alpha : R)
  (M K N : nat) :
  _genD self taus Ts fit_irf = Ok D ->
  shape D M K -> shape Y M N -> 0 < M -> 0 < K -> (0 <= alpha)%R ->
  is_qr (D_aug D alpha) (fst (qr (D_aug D alpha))) (snd (qr (D_aug D alpha)))
        (if Rnonzero alpha then M + K else M) K ->
  (alpha = 0%R -> regular_diagonal (snd (qr (D_aug D alpha))) K) ->
  exists r : R,
    _min qr self taus Y Ts alpha fit_irf = Ok r
    /\ (0 <= r <= sum_squares Y)%R.
Proof.
  intros HgenD HD HY HM HK Ha Hqr Hrank.
  pose proof (regular_at qr D alpha M K HD HM Ha Hqr Hrank) as Hdiag.
  destruct (residual_at qr D Y alpha M K N HD HY HM HK Hqr) as [Hr HX].
  unfold _min. rewrite HgenD. cbn [bind]. rewrite Hr.
  eexists. split; [reflexivity|]. split; [apply sum_squares_nonneg|].
  pose proof (DAS_of_minimizes qr D Y alpha M K N HD HY HM HK Ha Hqr Hdiag
                _ (shape_repeat 0%R K N)) as Hmin.
  rewrite (ridge_objective_zero D Y alpha M K N HD HY HK) in Hmin.
  unfold ridge_objective in Hmin.
  pose proof (sum_squares_nonneg (DAS_of qr D Y alpha)) as Hp.
  nra.
Qed.

(** X17.  In exact arithmetic, for [0 <= alpha1 < alpha2] and
    factorizations by [np.linalg.qr] at both weights (with, at [alpha1 = 0],
    an [R] without zero on its diagonal), the amplitudes that [_getDAS]
    returns at [alpha2] have a sum of squares no larger than those at
    [alpha1]: the regularization shrinks the amplitudes. *)
Theorem getDAS_amplitudes_shrink_with_alpha
  (qr : matrix R -> matrix R * matrix R) (D Y : matrix R)
  (alpha1 alpha2 : R) (M K N : nat) :
  shape D M K -> shape Y M N -> 0 < M -> 0 < K ->
  (0 <= alpha1 < alpha2)%R ->
  is_qr (D_aug D alpha1) (fst (qr (D_aug D alpha1))) (snd (qr (D_aug D alpha1)))
        (if Rnonzero alpha1 then M + K else M) K ->
  is_qr (D_aug D alpha2) (fst (qr (D_aug D alpha2))) (snd (qr (D_aug D alpha2)))
        (M + K) K ->
  (alpha1 = 0%R -> regular_diagonal (snd (qr (D_aug D alpha1))) K) ->
  exists X1 X2 : matrix R,
    _getDAS qr D Y alpha1 = Ok X1
    /\ _getDAS qr D Y alpha2 = Ok X2
    /\ (sum_squares X2 <= sum_squares X1)%R.
Proof.
  intros HD HY HM HK Ha Hqr1 Hqr2 Hrank.
  assert (Hnz : Rnonzero alpha2 = true) by (apply Rnonzero_true; lra).
  assert (Hqr2' : is_qr (D_aug D alpha2) (fst (qr (D_aug D alpha2)))
                    (snd (qr (D_aug D alpha2)))
                    (if Rnonzero alpha2 then M + K else M) K)
    by now rewrite Hnz.
  pose proof (regular_at qr D alpha1 M K HD HM ltac:(lra) Hqr1 Hrank) as Hdiag1.
  pose proof (regular_at qr D alpha2 M K HD HM ltac:(lra) Hqr2' ltac:(lra))
    as Hdiag2.
  destruct (residual_at qr D Y alpha1 M K N HD HY HM HK Hqr1) as [_ HX1].
  destruct (residual_at qr D Y alpha2 M K N HD HY HM HK Hqr2') as [_ HX2].
  exists (DAS_of qr D Y alpha1), (DAS_of qr D Y alpha2).
  split; [|split].
  - apply (_getDAS_solve_at qr D Y alpha1 M K N); auto; apply Hqr1.
  - apply (_getDAS_solve_at qr D Y alpha2 M K N); auto; apply Hqr2'.
  - pose proof (DAS_of_minimizes qr D Y alpha1 M K N HD HY HM HK
                  ltac:(lra) Hqr1 Hdiag1 _ HX2) as H1.
    pose proof (DAS_of_minimizes qr D Y alpha2 M K N HD HY HM HK
                  ltac:(lra) Hqr2' Hdiag2 _ HX1) as H2.
    unfold ridge_objective in H1, H2.
    set (r1 := sum_squares (msub Y (matmul D (DAS_of qr D Y alpha1)))) in *.
    set (r2 := sum_squares (msub Y (matmul D (DAS_of qr D Y alpha2)))) in *.
    set (p1 := sum_squares (DAS_of qr D Y alpha1)) in *.
    set (p2 := sum_squares (DAS_of qr D Y alpha2)) in *.
    nra.
Qed.

Section LeastSquaresUnique.
Local Open Scope R_scope.

Lemma bigsum_squares_zero (n : nat) (f : nat -> R) :
  bigsum n (fun i => f i * f i) = 0 -> forall i, (i < n)%nat -> f i = 0.
Proof.
  induction n as [|n IH]; intros H i Hi; [lia|].
  cbn [bigsum] in H.
  assert (H1 : 0 <= bigsum n (fun i => f i * f i))
    by (apply bigsum_nonneg; intros; nra).
  assert (H2 : 0 <= f n * f n) by nra.
  destruct (Nat.eq_dec i n) as [->|Hne].
  - assert (H3 : f n * f n = 0) by lra.
    apply Rmult_integral in H3. now destruct H3.
  - apply IH; [lra | lia].
Qed.

Variables (m K : nat) (Rm : matrix R).
Variables (a q : nat -> nat -> R).
Hypothesis a_qr : forall i j, (i < m)%nat -> (j < K)%nat ->
  a i j = bigsum K (fun k => q i k * ent Rm k j).
Hypothesis q_orth : forall k l, (k < K)%nat -> (l < K)%nat ->
  bigsum m (fun i => q i k * q i l) = if (k =? l)%nat then 1 else 0.
Hypothesis upper : forall i k, (k < i)%nat -> (i < K)%nat -> ent Rm i k = 0.
Hypothesis diagonal : regular_diagonal Rm K.

(** [aT a w = 0] only for [w = 0]. *)
Lemma normal_kernel (w : nat -> R) :
  (forall j, (j < K)%nat ->
     bigsum m (fun i => a i j * bigsum K (fun k => a i k * w k)) = 0) ->
  forall k, (k < K)%nat -> w k = 0.
Proof.
  intros Hw.
  set (g := fun i => bigsum K (fun k => a i k * w k)).
  assert (Hsq : bigsum m (fun i => g i * g i) = 0).
  { rewrite (bigsum_ext m _ (fun i => bigsum K (fun j => w j * (a i j * g i)))).
    - rewrite bigsum_swap. apply bigsum_0. intros j Hj.
      rewrite bigsum_scal. unfold g. rewrite (Hw j Hj). ring.
    - intros i Hi. unfold g at 1. rewrite <- bigsum_scal_r.
      apply bigsum_ext. intros j _. ring. }
  pose proof (bigsum_squares_zero m g Hsq) as Hg.
  apply (triangular_unique Rm K upper diagonal w (fun _ => 0)).
  intros k Hk.
  rewrite <- (qt_a_x m K a q (ent Rm) a_qr q_orth w k Hk).
  rewrite (bigsum_0 K (fun l => ent Rm k l * 0)) by (intros; ring).
  apply bigsum_0. intros i Hi. fold (g i). rewrite (Hg i Hi). ring.
Qed.
End LeastSquaresUnique.

Section FactorizationFree.
Local Open Scope R_scope.

(** The normal equations of the back substitution against [QT B]. *)
Lemma solve_normal_equations (A B Q Rm : matrix R) (m K N : nat) :
  shape A m K -> shape B m N -> (0 < m)%nat -> (0 < K)%nat ->
  is_qr A Q Rm m K -> regular_diagonal Rm K ->
  forall j c, (j < K)%nat -> (c < N)%nat ->
    bigsum m (fun i =>
      ent A i j * res_at K (ent A) (ent B)
                    (ent (solve Rm (matmul (transpose Q) B))) i c) = 0.
Proof.
  intros HA HB Hm HK Hqr Hdiag j c Hj Hc.
  destruct (is_qr_entries A Q Rm m K Hm Hqr) as [Ha_qr Hq_orth].
  destruct Hqr as (HQ & HRm & HQR & Horth & Hupper).
  assert (HQt : shape (transpose Q) K m) by (apply shape_transpose; auto).
  assert (HZ : shape (matmul (transpose Q) B) K N)
    by (apply (shape_matmul _ _ K m N); auto).
  apply (normal_equations m K N (ent A) (ent Q) (ent Rm)); auto.
  intros k c' Hk Hc'.
  rewrite (solve_entries Rm _ K N HRm HZ Hupper Hdiag k c' Hk Hc').
  rewrite (ent_matmul (transpose Q) B K m N k c' HQt HB Hm Hk Hc').
  apply bigsum_ext. intros i Hi. f_equal.
  now apply (ent_transpose Q m K).
Qed.

(** Two factorizations of one array give the same solution. *)
Lemma solves_agree (A B Q1 R1 Q2 R2 : matrix R) (m K N : nat) :
  shape A m K -> shape B m N -> (0 < m)%nat -> (0 < K)%nat ->
  is_qr A Q1 R1 m K -> regular_diagonal R1 K ->
  is_qr A Q2 R2 m K -> regular_diagonal R2 K ->
  solve R1 (matmul (transpose Q1) B) = solve R2 (matmul (transpose Q2) B).
Proof.
  intros HA HB Hm HK Hqr1 Hd1 Hqr2 Hd2.
  pose proof (solve_normal_equations A B Q1 R1 m K N HA HB Hm HK Hqr1 Hd1) as N1.
  pose proof (solve_normal_equations A B Q2 R2 m K N HA HB Hm HK Hqr2 Hd2) as N2.
  destruct (is_qr_entries A Q1 R1 m K Hm Hqr1) as [Ha_qr Hq_orth].
  destruct Hqr1 as (HQ1 & HR1 & _ & _ & Hupper1).
  destruct Hqr2 as (HQ2 & HR2 & _ & _ & _).
  set (X1 := solve R1 (matmul (transpose Q1) B)) in *.
  set (X2 := solve R2 (matmul (transpose Q2) B)) in *.
  assert (HX1 : shape X1 K N).
  { apply shape_solve, (shape_matmul _ _ K m N); auto.
    apply shape_transpose; auto. }
  assert (HX2 : shape X2 K N).
  { apply shape_solve, (shape_matmul _ _ K m N); auto.
    apply shape_transpose; auto. }
  apply (matrix_ext X1 X2 K N HX1 HX2). intros k c Hk Hc.
  assert (Hw : ent X1 k c - ent X2 k c = 0); [|lra].
  apply (normal_kernel m K R1 (ent A) (ent Q1) Ha_qr Hq_orth Hupper1 Hd1
           (fun l => ent X1 l c - ent X2 l c)); [|exact Hk].
  intros j Hj. specialize (N1 j c Hj Hc). specialize (N2 j c Hj Hc).
  unfold res_at in N1, N2.
  rewrite (bigsum_ext m _
             (fun i =>
                ent A i j * (ent B i c - bigsum K (fun l => ent A i l * ent X2 l c))
                - ent A i j * (ent B i c - bigsum K (fun l => ent A i l * ent X1 l c)))).
  - rewrite bigsum_minus, N1, N2. ring.
  - intros i Hi.
    rewrite (bigsum_ext K (fun l => ent A i l * (ent X1 l c - ent X2 l c))
               (fun l => ent A i l * ent X1 l c - ent A i l * ent X2 l c))
      by (intros; ring).
    rewrite bigsum_minus. ring.
Qed.
End FactorizationFree.

(** X18.  In exact arithmetic the amplitudes do not depend on which
    factorization [np.linalg.qr] returns: for [alpha >= 0], two routines
    that both return a factorization of the array that [_getDAS] hands them
    (with, at [alpha = 0], factors [R] without zero on their diagonals) make
    [_getDAS] return the same array. *)
Theorem getDAS_independent_of_factorization
  (qr1 qr2 : matrix R -> matrix R * matrix R) (D Y : matrix R) (alpha : R)
  (M K N : nat) :
  shape D M K -> shape Y M N -> 0 < M -> 0 < K -> (0 <= alpha)%R ->
  is_qr (D_aug D alpha) (fst (qr1 (D_aug D alpha))) (snd (qr1 (D_aug D alpha)))
        (if Rnonzero alpha then M + K else M) K ->
  is_qr (D_aug D alpha) (fst (qr2 (D_aug D alpha))) (snd (qr2 (D_aug D alpha)))
        (if Rnonzero alpha then M + K else M) K ->
  (alpha = 0%R -> regular_diagonal (snd (qr1 (D_aug D alpha))) K
                  /\ regular_diagonal (snd (qr2 (D_aug D alpha))) K) ->
  exists X : matrix R,
    _getDAS qr1 D Y alpha = Ok X /\ _getDAS qr2 D Y alpha = Ok X.
Proof.
  intros HD HY HM HK Ha Hqr1 Hqr2 Hrank.
  pose proof (regular_at qr1 D alpha M K HD HM Ha Hqr1
                (fun H => proj1 (Hrank H))) as Hd1.
  pose proof (regular_at qr2 D alpha M K HD HM Ha Hqr2
                (fun H => proj2 (Hrank H))) as Hd2.
  pose proof (shape_D_aug D alpha M K HD HM) as HDa.
  pose proof (shape_Y_aug D Y alpha M K N HD HY HM) as HYa.
  cbn [nonzero R_Arith] in HDa, HYa.
  exists (DAS_of qr1 D Y alpha). split.
  - apply (_getDAS_solve_at qr1 D Y alpha M K N); auto; apply Hqr1.
  - rewrite (_getDAS_solve_at qr2 D Y alpha M K N); auto; try apply Hqr2.
    f_equal. unfold DAS_of. symmetry.
    apply (solves_agree (D_aug D alpha) (Y_aug D Y alpha) _ _ _ _
             (if Rnonzero alpha then M + K else M)%nat K N); auto.
    destruct (Rnonzero alpha); lia.
Qed.

Section RidgeEquations.
Local Open Scope R_scope.

Lemma ent_app_above (A1 A2 : matrix R) (i j : nat) :
  (i < length A1)%nat -> ent (A1 ++ A2) i j = ent A1 i j.
Proof. intros Hi. unfold ent. now rewrite app_nth1. Qed.

(** The normal equations of the stacked system, by blocks. *)
Lemma stacked_normal_equations (D Y X : matrix R) (alpha : R) (M K N : nat)
    (j c : nat) :
  shape D M K -> shape Y M N -> shape X K N -> (0 < K)%nat -> 0 <= alpha ->
  (j < K)%nat -> (c < N)%nat ->
  bigsum (M + K) (fun i =>
    ent (D ++ scale (sqrt alpha) (np_identity K)) i j
    * res_at K (ent (D ++ scale (sqrt alpha) (np_identity K)))
        (ent (Y ++ repeat (repeat 0 N) K)) (ent X) i c)
  = bigsum M (fun i => ent D i j * ent (msub Y (matmul D X)) i c)
    - alpha * ent X j c.
Proof.
  intros HD HY HX HK Ha Hj Hc.
  assert (HP : shape (matmul D X) M N) by (apply (shape_matmul _ _ M K N); auto).
  destruct HD as [HDl HDr]. destruct HY as [HYl HYr].
  rewrite bigsum_app. unfold Rminus. f_equal.
  - apply bigsum_ext. intros i Hi. unfold res_at.
    rewrite !ent_app_above by lia. f_equal.
    rewrite (ent_msub Y _ M N i c (conj HYl HYr) HP Hi Hc).
    rewrite (ent_matmul D X M K N i c (conj HDl HDr) HX HK Hi Hc).
    unfold Rminus. f_equal. f_equal.
    apply bigsum_ext. intros l Hl. now rewrite ent_app_above by lia.
  - assert (Hrow : forall i l, (i < K)%nat -> (l < K)%nat ->
              ent (D ++ scale (sqrt alpha) (np_identity K)) (M + i) l
              = sqrt alpha * (if (i =? l)%nat then 1 else 0)).
    { intros i l Hi Hl. rewrite <- HDl, ent_app_below.
      rewrite (ent_scale _ _ K K i l (shape_identity K) Hi Hl).
      now rewrite (ent_identity K i l Hi Hl). }
    rewrite (bigsum_single K j).
    + unfold res_at. rewrite Hrow by lia. rewrite Nat.eqb_refl.
      rewrite <- HYl, ent_app_below, ent_zeros, HYl.
      rewrite (bigsum_single K j).
      * rewrite Hrow by lia. rewrite Nat.eqb_refl.
        pose proof (sqrt_sqrt alpha Ha) as Hs. nra.
      * exact Hj.
      * intros l Hl Hne. rewrite Hrow by lia.
        destruct (Nat.eqb_spec j l); [congruence | ring].
    + exact Hj.
    + intros i Hi Hne. rewrite Hrow by lia.
      destruct (Nat.eqb_spec i j); [congruence | ring].
Qed.
End RidgeEquations.

(** X19.  In exact arithmetic, for [alpha >= 0] and a factorization by
    [np.linalg.qr] (with, at [alpha = 0], an [R] without zero on its
    diagonal), the amplitudes [X] that [_getDAS] returns satisfy the normal
    equations of the ridge problem, [DT (Y - D X) = alpha X]. *)
Theorem getDAS_satisfies_normal_equations
  (qr : matrix R -> matrix R * matrix R) (D Y : matrix R) (alpha : R)
  (M K N : nat) :
  shape D M K -> shape Y M N -> 0 < M -> 0 < K -> (0 <= alpha)%R ->
  is_qr (D_aug D alpha) (fst (qr (D_aug D alpha))) (snd (qr (D_aug D alpha)))
        (if Rnonzero alpha then M + K else M) K ->
  (alpha = 0%R -> regular_diagonal (snd (qr (D_aug D alpha))) K) ->
  exists X : matrix R,
    _getDAS qr D Y alpha = Ok X
    /\ shape X K N
    /\ forall j c, j < K -> c < N ->
         bigsum M (fun i => (ent D i j * ent (msub Y (matmul D X)) i c)%R)
         = (alpha * ent X j c)%R.
Proof.
  intros HD HY HM HK Ha Hqr Hrank.
  pose proof (regular_at qr D alpha M K HD HM Ha Hqr Hrank) as Hdiag.
  destruct (residual_at qr D Y alpha M K N HD HY HM HK Hqr) as [_ HX].
  pose proof (shape_D_aug D alpha M K HD HM) as HDa.
  pose proof (shape_Y_aug D Y alpha M K N HD HY HM) as HYa.
  cbn [nonzero R_Arith] in HDa, HYa.
  exists (DAS_of qr D Y alpha). split; [|split; [exact HX|]].
  - apply (_getDAS_solve_at qr D Y alpha M K N); auto; apply Hqr.
  - intros j c Hj Hc.
    pose proof (solve_normal_equations (D_aug D alpha) (Y_aug D Y alpha) _ _
                  _ K N HDa HYa ltac:(destruct (Rnonzero alpha); lia) HK
                  Hqr Hdiag j c Hj Hc) as Hn.
    fold (DAS_of qr D Y alpha) in Hn.
    destruct (Req_dec_T alpha 0) as [H0|Hne].
    + subst alpha. rewrite D_aug_zero, Y_aug_zero in Hn.
      rewrite (proj2 (Rnonzero_false 0%R) eq_refl) in Hn.
      rewrite Rmult_0_l. etransitivity; [|exact Hn].
      apply bigsum_ext. intros i Hi.
      f_equal. unfold res_at.
      rewrite (ent_msub Y _ M N i c HY) by
        (auto; apply (shape_matmul _ _ M K N); auto).
      now rewrite (ent_matmul D _ M K N i c HD HX HK Hi Hc).
    + rewrite (D_aug_positive D alpha M K HD HM Hne) in Hn.
      rewrite (Y_aug_positive D Y alpha M K N HD HY HM Hne) in Hn.
      rewrite (proj2 (Rnonzero_true alpha) Hne) in Hn.
      rewrite (stacked_normal_equations D Y _ alpha M K N j c) in Hn by auto.
      lra.
Qed.

Section Linearity.
Local Open Scope R_scope.

Lemma ent_madd (A B : matrix R) (m n i j : nat) :
  shape A m n -> shape B m n -> (i < m)%nat -> (j < n)%nat ->
  ent (madd A B) i j = ent A i j + ent B i j.
Proof.
  intros HA HB Hi Hj. unfold ent, madd.
  rewrite (nth_map_lt _ _ _ ([], []))
    by (rewrite length_combine; destruct HA, HB; lia).
  rewrite combine_nth by (destruct HA, HB; lia). cbn [fst snd].
  pose proof (shape_row A m n i HA Hi) as HAi.
  pose proof (shape_row B m n i HB Hi) as HBi.
  apply nth_vadd; lia.
Qed.

Lemma shape_madd (A B : matrix R) (m n : nat) :
  shape A m n -> shape B m n -> shape (madd A B) m n.
Proof.
  intros [HAm HAn] [HBm HBn]. unfold madd. split.
  - rewrite length_map, length_combine. lia.
  - apply Forall_forall. intros row Hrow. apply in_map_iff in Hrow.
    destruct Hrow as ([x y] & <- & Hin). cbn [fst snd].
    rewrite length_vadd.
    rewrite (proj1 (Forall_forall _ A) HAn x (in_combine_l _ _ _ _ Hin)).
    rewrite (proj1 (Forall_forall _ B) HBn y (in_combine_r _ _ _ _ Hin)).
    apply Nat.min_id.
Qed.

(** The entries of [a A + b B] *)
Lemma ent_combination (a b : R) (A B : matrix R) (m n i j : nat) :
  shape A m n -> shape B m n -> (i < m)%nat -> (j < n)%nat ->
  ent (madd (scale a A) (scale b B)) i j = a * ent A i j + b * ent B i j.
Proof.
  intros HA HB Hi Hj.
  rewrite (ent_madd _ _ m n i j) by (auto using shape_scale).
  now rewrite (ent_scale a A m n i j HA Hi Hj), (ent_scale b B m n i j HB Hi Hj).
Qed.

Lemma shape_combination (a b : R) (A B : matrix R) (m n : nat) :
  shape A m n -> shape B m n -> shape (madd (scale a A) (scale b B)) m n.
Proof. intros HA HB. apply shape_madd; now apply shape_scale. Qed.

(** The product is linear in its second factor. *)
Lemma matmul_combination (a b : R) (A B1 B2 : matrix R) (m k n : nat) :
  shape A m k -> shape B1 k n -> shape B2 k n -> (0 < k)%nat ->
  matmul A (madd (scale a B1) (scale b B2))
  = madd (scale a (matmul A B1)) (scale b (matmul A B2)).
Proof.
  intros HA HB1 HB2 Hk.
  pose proof (shape_combination a b B1 B2 k n HB1 HB2) as HB.
  pose proof (shape_matmul A B1 m k n HA HB1 Hk) as HP1.
  pose proof (shape_matmul A B2 m k n HA HB2 Hk) as HP2.
  apply (matrix_ext _ _ m n).
  - now apply (shape_matmul A _ m k n).
  - now apply shape_combination.
  - intros i j Hi Hj.
    rewrite (ent_matmul A _ m k n i j HA HB Hk Hi Hj).
    rewrite (ent_combination a b _ _ m n i j HP1 HP2 Hi Hj).
    rewrite (ent_matmul A B1 m k n i j HA HB1 Hk Hi Hj).
    rewrite (ent_matmul A B2 m k n i j HA HB2 Hk Hi Hj).
    rewrite <- !bigsum_scal, <- bigsum_plus.
    apply bigsum_ext. intros l Hl.
    rewrite (ent_combination a b B1 B2 k n l j HB1 HB2 Hl Hj). ring.
Qed.

(** The back substitution is linear in its right hand side. *)
Lemma solve_combination (a b : R) (Rm Z1 Z2 : matrix R) (K N : nat) :
  shape Rm K K -> shape Z1 K N -> shape Z2 K N ->
  (forall i k, (k < i)%nat -> (i < K)%nat -> ent Rm i k = 0) ->
  regular_diagonal Rm K ->
  solve Rm (madd (scale a Z1) (scale b Z2))
  = madd (scale a (solve Rm Z1)) (scale b (solve Rm Z2)).
Proof.
  intros HRm HZ1 HZ2 Hupper Hdiag.
  pose proof (shape_combination a b Z1 Z2 K N HZ1 HZ2) as HZ.
  pose proof (shape_solve Rm Z1 K N HZ1) as HX1.
  pose proof (shape_solve Rm Z2 K N HZ2) as HX2.
  apply (matrix_ext _ _ K N);
    [now apply shape_solve | now apply shape_combination|].
  intros i c Hi Hc.
  apply (triangular_unique Rm K Hupper Hdiag
           (fun k => ent (solve Rm (madd (scale a Z1) (scale b Z2))) k c)
           (fun k => ent (madd (scale a (solve Rm Z1)) (scale b (solve Rm Z2))) k c));
    [|exact Hi].
  intros k Hk.
  rewrite (solve_entries Rm _ K N HRm HZ Hupper Hdiag k c Hk Hc).
  rewrite (ent_combination a b Z1 Z2 K N k c HZ1 HZ2 Hk Hc).
  rewrite <- (solve_entries Rm Z1 K N HRm HZ1 Hupper Hdiag k c Hk Hc).
  rewrite <- (solve_entries Rm Z2 K N HRm HZ2 Hupper Hdiag k c Hk Hc).
  rewrite <- !bigsum_scal, <- bigsum_plus.
  apply bigsum_ext. intros l Hl.
  rewrite (ent_combination a b _ _ K N l c HX1 HX2 Hl Hc). ring.
Qed.

(** The augmented data of a combination *)
Lemma Y_aug_combination (a b : R) (D Y1 Y2 : matrix R) (alpha : R)
    (M K N : nat) :
  shape D M K -> shape Y1 M N -> shape Y2 M N -> (0 < M)%nat ->
  Y_aug D (madd (scale a Y1) (scale b Y2)) alpha
  = madd (scale a (Y_aug D Y1 alpha)) (scale b (Y_aug D Y2 alpha)).
Proof.
  intros HD HY1 HY2 HM.
  pose proof (shape_combination a b Y1 Y2 M N HY1 HY2) as HY.
  destruct (Req_dec_T alpha 0) as [->|Hne]; [now rewrite !Y_aug_zero|].
  rewrite !(Y_aug_positive D _ alpha M K N) by assumption.
  set (O := repeat (repeat 0 N) K).
  assert (HO : shape O K N) by apply shape_repeat.
  apply (matrix_ext _ _ (M + K) N).
  - now apply shape_app.
  - apply shape_combination; now apply shape_app.
  - intros i j Hi Hj.
    rewrite (ent_combination a b _ _ (M + K) N i j) by (auto using shape_app).
    destruct (Nat.lt_ge_cases i M) as [Hlt|Hge].
    + rewrite (ent_app_above (madd _ _)) by (rewrite (proj1 HY); exact Hlt).
      rewrite (ent_app_above Y1) by (rewrite (proj1 HY1); exact Hlt).
      rewrite (ent_app_above Y2) by (rewrite (proj1 HY2); exact Hlt).
      now apply (ent_combination a b Y1 Y2 M N).
    + pose proof (ent_app_below (madd (scale a Y1) (scale b Y2)) O (i - M) j)
        as E. rewrite (proj1 HY) in E.
      pose proof (ent_app_below Y1 O (i - M) j) as E1.
      rewrite (proj1 HY1) in E1.
      pose proof (ent_app_below Y2 O (i - M) j) as E2.
      rewrite (proj1 HY2) in E2.
      replace (M + (i - M))%nat with i in E, E1, E2 by lia.
      rewrite E, E1, E2. unfold O. rewrite ent_zeros. ring.
Qed.
End Linearity.

(** X20.  In exact arithmetic [_getDAS] is linear in the data: for a
    factorization by [np.linalg.qr] whose [R] has no zero on its diagonal,
    the amplitudes for [a Y1 + b Y2] are [a] times the amplitudes for [Y1]
    plus [b] times those for [Y2], at the same [D] and [alpha]. *)
Theorem getDAS_linear_in_data
  (qr : matrix R -> matrix R * matrix R) (D Y1 Y2 : matrix R)
  (a b alpha : R) (M K N : nat) :
  shape D M K -> shape Y1 M N -> shape Y2 M N -> 0 < M -> 0 < K ->
  is_qr (D_aug D alpha) (fst (qr (D_aug D alpha))) (snd (qr (D_aug D alpha)))
        (if Rnonzero alpha then M + K else M) K ->
  regular_diagonal (snd (qr (D_aug D alpha))) K ->
  exists X1 X2 : matrix R,
    _getDAS qr D Y1 alpha = Ok X1
    /\ _getDAS qr D Y2 alpha = Ok X2
    /\ _getDAS qr D (madd (scale a Y1) (scale b Y2)) alpha
       = Ok (madd (scale a X1) (scale b X2)).
Proof.
  intros HD HY1 HY2 HM HK Hqr Hdiag.
  pose proof (shape_combination a b Y1 Y2 M N HY1 HY2) as HY.
  pose proof (shape_Y_aug D Y1 alpha M K N HD HY1 HM) as HYa1.
  pose proof (shape_Y_aug D Y2 alpha M K N HD HY2 HM) as HYa2.
  cbn [nonzero R_Arith] in HYa1, HYa2.
  destruct Hqr as (HQ & HRm & HQR & Horth & Hupper).
  assert (Hm : (0 < (if Rnonzero alpha then M + K else M))%nat)
    by (destruct (Rnonzero alpha); lia).
  assert (HQt : shape (transpose (fst (qr (D_aug D alpha)))) K
                  (if Rnonzero alpha then M + K else M))
    by (apply shape_transpose; auto).
  exists (DAS_of qr D Y1 alpha), (DAS_of qr D Y2 alpha).
  split; [apply (_getDAS_solve_at qr D Y1 alpha M K N); auto|].
  split; [apply (_getDAS_solve_at qr D Y2 alpha M K N); auto|].
  rewrite (_getDAS_solve_at qr D _ alpha M K N) by auto.
  f_equal. unfold DAS_of.
  rewrite (Y_aug_combination a b D Y1 Y2 alpha M K N) by assumption.
  rewrite (matmul_combination a b _ _ _ K _ N HQt HYa1 HYa2 Hm).
  apply (solve_combination a b _ _ _ K N); auto.
  - apply (shape_matmul _ _ K _ N HQt HYa1 Hm).
  - apply (shape_matmul _ _ K _ N HQt HYa2 Hm).
Qed.

(** ** An instance whose basis and time grid do not match *)

Section Mismatch.
Context {F : Type} {AF : Arith F} {SF : Special F}.
Variable qr : matrix F -> matrix F * matrix F.
Variable minimize : vec F -> option (list (F * F)) -> optimizer F.
Variable self : SVD_GA F.

(** The objective on data with another number of rows than the time grid,
    without width fitting, the stored width being zero *)
Lemma _min_rejects (p : vec F) (Y : matrix F) (Ts : vec F) (alpha : F)
    (M' K N : nat) :
  qr_shapes qr ->
  nonzero (FWHM_mod self) = false ->
  shape Y M' N -> M' <> length Ts -> 0 < M' -> 0 < length Ts -> 0 < K ->
  length p = K ->
  (nonzero alpha = false -> K <= length Ts) ->
  (exists D, _genD self p Ts false = Ok D
             /\ _getDAS qr D Y alpha = Raise ValueError)
  /\ _min qr self p Y Ts alpha false = Raise ValueError.
Proof.
  intros Hqr Hw HY Hne HM' HM HK Hp Hrank.
  destruct (_genD_has_shape self p Ts Hw) as (D & HgenD & HD).
  rewrite Hp in HD.
  assert (HX : _getDAS qr D Y alpha = Raise ValueError).
  { rewrite (_getDAS_up_to_product qr D Y alpha (length Ts) M' K N HD HY HM HM').
    rewrite (product_rejects qr D Y alpha (length Ts) M' K N)
      by (auto; congruence).
    reflexivity. }
  split; [exists D; now split|].
  unfold _min, residual. rewrite HgenD. cbn [bind]. now rewrite HX.
Qed.
End Mismatch.

(** X21.  Without width fitting, the stored width being zero: on an instance
    whose selected columns have another number of rows than the time grid
    ([updateData] does not compare them), [Global] ends in a [ValueError],
    whatever the optimizer does: the first evaluation of the objective
    raises it in [_getDAS], and so does [_GA] itself when the optimizer
    returns without an evaluation. *)
Theorem Global_rejects_basis_of_other_length
  {F : Type} {AF : Arith F} {SF : Special F}
  (qr : matrix F -> matrix F * matrix F)
  (minimize : vec F -> option (list (F * F)) -> optimizer F)
  (self : SVD_GA F) (sel : string) (x0 : vec F) (B : option (list (F * F)))
  (alpha : F) (M' K N : nat) (idx : list Z) (Y : matrix F) :
  qr_shapes qr ->
  nonzero (FWHM_mod self) = false ->
  sized (length x0) (minimize x0 B) ->
  length x0 = K -> 0 < K ->
  _get_wLSVs_for_fit self sel B = Ok (idx, Y) ->
  shape Y M' N -> M' <> length (T self) -> 0 < M' -> 0 < length (T self) ->
  (nonzero alpha = false -> K <= length (T self)) ->
  (forall p, length p = length x0 ->
     _min qr self p Y (T self) alpha false = Raise ValueError)
  /\ Global qr minimize self sel x0 B alpha false = Raise ValueError.
Proof.
  intros Hqr Hw Hsized Hx0 HK Hsel HY Hne HM' HM Hrank.
  assert (Hmin : forall p, length p = length x0 ->
            _min qr self p Y (T self) alpha false = Raise ValueError).
  { intros p Hp.
    apply (_min_rejects qr self p Y (T self) alpha M' K N); auto.
    lia. }
  split; [exact Hmin|].
  unfold Global. rewrite Hsel. cbn [bind snd]. unfold _GA.
  destruct (run_against_raising (length x0) ValueError
              (fun p => _min qr self p Y (T self) alpha false)
              (minimize x0 B) Hsized Hmin) as [Hrun | (x & Hrun & Hlen)].
  - now rewrite Hrun.
  - rewrite Hrun. cbn [bind].
    destruct (_min_rejects qr self x Y (T self) alpha M' K N)
      as [(D & HgenD & HX) _]; auto; [lia|].
    rewrite HgenD. cbn [bind]. now rewrite HX.
Qed.

(** X22.  A selector of several integers copies columns of [wLSV] into an
    array with one row for every time point: when [wLSV] has another number
    of rows, and not a single row, the first assignment
    [wLSV_fit[:, 0] = ...] cannot be broadcast and ends in a
    [ValueError]. *)
Theorem get_wLSVs_for_fit_rejects_basis_of_other_length
  {F : Type} {AF : Arith F} (self : SVD_GA F) (sel : string)
  (B : option (list (F * F))) (ns : list Z) (M' C : nat) :
  shape (wLSV self) M' C -> 0 < M' -> M' <> length (T self) -> M' <> 1 ->
  map_int (split sel) = Ok ns -> 2 <= length ns ->
  (1 - Z.of_nat C <= nth 0 ns 0 <= Z.of_nat C)%Z ->
  _get_wLSVs_for_fit self sel B = Raise ValueError.
Proof.
  intros [HM HC] HM' Hne H1 Hparse Hlen Hn0. unfold _get_wLSVs_for_fit.
  destruct (split sel) as [|tok toks] eqn:Etoks.
  { simpl in Hparse. injection Hparse as <-. simpl in Hlen. lia. }
  cbv beta iota. rewrite Hparse. cbn [bind].
  destruct ns as [|n [|n' ns']]; [simpl in Hlen; lia | simpl in Hlen; lia|].
  cbn [length Nat.eqb]. unfold np_zeros.
  assert (E : forall k, (Z.of_nat k <? 0)%Z = false)
    by (intros; apply Z.ltb_ge; lia).
  rewrite E, Nat2Z.id. cbn [bind]. unfold range. cbn [Nat.sub seq for_in].
  rewrite (getitem_nat (n :: n' :: ns') 0 0%Z) by (simpl; lia).
  cbn [bind nth]. cbn [nth] in Hn0.
  rewrite (getcol_wrap (wLSV self) _ C HC) by lia. cbn [bind].
  set (col := map _ (wLSV self)).
  assert (Hcol : length col = M') by (unfold col; now rewrite length_map).
  unfold setcol.
  replace (forallb _ _) with true.
  - rewrite repeat_length, Hcol.
    destruct (Nat.eqb_spec M' (length (T self))) as [E'|_]; [contradiction|].
    destruct col as [|x [|y col']]; [reflexivity | simpl in Hcol; lia|].
    reflexivity.
  - symmetry. apply forallb_forall. intros row Hrow.
    apply repeat_spec in Hrow. subst row. now rewrite repeat_length.
Qed.

(** X23.  A selector of white space only splits into no token and is the
    empty selector: the indices [[3]] and the slice [wLSV[:, :3]] are
    returned. *)
Theorem blank_selector_is_default
  {F : Type} {AF : Arith F} (self : SVD_GA F) (sel : string)
  (B : option (list (F * F))) :
  Forall (fun c => isspace c = true) (list_ascii_of_string sel) ->
  split sel = []
  /\ _get_wLSVs_for_fit self sel B = _get_wLSVs_for_fit self "" B
  /\ _get_wLSVs_for_fit self sel B = Ok ([3%Z], cols_to (wLSV self) 3).
Proof.
  intros Hblank.
  assert (Hsplit : split sel = []).
  { unfold split. induction (list_ascii_of_string sel) as [|c cs IH];
      [reflexivity|].
    cbn [tokens]. rewrite (Forall_inv Hblank).
    apply IH, (Forall_inv_tail Hblank). }
  split; [exact Hsplit|].
  unfold _get_wLSVs_for_fit. rewrite Hsplit. split; reflexivity.
Qed.

(** ** The pure exponential in exact arithmetic *)

(** X24.  In exact arithmetic, with no stored width and no width fitting,
    the column of a lifetime [tau > 0] decays: its entry is 1 at time 0,
    lies in (0, 1] at every time [t >= 0], and is no larger at a later time
    than at an earlier one. *)
Theorem genD_pure_exponential_decays
  (self : SVD_GA R) (taus Ts : vec R) (j : nat) :
  nonzero (FWHM_mod self) = false ->
  j < length taus -> (0 < nth j taus 0)%R ->
  exists D : matrix R,
    _genD self taus Ts false = Ok D
    /\ forall i, i < length Ts ->
         (nth i Ts 0 = 0 -> ent D i j = 1)%R
         /\ (0 <= nth i Ts 0 -> 0 < ent D i j <= 1)%R
         /\ forall i', i' < length Ts ->
              (nth i Ts 0 <= nth i' Ts 0 -> ent D i' j <= ent D i j)%R.
Proof.
  intros Hw Hj Htau. eexists. split; [apply _genD_fixed_width, Hw|].
  assert (Hent : forall i, i < length Ts ->
            ent (map (fun t => map (fun tau => fexp (- t / tau)%ar) taus) Ts) i j
            = exp (- nth i Ts 0%R / nth j taus 0%R)).
  { intros i Hi. unfold ent.
    rewrite (nth_map_lt _ _ _ 0%R) by exact Hi.
    rewrite (nth_map_lt _ _ _ 0%R) by exact Hj.
    reflexivity. }
  assert (Hmono : forall s t : R,
            (s <= t -> exp (- t / nth j taus 0) <= exp (- s / nth j taus 0))%R).
  { intros s t Hst.
    assert (Hle : (- t / nth j taus 0 <= - s / nth j taus 0)%R).
    { unfold Rdiv. apply Rmult_le_compat_r; [|lra].
      left. now apply Rinv_0_lt_compat. }
    destruct Hle as [Hlt | ->]; [left; now apply exp_increasing | right; reflexivity]. }
  intros i Hi. rewrite (Hent i Hi). split; [|split].
  - intros ->. replace (- 0 / nth j taus 0)%R with 0%R by (unfold Rdiv; ring).
    apply exp_0.
  - intros Ht. split; [apply exp_pos|].
    pose proof (Hmono 0%R (nth i Ts 0%R) Ht) as H0.
    replace (- 0 / nth j taus 0)%R with 0%R in H0 by (unfold Rdiv; ring).
    now rewrite exp_0 in H0.
  - intros i' Hi' Hle. rewrite (Hent i' Hi'). now apply Hmono.
Qed.

(** ** The minimizer is the only one *)

Section Pythagoras.
Local Open Scope R_scope.
Variables (m K N : nat).
Variables (a q r b x : nat -> nat -> R).
Hypothesis a_qr : forall i j, (i < m)%nat -> (j < K)%nat ->
  a i j = bigsum K (fun k => q i k * r k j).
Hypothesis q_orth : forall k l, (k < K)%nat -> (l < K)%nat ->
  bigsum m (fun i => q i k * q i l) = if (k =? l)%nat then 1 else 0.
Hypothesis x_solves : forall k c, (k < K)%nat -> (c < N)%nat ->
  bigsum K (fun l => r k l * x l c) = bigsum m (fun i => q i k * b i c).

(** The sum of squares of a candidate [y] exceeds that of [x] by the sum of
    squares of [a (y - x)]. *)
Lemma sum_sq_excess (y : nat -> nat -> R) :
  sum_sq m K N a b y
  = sum_sq m K N a b x
    + bigsum m (fun i => bigsum N (fun c =>
        bigsum K (fun j => a i j * (y j c - x j c))
        * bigsum K (fun j => a i j * (y j c - x j c)))).
Proof.
  set (g := fun i c => bigsum K (fun j => a i j * (y j c - x j c))).
  assert (Hres : forall i c, res_at K a b y i c = res_at K a b x i c - g i c).
  { intros i c. unfold res_at, g.
    rewrite (bigsum_ext K (fun j => a i j * (y j c - x j c))
               (fun j => a i j * y j c - a i j * x j c))
      by (intros; ring).
    rewrite bigsum_minus. lra. }
  assert (Hcross : bigsum m (fun i => bigsum N (fun c => res_at K a b x i c * g i c))
                   = 0).
  { rewrite bigsum_swap. apply bigsum_0. intros c Hc. unfold g.
    rewrite (bigsum_ext m _
               (fun i => bigsum K (fun j => (y j c - x j c)
                                            * (a i j * res_at K a b x i c)))).
    - rewrite bigsum_swap. apply bigsum_0. intros j Hj.
      rewrite bigsum_scal.
      rewrite (normal_equations m K N a q r b x a_qr q_orth x_solves j c Hj Hc).
      lra.
    - intros i Hi. rewrite <- bigsum_scal.
      apply bigsum_ext. intros j _. ring. }
  transitivity
    (sum_sq m K N a b x
     - 2 * bigsum m (fun i => bigsum N (fun c => res_at K a b x i c * g i c))
     + bigsum m (fun i => bigsum N (fun c => g i c * g i c))).
  - unfold sum_sq. rewrite <- bigsum_scal, <- bigsum_minus, <- bigsum_plus.
    apply bigsum_ext. intros i Hi.
    rewrite <- bigsum_scal, <- bigsum_minus, <- bigsum_plus.
    apply bigsum_ext. intros c Hc. rewrite Hres. ring.
  - rewrite Hcross. unfold g. ring.
Qed.
End Pythagoras.

Section OnlyMinimizer.
Local Open Scope R_scope.

Lemma bigsum_nonneg_zero (n : nat) (f : nat -> R) :
  (forall i, (i < n)%nat -> 0 <= f i) -> bigsum n f = 0 ->
  forall i, (i < n)%nat -> f i = 0.
Proof.
  induction n as [|n IH]; intros Hf H i Hi; [lia|].
  cbn [bigsum] in H.
  assert (H1 : 0 <= bigsum n f) by (apply bigsum_nonneg; intros; apply Hf; lia).
  assert (H2 : 0 <= f n) by (apply Hf; lia).
  destruct (Nat.eq_dec i n) as [->|Hne]; [lra|].
  apply IH; [intros; apply Hf; lia | lra | lia].
Qed.

(** A candidate whose sum of squares is not above that of the back
    substitution is the back substitution. *)
Lemma solve_only_minimizer (A B Q Rm X' : matrix R) (m K N : nat) :
  shape A m K -> shape B m N -> (0 < m)%nat -> (0 < K)%nat ->
  is_qr A Q Rm m K -> regular_diagonal Rm K -> shape X' K N ->
  sum_squares (msub B (matmul A X'))
  <= sum_squares (msub B (matmul A (solve Rm (matmul (transpose Q) B)))) ->
  X' = solve Rm (matmul (transpose Q) B).
Proof.
  intros HA HB Hm HK Hqr Hdiag HX' Hle.
  destruct (is_qr_entries A Q Rm m K Hm Hqr) as [Ha_qr Hq_orth].
  pose proof Hqr as (HQ & HRm & HQR & Horth & Hupper).
  assert (HQt : shape (transpose Q) K m) by (apply shape_transpose; auto).
  set (X := solve Rm (matmul (transpose Q) B)) in *.
  assert (HZ : shape (matmul (transpose Q) B) K N)
    by (apply (shape_matmul _ _ K m N); auto).
  assert (HX : shape X K N) by now apply shape_solve.
  rewrite (residual_as_sum A B X' m K N) in Hle by assumption.
  rewrite (residual_as_sum A B X m K N) in Hle by assumption.
  rewrite (sum_sq_excess m K N (ent A) (ent Q) (ent Rm) (ent B) (ent X)
             Ha_qr Hq_orth) in Hle.
  2:{ intros k c Hk Hc. unfold X.
      rewrite (solve_entries Rm _ K N HRm HZ Hupper Hdiag k c Hk Hc).
      rewrite (ent_matmul (transpose Q) B K m N k c HQt HB Hm Hk Hc).
      apply bigsum_ext. intros i Hi. f_equal.
      now apply (ent_transpose Q m K). }
  set (g := fun i c => bigsum K (fun j => ent A i j * (ent X' j c - ent X j c))).
  change (sum_sq m K N (ent A) (ent B) (ent X)
          + bigsum m (fun i => bigsum N (fun c => g i c * g i c))
          <= sum_sq m K N (ent A) (ent B) (ent X)) in Hle.
  assert (Hnn : forall i, (i < m)%nat ->
            0 <= bigsum N (fun c => g i c * g i c))
    by (intros; apply bigsum_nonneg; intros; nra).
  assert (Hzero : bigsum m (fun i => bigsum N (fun c => g i c * g i c)) = 0).
  { pose proof (bigsum_nonneg m _ Hnn). lra. }
  assert (Hg : forall i c, (i < m)%nat -> (c < N)%nat -> g i c = 0).
  { intros i c Hi Hc.
    pose proof (bigsum_nonneg_zero m _ Hnn Hzero i Hi) as Hrow.
    apply (bigsum_squares_zero N (g i) Hrow c Hc). }
  apply (matrix_ext X' X K N HX' HX). intros k c Hk Hc.
  assert (Hw : ent X' k c - ent X k c = 0); [|lra].
  apply (triangular_unique Rm K Hupper Hdiag
           (fun l => ent X' l c - ent X l c) (fun _ => 0)); [|exact Hk].
  intros l Hl.
  rewrite <- (qt_a_x m K (ent A) (ent Q) (ent Rm) Ha_qr Hq_orth
                (fun j => ent X' j c - ent X j c) l Hl).
  rewrite (bigsum_0 K (fun j => ent Rm l j * 0)) by (intros; ring).
  apply bigsum_0. intros i Hi. fold (g i c). rewrite (Hg i c Hi Hc). ring.
Qed.
End OnlyMinimizer.

Section RidgeOnlyMinimizer.
Local Open Scope R_scope.
Variable qr : matrix R -> matrix R * matrix R.

(** A candidate whose ridge objective is not above that of the amplitudes
    of [_getDAS] is these amplitudes. *)
Lemma DAS_of_only_minimizer (D Y X' : matrix R) (alpha : R) (M K N : nat) :
  shape D M K -> shape Y M N -> (0 < M)%nat -> (0 < K)%nat -> 0 <= alpha ->
  is_qr (D_aug D alpha) (fst (qr (D_aug D alpha))) (snd (qr (D_aug D alpha)))
        (if Rnonzero alpha then M + K else M)%nat K ->
  regular_diagonal (snd (qr (D_aug D alpha))) K ->
  shape X' K N ->
  ridge_objective D Y alpha X' <= ridge_objective D Y alpha (DAS_of qr D Y alpha) ->
  X' = DAS_of qr D Y alpha.
Proof.
  intros HD HY HM HK Ha Hqr Hdiag HX' Hle.
  destruct (residual_at qr D Y alpha M K N HD HY HM HK Hqr) as [_ HX].
  pose proof (shape_D_aug D alpha M K HD HM) as HDa.
  pose proof (shape_Y_aug D Y alpha M K N HD HY HM) as HYa.
  cbn [nonzero R_Arith] in HDa, HYa.
  unfold DAS_of.
  apply (solve_only_minimizer (D_aug D alpha) (Y_aug D Y alpha) _ _ X'
           (if Rnonzero alpha then M + K else M)%nat K N); auto.
  { destruct (Rnonzero alpha); lia. }
  fold (DAS_of qr D Y alpha).
  destruct (Req_dec_T alpha 0) as [H0|Hne].
  - subst alpha. rewrite D_aug_zero, Y_aug_zero.
    unfold ridge_objective in Hle. lra.
  - rewrite (D_aug_positive D alpha M K HD HM Hne).
    rewrite (Y_aug_positive D Y alpha M K N HD HY HM Hne).
    rewrite !(stacked_objective D Y _ alpha M K N) by assumption.
    exact Hle.
Qed.
End RidgeOnlyMinimizer.

(** X25.  In exact arithmetic, for [alpha >= 0] and a factorization by
    [np.linalg.qr] (with, at [alpha = 0], an [R] without zero on its
    diagonal), the array that [_getDAS] returns is the only minimizer of
    [||Y - D X||^2 + alpha ||X||^2]: a [K] by [N] array whose objective is
    not above that of the returned array is the returned array. *)
Theorem getDAS_returns_the_only_minimizer
  (qr : matrix R -> matrix R * matrix R) (D Y : matrix R) (alpha : R)
  (M K N : nat) :
  shape D M K -> shape Y M N -> 0 < M -> 0 < K -> (0 <= alpha)%R ->
  is_qr (D_aug D alpha) (fst (qr (D_aug D alpha))) (snd (qr (D_aug D alpha)))
        (if Rnonzero alpha then M + K else M) K ->
  (alpha = 0%R -> regular_diagonal (snd (qr (D_aug D alpha))) K) ->
  exists X : matrix R,
    _getDAS qr D Y alpha = Ok X
    /\ forall X' : matrix R, shape X' K N ->
         (ridge_objective D Y alpha X' <= ridge_objective D Y alpha X)%R ->
         X' = X.
Proof.
  intros HD HY HM HK Ha Hqr Hrank.
  pose proof (regular_at qr D alpha M K HD HM Ha Hqr Hrank) as Hdiag.
  exists (DAS_of qr D Y alpha). split.
  - apply (_getDAS_solve_at qr D Y alpha M K N); auto; apply Hqr.
  - intros X' HX' Hle.
    now apply (DAS_of_only_minimizer qr D Y X' alpha M K N).
Qed.

(** ** The order of the lifetimes *)

Section Reindexing.
Local Open Scope R_scope.

(** A sum with the term [k] taken out. *)
Lemma bigsum_remove (n k : nat) (g : nat -> R) :
  (k <= n)%nat ->
  bigsum (S n) g
  = bigsum n (fun j => if (j <? k)%nat then g j else g (S j)) + g k.
Proof.
  induction n as [|n IH]; intros Hk.
  - replace k with O by lia. simpl. ring.
  - destruct (Nat.eq_dec k (S n)) as [->|Hne].
    + change (bigsum (S (S n)) g) with (bigsum (S n) g + g (S n)).
      f_equal. apply bigsum_ext. intros j Hj.
      destruct (Nat.ltb_spec j (S n)); [reflexivity | lia].
    + change (bigsum (S (S n)) g) with (bigsum (S n) g + g (S n)).
      rewrite IH by lia. cbn [bigsum].
      destruct (Nat.ltb_spec n k); [lia|]. ring.
Qed.

(** A sum does not depend on the order of its terms. *)
Lemma bigsum_perm (n : nat) :
  forall (f : nat -> nat) (g : nat -> R),
    (forall i, (i < n)%nat -> (f i < n)%nat) ->
    (forall i j, (i < n)%nat -> (j < n)%nat -> f i = f j -> i = j) ->
    bigsum n (fun i => g (f i)) = bigsum n g.
Proof.
  induction n as [|n IH]; intros f g Hf Hinj; [reflexivity|].
  assert (Hk : (f n <= n)%nat) by (specialize (Hf n); lia).
  rewrite (bigsum_remove n (f n) g Hk). cbn [bigsum]. f_equal.
  set (k := f n) in *.
  set (g' := fun j => if (j <? k)%nat then g j else g (S j)).
  set (f' := fun i => if (f i <? k)%nat then f i else (f i - 1)%nat).
  assert (Hne : forall i, (i < n)%nat -> f i <> k).
  { intros i Hi E. apply (Hinj i n) in E; lia. }
  rewrite <- (IH f' g').
  - apply bigsum_ext. intros i Hi. unfold g', f'.
    pose proof (Hne i Hi). pose proof (Hf i ltac:(lia)).
    destruct (Nat.ltb_spec (f i) k).
    + destruct (Nat.ltb_spec (f i) k); [reflexivity | lia].
    + destruct (Nat.ltb_spec (f i - 1) k); [lia|]. f_equal. lia.
  - intros i Hi. unfold f'.
    pose proof (Hne i Hi). pose proof (Hf i ltac:(lia)).
    destruct (Nat.ltb_spec (f i) k); lia.
  - intros i j Hi Hj E. unfold f' in E.
    pose proof (Hne i Hi). pose proof (Hne j Hj).
    apply Hinj; try lia.
    destruct (Nat.ltb_spec (f i) k), (Nat.ltb_spec (f j) k); lia.
Qed.
End Reindexing.

Section ColumnOrder.
Local Open Scope R_scope.
Variables (K : nat) (f : nat -> nat).
Hypothesis f_bound : forall j, (j < K)%nat -> (f j < K)%nat.
Hypothesis f_inj : forall i j, (i < K)%nat -> (j < K)%nat -> f i = f j -> i = j.

Lemma shape_select_rows (X : matrix R) (N : nat) :
  shape X K N -> shape (select_rows f K X) K N.
Proof.
  intros HX. unfold select_rows. split; [now rewrite length_map, length_seq|].
  apply Forall_forall. intros row Hrow. apply in_map_iff in Hrow.
  destruct Hrow as (j & <- & Hj). apply in_seq in Hj.
  apply (shape_row X K N); [exact HX | apply f_bound; lia].
Qed.

Lemma ent_select_rows (X : matrix R) (j c : nat) :
  (j < K)%nat -> ent (select_rows f K X) j c = ent X (f j) c.
Proof.
  intros Hj. unfold ent, select_rows.
  rewrite (nth_map_lt _ _ _ O) by (rewrite length_seq; lia).
  now rewrite seq_nth by lia.
Qed.

(** Columns in another order against rows in that order: the same
    product, and the same sum of squares. *)
Lemma matmul_reordered (D D' X : matrix R) (M N : nat) :
  shape D M K -> shape D' M K -> shape X K N -> (0 < K)%nat ->
  (forall i j, (i < M)%nat -> (j < K)%nat -> ent D' i j = ent D i (f j)) ->
  matmul D' (select_rows f K X) = matmul D X.
Proof.
  intros HD HD' HX HK Hent.
  pose proof (shape_select_rows X N HX) as HX'.
  apply (matrix_ext _ _ M N);
    [now apply (shape_matmul _ _ M K N) | now apply (shape_matmul _ _ M K N)|].
  intros i c Hi Hc.
  rewrite (ent_matmul D' _ M K N i c HD' HX' HK Hi Hc).
  rewrite (ent_matmul D X M K N i c HD HX HK Hi Hc).
  rewrite <- (bigsum_perm K f (fun l => ent D i l * ent X l c) f_bound f_inj).
  apply bigsum_ext. intros j Hj.
  now rewrite (Hent i j Hi Hj), (ent_select_rows X j c Hj).
Qed.

Lemma sum_squares_select_rows (X : matrix R) (N : nat) :
  shape X K N -> sum_squares (select_rows f K X) = sum_squares X.
Proof.
  intros HX.
  rewrite (sum_squares_bigsum _ K N (shape_select_rows X N HX)).
  rewrite (sum_squares_bigsum X K N HX).
  rewrite <- (bigsum_perm K f
                (fun l => bigsum N (fun c => ent X l c * ent X l c)) f_bound f_inj).
  apply bigsum_ext. intros j Hj. apply bigsum_ext. intros c Hc.
  now rewrite (ent_select_rows X j c Hj).
Qed.

Lemma ridge_objective_reordered (D D' Y X : matrix R) (alpha : R) (M N : nat) :
  shape D M K -> shape D' M K -> shape X K N -> (0 < K)%nat ->
  (forall i j, (i < M)%nat -> (j < K)%nat -> ent D' i j = ent D i (f j)) ->
  ridge_objective D' Y alpha (select_rows f K X) = ridge_objective D Y alpha X.
Proof.
  intros HD HD' HX HK Hent. unfold ridge_objective.
  rewrite (matmul_reordered D D' X M N) by assumption.
  now rewrite (sum_squares_select_rows X N HX).
Qed.
End ColumnOrder.

Section LifetimeOrder.
Local Open Scope R_scope.
Variable qr : matrix R -> matrix R * matrix R.

(** Two decay matrices with the same columns in another order have the
    same residual. *)
Lemma residual_reordered (D D' Y : matrix R) (alpha : R) (M K N : nat)
    (f f' : nat -> nat) :
  shape D M K -> shape D' M K -> shape Y M N ->
  (0 < M)%nat -> (0 < K)%nat -> 0 <= alpha ->
  (forall j, (j < K)%nat -> (f j < K)%nat) ->
  (forall i j, (i < K)%nat -> (j < K)%nat -> f i = f j -> i = j) ->
  (forall i j, (i < M)%nat -> (j < K)%nat -> ent D' i j = ent D i (f j)) ->
  (forall j, (j < K)%nat -> (f' j < K)%nat) ->
  (forall i j, (i < K)%nat -> (j < K)%nat -> f' i = f' j -> i = j) ->
  (forall i j, (i < M)%nat -> (j < K)%nat -> ent D i j = ent D' i (f' j)) ->
  is_qr (D_aug D alpha) (fst (qr (D_aug D alpha))) (snd (qr (D_aug D alpha)))
        (if Rnonzero alpha then M + K else M)%nat K ->
  is_qr (D_aug D' alpha) (fst (qr (D_aug D' alpha))) (snd (qr (D_aug D' alpha)))
        (if Rnonzero alpha then M + K else M)%nat K ->
  regular_diagonal (snd (qr (D_aug D alpha))) K ->
  regular_diagonal (snd (qr (D_aug D' alpha))) K ->
  DAS_of qr D' Y alpha = select_rows f K (DAS_of qr D Y alpha)
  /\ matmul D' (DAS_of qr D' Y alpha) = matmul D (DAS_of qr D Y alpha).
Proof.
  intros HD HD' HY HM HK Ha Hf Hinj Hent Hf' Hinj' Hent' Hqr Hqr' Hdiag Hdiag'.
  destruct (residual_at qr D Y alpha M K N HD HY HM HK Hqr) as [_ HX].
  destruct (residual_at qr D' Y alpha M K N HD' HY HM HK Hqr') as [_ HX'].
  assert (E : select_rows f K (DAS_of qr D Y alpha) = DAS_of qr D' Y alpha).
  { apply (DAS_of_only_minimizer qr D' Y _ alpha M K N); auto.
    - now apply shape_select_rows.
    - rewrite (ridge_objective_reordered K f Hf Hinj D D' Y _ alpha M N)
        by assumption.
      rewrite <- (ridge_objective_reordered K f' Hf' Hinj' D' D Y
                    (DAS_of qr D' Y alpha) alpha M N) by assumption.
      apply (DAS_of_minimizes qr D Y alpha M K N); auto.
      now apply shape_select_rows. }
  split; [now symmetry|].
  rewrite <- E. now apply (matmul_reordered K f Hf Hinj D D' _ M N).
Qed.
End LifetimeOrder.

(** X26.  In exact arithmetic, where the decay matrix is returned (the
    width is not fitted; with a time point and a lifetime this is the pure
    exponential branch), the objective does not depend on the order of the
    lifetimes: for [alpha >= 0], lifetimes [taus'] that are a permutation of
    [taus], and factorizations by [np.linalg.qr] of both decay matrices
    (with, at [alpha = 0], factors [R] without zero on their diagonals),
    [_min] returns the same value at both parameter vectors. *)
Theorem min_ignores_order_of_lifetimes
  (qr : matrix R -> matrix R * matrix R) (self : SVD_GA R)
  (taus taus' Ts : vec R) (D D' Y : matrix R) (alpha : R) (N : nat) :
  Permutation taus taus' ->
  _genD self taus Ts false = Ok D ->
  _genD self taus' Ts false = Ok D' ->
  shape Y (length Ts) N -> 0 < length Ts -> 0 < length taus ->
  (0 <= alpha)%R ->
  is_qr (D_aug D alpha) (fst (qr (D_aug D alpha))) (snd (qr (D_aug D alpha)))
        (if Rnonzero alpha then length Ts + length taus else length Ts)
        (length taus) ->
  is_qr (D_aug D' alpha) (fst (qr (D_aug D' alpha))) (snd (qr (D_aug D' alpha)))
        (if Rnonzero alpha then length Ts + length taus else length Ts)
        (length taus) ->
  (alpha = 0%R -> regular_diagonal (snd (qr (D_aug D alpha))) (length taus)
                  /\ regular_diagonal (snd (qr (D_aug D' alpha))) (length taus)) ->
  exists r : R,
    _min qr self taus Y Ts alpha false = Ok r
    /\ _min qr self taus' Y Ts alpha false = Ok r.
Proof.
  intros Hperm HgenD HgenD' HY HM HK Ha Hqr Hqr' Hrank.
  set (e := fun t tau : R => exp (- t / tau)%R).
  assert (Hw : nonzero (FWHM_mod self) = false).
  { destruct (nonzero (FWHM_mod self)) eqn:Hw; [|reflexivity].
    rewrite _genD_stored_width in HgenD; try discriminate; auto.
    - intros ->. simpl in HK. lia.
    - intros ->. simpl in HM. lia. }
  assert (Hform : forall l : vec R,
            _genD self l Ts false = Ok (map (fun t => map (e t) l) Ts)).
  { intros l. exact (_genD_fixed_width self l Ts Hw). }
  rewrite Hform in HgenD, HgenD'.
  injection HgenD as <-. injection HgenD' as <-.
  set (D := map (fun t => map (e t) taus) Ts) in *.
  set (D' := map (fun t => map (e t) taus') Ts) in *.
  pose proof (Permutation_length Hperm) as Hlen.
  assert (HD : shape D (length Ts) (length taus)) by apply shape_map_map.
  assert (HD' : shape D' (length Ts) (length taus))
    by (rewrite Hlen; apply shape_map_map).
  assert (Hent : forall (l l' : vec R) (f : nat -> nat),
            length l' = length l ->
            (forall x, x < length l -> f x < length l) ->
            (forall x, x < length l -> nth x l' 0%R = nth (f x) l 0%R) ->
            forall i j, i < length Ts -> j < length l ->
              ent (map (fun t => map (e t) l') Ts) i j
              = ent (map (fun t => map (e t) l) Ts) i (f j)).
  { intros l l' f Hl Hf Hnth i j Hi Hj. unfold ent.
    rewrite (nth_map_lt (fun t => map (e t) l') Ts i 0%R []) by exact Hi.
    rewrite (nth_map_lt (fun t => map (e t) l) Ts i 0%R []) by exact Hi.
    rewrite (nth_map_lt (e (nth i Ts 0%R)) l' j 0%R 0%R) by lia.
    rewrite (nth_map_lt (e (nth i Ts 0%R)) l (f j) 0%R 0%R)
      by (apply Hf; exact Hj).
    now rewrite (Hnth j Hj). }
  destruct (proj1 (Permutation_nth taus taus' 0%R) Hperm)
    as (_ & f & Hf & Hinj & Hnth).
  destruct (proj1 (Permutation_nth taus' taus 0%R) (Permutation_sym Hperm))
    as (_ & f' & Hf' & Hinj' & Hnth').
  rewrite <- Hlen in Hf', Hinj', Hnth'.
  pose proof (regular_at qr D alpha (length Ts) (length taus) HD HM Ha Hqr
                (fun H => proj1 (Hrank H))) as Hdiag.
  pose proof (regular_at qr D' alpha (length Ts) (length taus) HD' HM Ha Hqr'
                (fun H => proj2 (Hrank H))) as Hdiag'.
  destruct (residual_reordered qr D D' Y alpha (length Ts) (length taus) N f f')
    as [_ Hfit]; auto.
  { intros i j Hi Hj. apply (Hent taus taus' f); auto. }
  { intros i j Hi Hj. apply (Hent taus' taus f'); try lia.
    - intros x Hx. rewrite <- Hlen. apply Hf'. lia.
    - intros x Hx. apply Hnth'. lia. }
  destruct (residual_at qr D Y alpha (length Ts) (length taus) N HD HY HM HK Hqr)
    as [Hr _].
  destruct (residual_at qr D' Y alpha (length Ts) (length taus) N HD' HY HM HK Hqr')
    as [Hr' _].
  exists (sum_squares (msub Y (matmul D (DAS_of qr D Y alpha)))).
  unfold _min. rewrite !Hform. cbn [bind]. fold D D'.
  rewrite Hr, Hr', Hfit. split; reflexivity.
Qed.

(** ** Examples of the further properties *)

Section FurtherExamplesBinary64.
Local Open Scope float_scope.

Lemma shape_basis5 : shape (wLSV basis5) (length (T basis5)) 5.
Proof. split; [reflexivity | repeat constructor]. Qed.

(** X6 on five columns: the entry 0 reads the last column. *)
Lemma get_wLSVs_for_fit_wraps_indices_example :
  _get_wLSVs_for_fit basis5 "0 2" None = Ok ([0; 2]%Z, [[5; 2]; [10; 7]]).
Proof.
  destruct (get_wLSVs_for_fit_wraps_indices basis5 "0 2" None [0; 2]%Z 5)
    as [H _].
  - exact shape_basis5.
  - reflexivity.
  - simpl. lia.
  - repeat constructor; lia.
  - exact H.
Defined.


(** X8 on five columns, for a count of 7. *)
Lemma get_wLSVs_for_fit_count_saturates_example :
  _get_wLSVs_for_fit basis5 "7" None = Ok ([7%Z], wLSV basis5).
Proof.
  destruct (get_wLSVs_for_fit_count_saturates basis5 "7" None [7%Z] 2 5)
    as (fit & Hfit & Hall & _).
  - exact shape_basis5.
  - reflexivity.
  - simpl. lia.
  - rewrite <- Hall; [exact Hfit | simpl; lia].
Defined.

(** X23 for two spaces. *)
Lemma blank_selector_is_default_example :
  _get_wLSVs_for_fit basis5 "  " None = Ok ([3%Z], [[1; 2; 3]; [6; 7; 8]]).
Proof.
  destruct (blank_selector_is_default basis5 "  " None) as (_ & _ & H).
  - repeat constructor.
  - exact H.
Defined.
End FurtherExamplesBinary64.

Section FurtherExamplesReal.
Local Open Scope R_scope.

Lemma sized_once (x0 : vec R) : sized (length x0) (minimize_once x0 None).
Proof. constructor; [reflexivity|]. intros v. constructor. reflexivity. Qed.

Lemma nonzero_one : nonzero 1 = true.
Proof. apply Rnonzero_true. lra. Qed.

(** X3 for one singular value against two columns of [U]. *)
Lemma updateData_rejects_mismatched_factors_example :
  updateData measured_short = Raise ValueError
  /\ __init__ measured_short = Raise ValueError.
Proof.
  apply (updateData_rejects_mismatched_factors measured_short
           [[1; 2]] [] [3] 1 2).
  - reflexivity.
  - split; [reflexivity | repeat constructor].
  - lia.
  - simpl. lia.
Defined.

(** X4 for two singular values. *)
Lemma updateData_weights_singular_vectors_example :
  exists self : SVD_GA R,
    updateData measured = Ok self
    /\ T self = [0]
    /\ FWHM_mod self = 1 / (2 * sqrt (ln 2))
    /\ shape (wLSV self) 1 2
    /\ forall i j, (i < 1)%nat -> (j < 2)%nat ->
         ent (wLSV self) i j = ent [[1; 2]] i j * nth j [3; 4] 0.
Proof.
  apply (updateData_weights_singular_vectors measured
           [[1; 2]] [] [3; 4] 1 tt tt tt tt 1 2).
  - reflexivity.
  - reflexivity.
  - split; [reflexivity | repeat constructor].
  - reflexivity.
  - lia.
Defined.

(** X5 for the stored FWHM 1 and the lifetime 2. *)
Lemma genD_with_instrument_response_example :
  exists self : SVD_GA R,
    updateData measured = Ok self
    /\ _genD self [2] [0] false = Raise NameError
    /\ _genD self [2; 1] [0] true = Raise NameError.
Proof.
  assert (H : updateData measured
              = Ok {| wLSV := matmul [[1; 2]] (np_diag [3; 4]);
                      T := [0];
                      FWHM_mod := 1 / (2 * sqrt (ln 2)) |}).
  { exact (updateData_attributes measured [[1; 2]] [] [3; 4] 1 tt tt tt tt 2
             eq_refl eq_refl
             (Forall_cons [1; 2] (eq_refl : length [1; 2] = 2%nat) (Forall_nil _))
             eq_refl). }
  eexists. split; [exact H|]. split.
  - apply (genD_with_instrument_response_raises_NameError
             measured _ [2] [0] false 1 tt tt tt tt).
    + exact H.
    + reflexivity.
    + lra.
    + discriminate.
    + discriminate.
  - apply (genD_with_instrument_response_raises_NameError
             measured _ [2; 1] [0] true 1 tt tt tt tt).
    + exact H.
    + reflexivity.
    + lra.
    + discriminate.
    + discriminate.
Defined.

(** X2 for the lifetimes 1 and 2 at the times 0 and 1. *)
Lemma genD_appends_columns_example :
  exists D1 D2 : matrix R,
    _genD (self_with_width 0) [1] [0; 1] false = Ok D1
    /\ _genD (self_with_width 0) [2] [0; 1] false = Ok D2
    /\ shape D1 2 1
    /\ shape D2 2 1
    /\ _genD (self_with_width 0) [1; 2] [0; 1] false = Ok (hstack D1 D2).
Proof.
  apply (genD_appends_columns (self_with_width 0) [1] [2] [0; 1]).
  apply Rnonzero_false. reflexivity.
Defined.

(** X9 for a selector with the letter x. *)
Lemma Global_rejects_selector_that_is_no_number_example :
  _get_wLSVs_for_fit basis3 "2 x" None = Raise ValueError
  /\ Global qr_shaped minimize_once basis3 "2 x" [1] None 1 false
     = Raise ValueError.
Proof.
  apply (Global_rejects_selector_that_is_no_number
           qr_shaped minimize_once basis3 "2 x" "x"%char [1] None 1 false).
  - simpl. auto.
  - apply Nat.ltb_lt. reflexivity.
  - reflexivity.
  - reflexivity.
  - discriminate.
  - discriminate.
  - discriminate.
Defined.

(** X10 for one lifetime and one column. *)
Lemma GA_returns_the_fit_of_its_lifetimes_example :
  exists (x : vec R) (DAS SpecFit : matrix R),
    _GA qr_shaped minimize_once basis3 [1] [[1]] [0] 1 None false
    = Ok (x, DAS, SpecFit)
    /\ _min qr_shaped basis3 x [[1]] [0] 1 false
       = Ok (sum_squares (msub [[1]] SpecFit)).
Proof.
  destruct (GA_returns_the_fit_of_its_lifetimes
              qr_shaped minimize_once basis3 [1] [[1]] [0] 1 None 1 1)
    as (x & D & DAS & SpecFit & HGA & _ & _ & _ & _ & _ & _ & Hmin).
  - exact qr_shapes_shaped.
  - apply Rnonzero_false. reflexivity.
  - apply sized_once.
  - reflexivity.
  - lia.
  - apply shape_one.
  - simpl. lia.
  - intros _. simpl. lia.
  - exists x, DAS, SpecFit. split; assumption.
Defined.

(** X11 for one lifetime on a basis of three columns. *)
Lemma Global_without_width_fit_returns_lifetimes_example :
  exists x : vec R,
    Global qr_shaped minimize_once basis3 "" [1] None 1 false = Ok (x, None)
    /\ length x = 1%nat.
Proof.
  destruct (Global_without_width_fit_returns_lifetimes
              qr_shaped minimize_once basis3 "" [1] None 1 1 3
              [3%Z] [[1; 2; 3]])
    as (x & _ & Hlen & HG).
  - exact qr_shapes_shaped.
  - apply Rnonzero_false. reflexivity.
  - apply sized_once.
  - reflexivity.
  - lia.
  - reflexivity.
  - split; [reflexivity | repeat constructor].
  - simpl. lia.
  - lia.
  - intros _. simpl. lia.
  - exists x. split; assumption.
Defined.

(** X12 for the selector 0. *)
Lemma Global_without_fitted_columns_raises_example :
  Global qr_shaped minimize_once basis3 "0" [1] None 1 false
  = Raise IndexError.
Proof.
  destruct (Global_without_fitted_columns_raises
              qr_shaped minimize_once basis3 "0" [1] None 1 1
              [0%Z] [[]])
    as (_ & _ & HG).
  - exact qr_shapes_shaped.
  - apply Rnonzero_false. reflexivity.
  - apply sized_once.
  - reflexivity.
  - lia.
  - reflexivity.
  - split; [reflexivity | repeat constructor].
  - simpl. lia.
  - intros _. simpl. lia.
  - exact HG.
Defined.

(** X13 for one row of [D] and two rows of data. *)
Lemma getDAS_rejects_data_of_other_length_example :
  _getDAS qr_shaped [[1]] [[1]; [2]] 1 = Raise ValueError.
Proof.
  apply (getDAS_rejects_data_of_other_length qr_shaped
           [[1]] [[1]; [2]] 1 1 2 1 1).
  - exact qr_shapes_shaped.
  - apply shape_one.
  - split; [reflexivity | repeat constructor].
  - lia.
  - lia.
  - lia.
  - lia.
  - intros _. lia.
Defined.

(** X14 for one lifetime. *)
Lemma min_on_empty_time_grid_raises_example :
  _genD basis3 [1] [] false = Ok []
  /\ _getDAS qr_shaped [] [[1]] 1 = Raise IndexError
  /\ _min qr_shaped basis3 [1] [[1]] [] 1 false = Raise IndexError
  /\ _min qr_shaped basis3 [1] [[1]] [] 1 true = Raise NameError.
Proof.
  apply (min_on_empty_time_grid_raises qr_shaped basis3 [1] [[1]] 1).
  exact nonzero_one.
Defined.

(** X21 and X22 for a basis of two rows and a single time point. *)
Lemma Global_rejects_basis_of_other_length_example :
  Global qr_shaped minimize_once basis_two_rows "" [1] None 1 false
  = Raise ValueError.
Proof.
  destruct (Global_rejects_basis_of_other_length
              qr_shaped minimize_once basis_two_rows "" [1] None 1
              2 1 3 [3%Z] [[1; 2; 3]; [4; 5; 6]])
    as [_ HG].
  - exact qr_shapes_shaped.
  - apply Rnonzero_false. reflexivity.
  - apply sized_once.
  - reflexivity.
  - lia.
  - reflexivity.
  - split; [reflexivity | repeat constructor].
  - simpl. lia.
  - lia.
  - simpl. lia.
  - intros _. simpl. lia.
  - exact HG.
Defined.

Lemma get_wLSVs_for_fit_rejects_basis_of_other_length_example :
  _get_wLSVs_for_fit basis_two_rows "1 2" None = Raise ValueError.
Proof.
  apply (get_wLSVs_for_fit_rejects_basis_of_other_length
           basis_two_rows "1 2" None [1; 2]%Z 2 3).
  - split; [reflexivity | repeat constructor].
  - lia.
  - simpl. lia.
  - lia.
  - reflexivity.
  - simpl. lia.
  - simpl. lia.
Defined.

(** X24 for the lifetime 1 at the times 0 and 1. *)
Lemma genD_pure_exponential_decays_example :
  exists D : matrix R,
    _genD (self_with_width 0) [1] [0; 1] false = Ok D
    /\ ent D 0 0 = 1
    /\ ent D 1 0 <= ent D 0 0.
Proof.
  destruct (genD_pure_exponential_decays (self_with_width 0) [1] [0; 1] 0%nat)
    as (D & HD & Hdecay).
  - apply Rnonzero_false. reflexivity.
  - simpl. lia.
  - simpl. lra.
  - exists D. split; [exact HD|].
    destruct (Hdecay 0%nat ltac:(simpl; lia)) as (H1 & _ & Hlater).
    split; [apply H1; reflexivity|].
    apply (Hlater 1%nat); simpl; [lia | lra].
Defined.
End FurtherExamplesReal.

Section FurtherExamplesSolve.
Local Open Scope R_scope.

Lemma is_qr_single (a : R) : is_qr [[a]] [[1]] [[a]] 1 1.
Proof.
  split; [apply shape_one|]. split; [apply shape_one|].
  split; [|split].
  - cbv [matmul map transpose length seq nth inner total combine fold_left
           fst snd add mul zero R_Arith].
    repeat (f_equal; try lra).
  - cbv [matmul map transpose length seq nth inner total combine fold_left
           fst snd add mul zero one R_Arith np_identity Nat.eqb].
    repeat (f_equal; try lra).
  - intros i k Hk Hi. lia.
Qed.

Lemma is_qr_single_flipped (a : R) : is_qr [[a]] [[-1]] [[-1 * a]] 1 1.
Proof.
  split; [apply shape_one|]. split; [apply shape_one|].
  split; [|split].
  - cbv [matmul map transpose length seq nth inner total combine fold_left
           fst snd add mul zero R_Arith].
    repeat (f_equal; try lra).
  - cbv [matmul map transpose length seq nth inner total combine fold_left
           fst snd add mul zero one R_Arith np_identity Nat.eqb].
    repeat (f_equal; try lra).
  - intros i k Hk Hi. lia.
Qed.

Lemma is_qr_column_at_0 (a : R) :
  is_qr (D_aug [[a]] 0) (fst (qr_column (D_aug [[a]] 0)))
        (snd (qr_column (D_aug [[a]] 0))) (if Rnonzero 0 then 1 + 1 else 1) 1.
Proof.
  rewrite D_aug_zero, (proj2 (Rnonzero_false 0) eq_refl).
  apply is_qr_single.
Qed.

Lemma is_qr_flipped_at_0 (a : R) :
  is_qr (D_aug [[a]] 0) (fst (qr_flipped (D_aug [[a]] 0)))
        (snd (qr_flipped (D_aug [[a]] 0))) (if Rnonzero 0 then 1 + 1 else 1) 1.
Proof.
  rewrite D_aug_zero, (proj2 (Rnonzero_false 0) eq_refl).
  apply is_qr_single_flipped.
Qed.

Lemma is_qr_column_at_3 :
  is_qr (D_aug [[exp (- 0 / 1)]] 3)
        (fst (qr_column (D_aug [[exp (- 0 / 1)]] 3)))
        (snd (qr_column (D_aug [[exp (- 0 / 1)]] 3)))
        (if Rnonzero 3 then 1 + 1 else 1) 1.
Proof.
  rewrite (proj2 (Rnonzero_true 3)) by lra. exact is_qr_at_3.
Qed.

(** X15 for [D = [[2]]] and the amplitude 3. *)
Lemma getDAS_recovers_amplitudes_example :
  _getDAS qr_column [[2]] (matmul [[2]] [[3]]) 0 = Ok [[3]]
  /\ residual qr_column [[2]] (matmul [[2]] [[3]]) 0 = Ok 0.
Proof.
  apply (getDAS_recovers_amplitudes qr_column [[2]] [[3]] 1 1 1).
  - apply shape_one.
  - apply shape_one.
  - lia.
  - lia.
  - apply is_qr_single.
  - apply regular_diagonal_one. lra.
Defined.

(** X16 at [alpha = 3]. *)
Lemma min_between_zero_and_data_example :
  exists r : R,
    _min qr_column (self_with_width 0) [1] [[1]] [0] 3 false = Ok r
    /\ 0 <= r <= sum_squares [[1]].
Proof.
  apply (min_between_zero_and_data qr_column (self_with_width 0) [1] [0] false
           [[exp (- 0 / 1)]] [[1]] 3 1 1 1).
  - exact genD_one_entry.
  - apply shape_one.
  - apply shape_one.
  - lia.
  - lia.
  - lra.
  - exact is_qr_column_at_3.
  - intros H. lra.
Defined.

(** X17 between [alpha = 0] and [alpha = 3]. *)
Lemma getDAS_amplitudes_shrink_with_alpha_example :
  exists X1 X2 : matrix R,
    _getDAS qr_column [[exp (- 0 / 1)]] [[1]] 0 = Ok X1
    /\ _getDAS qr_column [[exp (- 0 / 1)]] [[1]] 3 = Ok X2
    /\ sum_squares X2 <= sum_squares X1.
Proof.
  apply (getDAS_amplitudes_shrink_with_alpha qr_column
           [[exp (- 0 / 1)]] [[1]] 0 3 1 1 1).
  - apply shape_one.
  - apply shape_one.
  - lia.
  - lia.
  - lra.
  - exact is_qr_at_0.
  - exact is_qr_at_3.
  - intros _. rewrite D_aug_zero. cbn [qr_column snd].
    apply regular_diagonal_one. pose proof (exp_pos (- 0 / 1)). lra.
Defined.

(** X18 for the two factorizations of [[[2]]]. *)
Lemma getDAS_independent_of_factorization_example :
  exists X : matrix R,
    _getDAS qr_column [[2]] [[3]] 0 = Ok X
    /\ _getDAS qr_flipped [[2]] [[3]] 0 = Ok X.
Proof.
  apply (getDAS_independent_of_factorization qr_column qr_flipped
           [[2]] [[3]] 0 1 1 1).
  - apply shape_one.
  - apply shape_one.
  - lia.
  - lia.
  - lra.
  - apply is_qr_column_at_0.
  - apply is_qr_flipped_at_0.
  - intros _. rewrite D_aug_zero. split.
    + apply regular_diagonal_one. lra.
    + cbn [qr_flipped snd scale map mul R_Arith].
      apply regular_diagonal_one. lra.
Defined.

(** X19 at [alpha = 3]. *)
Lemma getDAS_satisfies_normal_equations_example :
  exists X : matrix R,
    _getDAS qr_column [[exp (- 0 / 1)]] [[1]] 3 = Ok X
    /\ shape X 1 1
    /\ forall j c, (j < 1)%nat -> (c < 1)%nat ->
         bigsum 1 (fun i => ent [[exp (- 0 / 1)]] i j
                            * ent (msub [[1]] (matmul [[exp (- 0 / 1)]] X)) i c)
         = 3 * ent X j c.
Proof.
  apply (getDAS_satisfies_normal_equations qr_column
           [[exp (- 0 / 1)]] [[1]] 3 1 1 1).
  - apply shape_one.
  - apply shape_one.
  - lia.
  - lia.
  - lra.
  - exact is_qr_column_at_3.
  - intros H. lra.
Defined.

(** X25 at [alpha = 3]. *)
Lemma getDAS_returns_the_only_minimizer_example :
  exists X : matrix R,
    _getDAS qr_column [[exp (- 0 / 1)]] [[1]] 3 = Ok X
    /\ forall X' : matrix R, shape X' 1 1 ->
         ridge_objective [[exp (- 0 / 1)]] [[1]] 3 X'
         <= ridge_objective [[exp (- 0 / 1)]] [[1]] 3 X ->
         X' = X.
Proof.
  apply (getDAS_returns_the_only_minimizer qr_column
           [[exp (- 0 / 1)]] [[1]] 3 1 1 1).
  - apply shape_one.
  - apply shape_one.
  - lia.
  - lia.
  - lra.
  - exact is_qr_column_at_3.
  - intros H. lra.
Defined.

(** X20 at [alpha = 3], for [2 Y1 + 3 Y2]. *)
Lemma getDAS_linear_in_data_example :
  exists X1 X2 : matrix R,
    _getDAS qr_column [[exp (- 0 / 1)]] [[1]] 3 = Ok X1
    /\ _getDAS qr_column [[exp (- 0 / 1)]] [[2]] 3 = Ok X2
    /\ _getDAS qr_column [[exp (- 0 / 1)]]
         (madd (scale 2 [[1]]) (scale 3 [[2]])) 3
       = Ok (madd (scale 2 X1) (scale 3 X2)).
Proof.
  apply (getDAS_linear_in_data qr_column [[exp (- 0 / 1)]] [[1]] [[2]]
           2 3 3 1 1 1).
  - apply shape_one.
  - apply shape_one.
  - apply shape_one.
  - lia.
  - lia.
  - exact is_qr_column_at_3.
  - apply (is_qr_regular [[exp (- 0 / 1)]]
             (fst (qr_column (D_aug [[exp (- 0 / 1)]] 3)))
             (snd (qr_column (D_aug [[exp (- 0 / 1)]] 3))) 3 1 1).
    + apply shape_one.
    + lia.
    + lra.
    + exact is_qr_at_3.
Defined.
End FurtherExamplesSolve.

Section FurtherExamplesOrder.
Local Open Scope R_scope.

Lemma is_qr_stacked (x y s : R) :
  0 < s ->
  is_qr [[x; y]; [s; 0]; [0; s]]
        (fst (qr_stacked [[x; y]; [s; 0]; [0; s]]))
        (snd (qr_stacked [[x; y]; [s; 0]; [0; s]])) 3 2.
Proof.
  intros Hs. unfold qr_stacked. cbn [ent nth fst snd].
  set (n1 := sqrt (x * x + s * s)).
  set (n3 := sqrt (x * x + y * y + s * s)).
  assert (H1 : n1 * n1 = x * x + s * s) by (apply sqrt_sqrt; nra).
  assert (H3 : n3 * n3 = x * x + y * y + s * s) by (apply sqrt_sqrt; nra).
  assert (P1 : 0 < n1) by (apply sqrt_lt_R0; nra).
  assert (P3 : 0 < n3) by (apply sqrt_lt_R0; nra).
  assert (H3' : n3 * n3 = y * y + n1 * n1) by lra.
  assert (E1 : (x * x + s * s) / (n1 * n1) = 1)
    by (rewrite <- H1; field; lra).
  assert (E3 : (y * y + n1 * n1) / (n3 * n3) = 1)
    by (rewrite <- H3'; field; lra).
  split; [split; [reflexivity | repeat constructor]|].
  split; [split; [reflexivity | repeat constructor]|].
  split; [|split].
  - cbv [matmul map transpose length seq nth inner total combine fold_left
           fst snd add mul zero R_Arith].
    f_equal; [|f_equal; [|f_equal]]; f_equal; try f_equal;
      try (field; lra).
    transitivity (y * ((x * x + s * s) / (n1 * n1))); [field; lra|].
    rewrite E1. ring.
  - cbv [matmul map transpose length seq nth inner total combine fold_left
           fst snd add mul zero one R_Arith np_identity Nat.eqb].
    f_equal; [|f_equal]; f_equal; try f_equal; try (field; lra).
    + transitivity ((x * x + s * s) / (n1 * n1)); [field; lra | exact E1].
    + transitivity ((y * y * (x * x + s * s) + n1 * n1 * (n1 * n1))
                    / (n1 * n1 * (n3 * n3))); [field; lra|].
      rewrite <- H1.
      transitivity ((y * y + n1 * n1) / (n3 * n3)); [field; lra | exact E3].
  - intros i k Hk Hi.
    assert (E : i = 1%nat /\ k = 0%nat) by lia. destruct E as [-> ->].
    reflexivity.
Qed.

(** The stacked array of a decay matrix of one time point and two
    lifetimes at [alpha = 1]. *)
Lemma stacked_at_one (x y : R) :
  D_aug [[x; y]] 1 = [[x; y]; [1; 0]; [0; 1]].
Proof.
  rewrite (D_aug_positive _ 1 1 2); try lia; try lra;
    [|split; [reflexivity | repeat constructor]].
  rewrite sqrt_1.
  cbn [app scale map np_identity seq Nat.eqb mul one zero R_Arith].
  repeat (f_equal; try lra).
Qed.

Lemma genD_two_entries (tau1 tau2 : R) :
  _genD (self_with_width 0) [tau1; tau2] [1] false
  = Ok [[exp (- 1 / tau1); exp (- 1 / tau2)]].
Proof.
  exact (_genD_fixed_width (self_with_width 0) [tau1; tau2] [1]
           (proj2 (Rnonzero_false 0) eq_refl)).
Qed.

(** X26 for the lifetimes 1 and 2 at the time 1 and [alpha = 1]: the two
    decay matrices have their columns in the other order, and the columns
    differ. *)
Lemma min_ignores_order_of_lifetimes_example :
  _genD (self_with_width 0) [1; 2] [1] false
  = Ok [[exp (- 1 / 1); exp (- 1 / 2)]]
  /\ _genD (self_with_width 0) [2; 1] [1] false
     = Ok [[exp (- 1 / 2); exp (- 1 / 1)]]
  /\ exp (- 1 / 1) < exp (- 1 / 2)
  /\ exists r : R,
       _min qr_stacked (self_with_width 0) [1; 2] [[1]] [1] 1 false = Ok r
       /\ _min qr_stacked (self_with_width 0) [2; 1] [[1]] [1] 1 false = Ok r.
Proof.
  split; [apply genD_two_entries|]. split; [apply genD_two_entries|].
  split; [apply exp_increasing; lra|].
  apply (min_ignores_order_of_lifetimes qr_stacked (self_with_width 0)
           [1; 2] [2; 1] [1]
           [[exp (- 1 / 1); exp (- 1 / 2)]] [[exp (- 1 / 2); exp (- 1 / 1)]]
           [[1]] 1 1).
  - apply perm_swap.
  - apply genD_two_entries.
  - apply genD_two_entries.
  - apply shape_one.
  - simpl. lia.
  - simpl. lia.
  - lra.
  - rewrite (proj2 (Rnonzero_true 1)) by lra.
    rewrite stacked_at_one. apply is_qr_stacked. lra.
  - rewrite (proj2 (Rnonzero_true 1)) by lra.
    rewrite stacked_at_one. apply is_qr_stacked. lra.
  - intros H. lra.
Defined.
End FurtherExamplesOrder.
